(** * ArduinoUtilities: fixed-capacity containers and EEPROM/PROGMEM handles

    A shallow embedding of the header-only library
    (src/utils/containers, src/utils/eeprom, src/utils/progmem,
    src/utils/utils) together with the properties stated about it.

    Conventions of the embedding:
    - [size_t] is the 16-bit unsigned type of the AVR target; values are
      integers in [0, 65536) and every arithmetic operation on them is
      followed by an explicit [wrap].
    - [utils::Array<T, capacity>] is a [list T] of length [capacity].
      An access [elements[i]] outside the array is undefined behaviour
      in C++; here it yields [OutOfBounds i].
    - [void] member functions return the new object state.
    - A reference to an element is the slot (array offset) it designates.
    - Loops whose exit test is [!=] run on fuel ([LOOP_FUEL] exceeds the
      number of distinct [size_t] values, so it never runs out).
    - A parameter of type [const value_type &] that the function reads
      after it has written to the array is an [argument]: an outside
      value, or an element of the container, read where it then is.
    - A call that ends without a [return] statement in a function
      declared to return a value is a [FlowsOffEnd].
    - A call that selects a template whose body does not compile for
      the type is [IllFormed]. *)

From Stdlib Require Import ZArith Lia Ascii String.
From stdpp Require Import base option list numbers gmap.

Local Open Scope Z_scope.

(** ** [size_t] arithmetic *)

(** Number of distinct values of [size_t] (2^16 on AVR). *)
Definition SIZE_MODULUS : Z := 65536.

Definition wrap (x : Z) : Z := x mod SIZE_MODULUS.

(** Enough iterations for any loop over a [size_t] counter. *)
Definition LOOP_FUEL : nat := S (Z.to_nat SIZE_MODULUS).

(** ** Outcome of running a member function *)

Inductive result (A : Type) : Type :=
  | Ok (a : A)
  | OutOfBounds (slot : Z)
  | OutOfFuel.

Arguments Ok {A} a.
Arguments OutOfBounds {A} slot.
Arguments OutOfFuel {A}.

#[global] Instance result_ret : MRet result := λ A a, Ok a.

#[global] Instance result_bind : MBind result := λ A B f m,
  match m with
  | Ok a => f a
  | OutOfBounds i => OutOfBounds i
  | OutOfFuel => OutOfFuel
  end.

(** ** Arguments bound to a reference parameter *)

(** What a call passes for a parameter of type [const value_type &]:
    an object outside the deque (a temporary or a variable of the
    caller), given by the value it holds, or the element
    [deque[index]] of the deque the function is called on, as in
    [deque.push_front(deque.back())]. The function body reads the
    second in the array as the array is when the parameter is read. *)
Inductive argument (T : Type) : Type :=
  | Value (value : T)
  | Element (index : Z).

Arguments Value {T} value.
Arguments Element {T} index.

(** ** How a call of a function declared to return a value ends *)

(** [erase], of either deque, is declared to return an iterator, and
    its only [return] statements are the bare [return;] of the exits
    guarded by CONTAINER_SAFETY. A call leaves at one of those, or it
    runs off the end of the function body, where the behaviour of the
    program is undefined. Either way [s] is the state the container
    has been left in by then. *)
Inductive completion (S : Type) : Type :=
  | Returns (s : S)
  | FlowsOffEnd (s : S).

Arguments Returns {S} s.
Arguments FlowsOffEnd {S} s.

Definition state_left {S : Type} (c : completion S) : S :=
  match c with
  | Returns s | FlowsOffEnd s => s
  end.

(** ** Raw arrays: [value_type elements[capacity]] *)

Section RawArray.
Context {T : Type}.

Definition in_bounds (a : list T) (i : Z) : bool :=
  (0 <=? i) && (i <? Z.of_nat (length a)).

(** [&elements[i]] / binding a reference to [elements[i]]. *)
Definition slot_ref (a : list T) (i : Z) : result Z :=
  if in_bounds a i then Ok i else OutOfBounds i.

(** Reading [elements[i]]. *)
Definition array_get (a : list T) (i : Z) : result T :=
  if in_bounds a i
  then match a !! Z.to_nat i with
       | Some x => Ok x
       | None => OutOfBounds i
       end
  else OutOfBounds i.

(** [elements[i] = v]. *)
Definition array_set (a : list T) (i : Z) (v : T) : result (list T) :=
  if in_bounds a i then Ok (<[Z.to_nat i := v]> a) else OutOfBounds i.

(** [for (index = lo; index < hi; ++index) body], for a body that
    changes neither [index] nor [hi]. *)
Fixpoint for_each {S : Type} (indices : list Z)
    (body : Z → S → result S) (s : S) : result S :=
  match indices with
  | [] => Ok s
  | index :: rest => s' ← body index s; for_each rest body s'
  end.

Definition for_up {S : Type} (lo hi : Z) := @for_each S (seqZ lo (hi - lo)).

(** [for (index = hi; index > lo; --index) body]. *)
Definition for_down {S : Type} (hi lo : Z) :=
  @for_each S (reverse (seqZ (lo + 1) (hi - lo))).

(** utils::swap(Type &, Type &) on two slots of two arrays. *)
Definition swap_slot (index : Z) (lr : list T * list T)
    : result (list T * list T) :=
  object ← array_get lr.1 index;
  other ← array_get lr.2 index;
  left ← array_set lr.1 index other;
  right ← array_set lr.2 index object;
  Ok (left, right).

(** utils::swap(Type (&)[size], Type (&)[size]). *)
Definition swap_arrays (size : Z) (left right : list T)
    : result (list T * list T) :=
  for_up 0 size swap_slot (left, right).
End RawArray.

(** ** containers::CircularDeque<Type, capacity> *)

Module CircularDeque.

Record t (T : Type) : Type := mk {
  elements : list T;
  element_count : Z;
  first_index : Z
}.

Arguments mk {T} elements element_count first_index.
Arguments elements {T} _.
Arguments element_count {T} _.
Arguments first_index {T} _.

Section Members.
Context {T : Type}.
Variable capacity : Z.
(** Whether the macro CONTAINER_SAFETY is defined. *)
Variable CONTAINER_SAFETY : bool.

Implicit Type d : t T.

Definition offset_index (index offset : Z) : Z :=
  wrap (index + offset) mod capacity.

Definition adjust_index d (index : Z) : Z :=
  wrap (first_index d + index) mod capacity.

Definition get_first_index d : Z := first_index d.

Definition get_last_index d : Z :=
  adjust_index d (wrap (element_count d - 1)).

Definition get_begin_index d : Z := first_index d.

Definition get_end_index d : Z := adjust_index d (element_count d).

Definition get_next_index (index : Z) : Z := wrap (index + 1) mod capacity.

Definition get_previous_index (index : Z) : Z :=
  wrap (index + wrap (capacity - 1)) mod capacity.

Definition empty d : bool := element_count d =? 0.

Definition size d : Z := element_count d.

Definition max_size d : Z := capacity.

(** [front()]: the slot the returned reference designates. *)
Definition front d : result Z := slot_ref (elements d) (get_first_index d).

(** [back()]: the slot the returned reference designates. *)
Definition back d : result Z := slot_ref (elements d) (get_last_index d).

(** [data()]: the slot the returned pointer designates. *)
Definition data d : result Z := slot_ref (elements d) 0.

(** [operator[](index)], read through the returned reference. *)
Definition at_index d (index : Z) : result T :=
  array_get (elements d) (adjust_index d index).

(** [deque[index] = v]. *)
Definition assign_index d (index : Z) (v : T) : result (t T) :=
  a ← array_set (elements d) (adjust_index d index) v;
  Ok (mk a (element_count d) (first_index d)).

(** Iterators are [IndexIterator]s over this deque: the index alone. *)
Definition begin d : Z := 0.

Definition end_ d : Z := size d.

Definition push_back (value : T) d : result (t T) :=
  if CONTAINER_SAFETY && (max_size d <=? size d) then Ok d
  else
    let end_index := get_end_index d in
    a ← array_set (elements d) end_index value;
    Ok (mk a (wrap (element_count d + 1)) (first_index d)).

(** [emplace_back]: the element constructed from the arguments is
    [value]; returns the new state and the slot of the created element.
    Under CONTAINER_SAFETY the guarded exit returns no reference. *)
Definition emplace_back (value : T) d : result (t T * option Z) :=
  if CONTAINER_SAFETY && (max_size d <=? size d) then Ok (d, None)
  else
    let end_index := get_end_index d in
    a ← array_set (elements d) end_index value;
    Ok (mk a (wrap (element_count d + 1)) (first_index d), Some end_index).

Definition pop_back d : result (t T) :=
  if CONTAINER_SAFETY && empty d then Ok d
  else
    let last_index := get_last_index d in
    _ ← array_get (elements d) last_index;
    Ok (mk (elements d) (wrap (element_count d - 1)) (first_index d)).

Definition push_front (value : T) d : result (t T) :=
  if CONTAINER_SAFETY && (max_size d <=? size d) then Ok d
  else
    let first := get_previous_index (first_index d) in
    a ← array_set (elements d) first value;
    Ok (mk a (wrap (element_count d + 1)) first).

Definition emplace_front (value : T) d : result (t T * option Z) :=
  if CONTAINER_SAFETY && (max_size d <=? size d) then Ok (d, None)
  else
    let first := get_previous_index (first_index d) in
    a ← array_set (elements d) first value;
    Ok (mk a (wrap (element_count d + 1)) first, Some first).

Definition pop_front d : result (t T) :=
  if CONTAINER_SAFETY && empty d then Ok d
  else
    _ ← array_get (elements d) (first_index d);
    Ok (mk (elements d) (wrap (element_count d - 1))
           (get_next_index (first_index d))).

(** The shifting loop of [erase]. *)
Fixpoint erase_loop (fuel : nat) d (current next end_iterator : Z)
    : result (t T) :=
  match fuel with
  | O => OutOfFuel
  | S fuel' =>
      if next =? end_iterator then Ok d
      else
        x ← at_index d next;
        d' ← assign_index d current x;
        erase_loop fuel' d' (wrap (current + 1)) (wrap (next + 1))
                   end_iterator
  end.

(** [erase(element_iterator)]. After the decrement of the element
    count the function body ends, with no [return] statement for the
    iterator the function declares. *)
Definition erase (element_iterator : Z) d : result (completion (t T)) :=
  if CONTAINER_SAFETY && empty d then Ok (Returns d)
  else if CONTAINER_SAFETY && (element_iterator =? end_ d)
  then Ok (Returns d)
  else
    let end_iterator := end_ d in
    d' ← erase_loop LOOP_FUEL d element_iterator
                    (wrap (element_iterator + 1)) end_iterator;
    Ok (FlowsOffEnd
          (mk (elements d') (wrap (element_count d' - 1)) (first_index d'))).

(** The destroying loop of [clear]. [destroyed] lists the slots whose
    destructor has run so far, most recent first. *)
Fixpoint clear_loop (fuel : nat) d (index : Z) (destroyed : list Z)
    : result (list Z) :=
  match fuel with
  | O => OutOfFuel
  | S fuel' =>
      if index =? get_end_index d then Ok destroyed
      else
        let slot := adjust_index d index in
        _ ← array_get (elements d) slot;
        clear_loop fuel' d (wrap (index + 1)) (slot :: destroyed)
  end.

(** The slots destroyed by [clear], in the order they are visited. *)
Definition clear_destroys d : result (list Z) :=
  destroyed ← clear_loop LOOP_FUEL d (get_begin_index d) [];
  Ok (reverse destroyed).

Definition clear d : result (t T) :=
  _ ← clear_destroys d;
  Ok (mk (elements d) 0 0).

(** [a.swap(b)]: the pair of states afterwards. *)
Definition swap (a b : t T) : result (t T * t T) :=
  lr ← swap_arrays capacity (elements a) (elements b);
  Ok (mk lr.1 (element_count a) (first_index a),
      mk lr.2 (element_count b) (first_index b)).

(** [for (auto x : deque)]: the elements seen from [begin()] to [end()]. *)
Fixpoint iterate (fuel : nat) d (it end_iterator : Z) : result (list T) :=
  match fuel with
  | O => OutOfFuel
  | S fuel' =>
      if it =? end_iterator then Ok []
      else
        x ← at_index d it;
        rest ← iterate fuel' d (wrap (it + 1)) end_iterator;
        Ok (x :: rest)
  end.

Definition contents d : result (list T) :=
  iterate LOOP_FUEL d (begin d) (end_ d).

(** The slots holding live elements, front to back. *)
Definition live_slots d : list Z :=
  adjust_index d <$> seqZ 0 (element_count d).
End Members.

(** A default-constructed deque over storage [storage]. *)
Definition init {T : Type} (storage : list T) : t T := mk storage 0 0.

Arguments erase : simpl never.
Arguments clear_destroys : simpl never.
Arguments clear : simpl never.
Arguments contents : simpl never.

End CircularDeque.

(** ** containers::Deque<Type, capacity> *)

Module Deque.

Record t (T : Type) : Type := mk {
  elements : list T;
  element_count : Z
}.

Arguments mk {T} elements element_count.
Arguments elements {T} _.
Arguments element_count {T} _.

Section Members.
Context {T : Type}.
Variable capacity : Z.
(** Whether the macro CONTAINER_SAFETY is defined. *)
Variable CONTAINER_SAFETY : bool.

Implicit Type d : t T.

Definition get_first_index d : Z := 0.

Definition get_last_index d : Z := wrap (element_count d - 1).

Definition get_begin_index d : Z := 0.

Definition get_end_index d : Z := element_count d.

Definition empty d : bool := element_count d =? 0.

Definition size d : Z := element_count d.

Definition max_size d : Z := capacity.

(** [front()]: the slot the returned reference designates. *)
Definition front d : result Z := slot_ref (elements d) (get_first_index d).

(** [back()]: the slot the returned reference designates. *)
Definition back d : result Z := slot_ref (elements d) (get_last_index d).

(** [data()]: the slot the returned pointer designates. *)
Definition data d : result Z := slot_ref (elements d) (get_first_index d).

(** [operator[](index)], read through the returned reference. *)
Definition at_index d (index : Z) : result T :=
  array_get (elements d) index.

(** Iterators are element pointers: the offset from [&elements[0]]. *)
Definition begin d : Z := get_begin_index d.

Definition end_ d : Z := get_end_index d.

Definition push_back (value : T) d : result (t T) :=
  if CONTAINER_SAFETY && (max_size d <=? size d) then Ok d
  else
    a ← array_set (elements d) (element_count d) value;
    Ok (mk a (wrap (element_count d + 1))).

(** [emplace_back]: the element constructed from the arguments is
    [value]; returns the new state and the slot of the created element.
    Under CONTAINER_SAFETY the guarded exit returns no reference. *)
Definition emplace_back (value : T) d : result (t T * option Z) :=
  if CONTAINER_SAFETY && (max_size d <=? size d) then Ok (d, None)
  else
    let element_index := element_count d in
    a ← array_set (elements d) element_index value;
    Ok (mk a (wrap (element_count d + 1)), Some element_index).

Definition pop_back d : result (t T) :=
  if CONTAINER_SAFETY && empty d then Ok d
  else
    let count := wrap (element_count d - 1) in
    _ ← array_get (elements d) count;
    Ok (mk (elements d) count).

(** [elements[index] = utils::move(elements[index - 1])]. *)
Definition move_back (index : Z) (a : list T) : result (list T) :=
  x ← array_get a (wrap (index - 1));
  array_set a index x.

(** [elements[index] = utils::move(elements[index + 1])]. *)
Definition move_forward (index : Z) (a : list T) : result (list T) :=
  x ← array_get a (wrap (index + 1));
  array_set a index x.

(** Reading the parameter [value] while the array is [a]. *)
Definition read_argument (a : list T) (value : argument T) : result T :=
  match value with
  | Value v => Ok v
  | Element index => array_get a index
  end.

(** [push_front(value)]: the parameter is a reference, and it is read
    after the loop has moved the elements, so an argument that is an
    element of this deque is read where the loop has left it.
    ([push_back] and [emplace_back] read their argument before they
    write anything, so for them an argument is the value it holds at
    the call.) *)
Definition push_front (value : argument T) d : result (t T) :=
  if CONTAINER_SAFETY && (max_size d <=? size d) then Ok d
  else
    a ← for_down (element_count d) 0 move_back (elements d);
    v ← read_argument a value;
    a' ← array_set a 0 v;
    Ok (mk a' (wrap (element_count d + 1))).

(** [emplace_front(arguments...)], for an element constructed from one
    argument: the argument is forwarded by reference and read by the
    constructor, after the loop. *)
Definition emplace_front (value : argument T) d
    : result (t T * option Z) :=
  if CONTAINER_SAFETY && (max_size d <=? size d) then Ok (d, None)
  else
    a ← for_down (element_count d) 0 move_back (elements d);
    v ← read_argument a value;
    a' ← array_set a 0 v;
    Ok (mk a' (wrap (element_count d + 1)), Some 0).

Definition pop_front d : result (t T) :=
  if CONTAINER_SAFETY && empty d then Ok d
  else
    a ← for_up 0 (element_count d) move_forward (elements d);
    Ok (mk a (wrap (element_count d - 1))).

(** [pop_front()] when the object that follows the array in memory
    holds [beyond]. On a full deque the last iteration of the loop
    reads [elements[capacity]], one past the end of the array: the
    language leaves that read undefined, and [pop_front] above gives
    [OutOfBounds capacity] for it. This is the same loop with that read
    yielding [beyond]: it runs over the array followed by one more
    cell, which it reads and never writes. *)
Definition pop_front_reading (beyond : T) d : result (t T) :=
  if CONTAINER_SAFETY && empty d then Ok d
  else
    a ← for_up 0 (element_count d) move_forward (elements d ++ [beyond]);
    Ok (mk (take (length (elements d)) a) (wrap (element_count d - 1))).

(** The shifting loop of [erase], on element pointers. *)
Fixpoint erase_loop (fuel : nat) (a : list T)
    (current next end_iterator : Z) : result (list T) :=
  match fuel with
  | O => OutOfFuel
  | S fuel' =>
      if next =? end_iterator then Ok a
      else
        x ← array_get a next;
        a' ← array_set a current x;
        erase_loop fuel' a' (current + 1) (next + 1) end_iterator
  end.

(** [erase(element_iterator)]. After the decrement of the element
    count the function body ends, with no [return] statement for the
    iterator the function declares. *)
Definition erase (element_iterator : Z) d : result (completion (t T)) :=
  if CONTAINER_SAFETY && empty d then Ok (Returns d)
  else if CONTAINER_SAFETY && (element_iterator =? end_ d)
  then Ok (Returns d)
  else
    let end_iterator := end_ d in
    a ← erase_loop LOOP_FUEL (elements d) element_iterator
                   (element_iterator + 1) end_iterator;
    Ok (FlowsOffEnd (mk a (wrap (element_count d - 1)))).

(** One step of the destroying loop of [clear]; [destroyed] lists the
    slots whose destructor has run so far, most recent first. *)
Definition destroy_slot d (index : Z) (destroyed : list Z)
    : result (list Z) :=
  _ ← array_get (elements d) index;
  Ok (index :: destroyed).

(** The slots destroyed by [clear], in the order they are visited. *)
Definition clear_destroys d : result (list Z) :=
  destroyed ← for_up (get_begin_index d) (get_end_index d)
                     (destroy_slot d) [];
  Ok (reverse destroyed).

Definition clear d : result (t T) :=
  _ ← clear_destroys d;
  Ok (mk (elements d) 0).

(** [a.swap(b)]: the pair of states afterwards. *)
Definition swap (a b : t T) : result (t T * t T) :=
  lr ← swap_arrays capacity (elements a) (elements b);
  Ok (mk lr.1 (element_count a), mk lr.2 (element_count b)).

(** [for (auto x : deque)]: the elements seen from [begin()] to [end()]. *)
Fixpoint iterate (fuel : nat) d (it end_iterator : Z) : result (list T) :=
  match fuel with
  | O => OutOfFuel
  | S fuel' =>
      if it =? end_iterator then Ok []
      else
        x ← array_get (elements d) it;
        rest ← iterate fuel' d (it + 1) end_iterator;
        Ok (x :: rest)
  end.

Definition contents d : result (list T) :=
  iterate LOOP_FUEL d (begin d) (end_ d).
End Members.

(** A default-constructed deque over storage [storage]. *)
Definition init {T : Type} (storage : list T) : t T := mk storage 0.

Arguments erase : simpl never.
Arguments contents : simpl never.

End Deque.

(** ** The container interface the adapters are instantiated with *)

Class Container (C T : Type) : Type := {
  c_empty : C → bool;
  c_size : C → Z;
  c_max_size : C → Z;
  c_front : C → result Z;
  c_back : C → result Z;
  c_push_back : T → C → result C;
  c_emplace_back : T → C → result (C * option Z);
  c_pop_back : C → result C;
  c_pop_front : C → result C;
  c_swap : C → C → result (C * C);
  c_contents : C → result (list T)
}.

#[global] Instance Deque_Container {T : Type} (capacity : Z)
    (CONTAINER_SAFETY : bool) : Container (Deque.t T) T := {
  c_empty := Deque.empty;
  c_size := Deque.size;
  c_max_size := Deque.max_size capacity;
  c_front := Deque.front;
  c_back := Deque.back;
  c_push_back := Deque.push_back capacity CONTAINER_SAFETY;
  c_emplace_back := Deque.emplace_back capacity CONTAINER_SAFETY;
  c_pop_back := Deque.pop_back CONTAINER_SAFETY;
  c_pop_front := Deque.pop_front CONTAINER_SAFETY;
  c_swap := Deque.swap capacity;
  c_contents := Deque.contents
}.

#[global] Instance CircularDeque_Container {T : Type} (capacity : Z)
    (CONTAINER_SAFETY : bool) : Container (CircularDeque.t T) T := {
  c_empty := CircularDeque.empty;
  c_size := CircularDeque.size;
  c_max_size := CircularDeque.max_size capacity;
  c_front := CircularDeque.front;
  c_back := CircularDeque.back capacity;
  c_push_back := CircularDeque.push_back capacity CONTAINER_SAFETY;
  c_emplace_back := CircularDeque.emplace_back capacity CONTAINER_SAFETY;
  c_pop_back := CircularDeque.pop_back capacity CONTAINER_SAFETY;
  c_pop_front := CircularDeque.pop_front capacity CONTAINER_SAFETY;
  c_swap := CircularDeque.swap capacity;
  c_contents := CircularDeque.contents capacity
}.

(** ** containers::Stack<Type, capacity, Container> *)

Module Stack.

Record t (C : Type) : Type := mk { container : C }.

Arguments mk {C} container.
Arguments container {C} _.

Section Members.
Context {C T : Type} {container_type : Container C T}.

Implicit Type s : t C.

Definition empty s : bool := c_empty (container s).

Definition size s : Z := c_size (container s).

Definition max_size s : Z := c_max_size (container s).

Definition top s : result Z := c_back (container s).

Definition push (value : T) s : result (t C) :=
  c ← c_push_back value (container s); Ok (mk c).

Definition emplace (value : T) s : result (t C * option Z) :=
  cr ← c_emplace_back value (container s); Ok (mk cr.1, cr.2).

Definition pop s : result (t C) :=
  c ← c_pop_back (container s); Ok (mk c).

Definition swap (a b : t C) : result (t C * t C) :=
  lr ← c_swap (container a) (container b); Ok (mk lr.1, mk lr.2).
End Members.

End Stack.

(** ** containers::Queue<Type, capacity, Container> *)

Module Queue.

Record t (C : Type) : Type := mk { container : C }.

Arguments mk {C} container.
Arguments container {C} _.

Section Members.
Context {C T : Type} {container_type : Container C T}.

Implicit Type q : t C.

Definition empty q : bool := c_empty (container q).

Definition size q : Z := c_size (container q).

Definition max_size q : Z := c_max_size (container q).

Definition front q : result Z := c_front (container q).

Definition back q : result Z := c_back (container q).

Definition push (value : T) q : result (t C) :=
  c ← c_push_back value (container q); Ok (mk c).

Definition emplace (value : T) q : result (t C * option Z) :=
  cr ← c_emplace_back value (container q); Ok (mk cr.1, cr.2).

Definition pop q : result (t C) :=
  c ← c_pop_front (container q); Ok (mk c).

Definition swap (a b : t C) : result (t C * t C) :=
  lr ← c_swap (container a) (container b); Ok (mk lr.1, mk lr.2).
End Members.

End Queue.

(** ** progmem::ProgmemArray<Type, capacity> *)

Module ProgmemArray.

(** The handle holds the address of the first element. *)
Record t : Type := mk { elements : Z }.

Section Members.
Variable capacity : Z.

Definition empty (a : t) : bool := 0 <? capacity.

Definition size (a : t) : Z := capacity.

Definition max_size (a : t) : Z := capacity.
End Members.

End ProgmemArray.

(** ** eeprom::EepromArray<Type, capacity> *)

Module EepromArray.

(** The handle holds the address of the first element. *)
Record t : Type := mk { elements : Z }.

Section Members.
Variable capacity : Z.

Definition empty (a : t) : bool := 0 <? capacity.

Definition size (a : t) : Z := capacity.

Definition max_size (a : t) : Z := capacity.
End Members.

End EepromArray.

(** ** Outcome of instantiating a template *)

(** A function template becomes code when it is instantiated for a
    type. An instantiation whose body does not type-check is
    ill-formed: a program that calls it does not compile, and there is
    nothing to run. *)
Inductive instantiation (A : Type) : Type :=
  | WellFormed (a : A)
  | IllFormed.

Arguments WellFormed {A} a.
Arguments IllFormed {A}.

#[global] Instance instantiation_ret : MRet instantiation :=
  λ A a, WellFormed a.

#[global] Instance instantiation_bind : MBind instantiation := λ A B f m,
  match m with
  | WellFormed a => f a
  | IllFormed => IllFormed
  end.

(** ** Persistent memory (EEPROM) *)

Module Eeprom.

(** The byte cells of the EEPROM, and the number of byte writes performed
    so far (the wear the cells have taken). An erased cell reads 255. *)
Record t : Type := mk {
  cells : gmap Z Z;
  wear : Z
}.

Definition is_byte (b : Z) : Prop := 0 ≤ b < 256.

(** Little-endian value of a run of bytes, and its inverse. *)
Fixpoint le_combine (bytes : list Z) : Z :=
  match bytes with
  | [] => 0
  | b :: rest => b + 256 * le_combine rest
  end.

Fixpoint le_split (n : nat) (value : Z) : list Z :=
  match n with
  | O => []
  | S n' => value mod 256 :: le_split n' (value / 256)
  end.

(** *** Platform primitives of <avr/eeprom.h> *)

(** Modelled from the spec: the platform primitive [eeprom_read_byte]
    (section 4.2, "reads mirror 4.1": reads exactly one byte). *)
Definition eeprom_read_byte (e : t) (addr : Z) : Z :=
  default 255 (cells e !! addr).

(** Modelled from the spec: the platform primitive [eeprom_write_byte]
    (section 4.2: unconditional write of one byte; every write consumes
    wear budget). *)
Definition eeprom_write_byte (addr value : Z) (e : t) : t :=
  mk (<[addr := value mod 256]> (cells e)) (wear e + 1).

(** Modelled from the spec: the platform primitive [eeprom_update_byte]
    (section 4.2: reads the byte first, writes only if different). *)
Definition eeprom_update_byte (addr value : Z) (e : t) : t :=
  if eeprom_read_byte e addr =? value mod 256 then e
  else eeprom_write_byte addr value e.

(** Modelled from the spec: the platform primitive [eeprom_read_block]
    (section 4.2: block read of [n] bytes starting at [src]). *)
Definition eeprom_read_block (e : t) (src n : Z) : list Z :=
  (λ i, eeprom_read_byte e (src + i)) <$> seqZ 0 n.

(** Modelled from the spec: the platform primitive [eeprom_write_block]
    (section 4.2: unconditional block write); [src] holds the bytes of
    the source object in RAM. *)
Fixpoint write_bytes (src : list Z) (dst : Z) (e : t) : t :=
  match src with
  | [] => e
  | b :: rest => write_bytes rest (dst + 1) (eeprom_write_byte dst b e)
  end.

Definition eeprom_write_block (src : list Z) (dst n : Z) (e : t) : t :=
  write_bytes (take (Z.to_nat n) src) dst e.

(** Modelled from the spec: the platform primitive [eeprom_update_block]
    (section 4.2: byte-wise update of a range); [src] holds the bytes of
    the source object in RAM. *)
Fixpoint update_bytes (src : list Z) (dst : Z) (e : t) : t :=
  match src with
  | [] => e
  | b :: rest => update_bytes rest (dst + 1) (eeprom_update_byte dst b e)
  end.

Definition eeprom_update_block (src : list Z) (dst n : Z) (e : t) : t :=
  update_bytes (take (Z.to_nat n) src) dst e.

(** Modelled from the spec: the width-native platform primitives
    (section 4.2: they exist only to reduce code size; the byte-wise
    path is always correct). Words are little-endian on the target;
    a float is handled through its 32-bit pattern. *)
Definition eeprom_read_word (e : t) (addr : Z) : Z :=
  le_combine (eeprom_read_block e addr 2).

Definition eeprom_read_dword (e : t) (addr : Z) : Z :=
  le_combine (eeprom_read_block e addr 4).

Definition eeprom_read_float (e : t) (addr : Z) : Z :=
  le_combine (eeprom_read_block e addr 4).

Definition eeprom_read_ptr (e : t) (addr : Z) : Z :=
  le_combine (eeprom_read_block e addr 2).

Definition eeprom_update_word (addr value : Z) (e : t) : t :=
  eeprom_update_block (le_split 2 value) addr 2 e.

Definition eeprom_update_dword (addr value : Z) (e : t) : t :=
  eeprom_update_block (le_split 4 value) addr 4 e.

Definition eeprom_update_float (addr value : Z) (e : t) : t :=
  eeprom_update_block (le_split 4 value) addr 4 e.

(** *** Typed access: details::read_eeprom, details::update_eeprom *)

(** The element types the overload sets of read_details.h and
    update_details.h tell apart. *)
Inductive type_kind : Type :=
  | KChar | KUint8 | KInt8
  | KUint16 | KInt16
  | KUint32 | KInt32
  | KFloat
  | KPointer
  | KOther.

(** A trivially copyable type: its size and its object representation. *)
Class TriviallyCopyable (T : Type) : Type := {
  kind : type_kind;
  sizeof : Z;
  to_bytes : T → list Z;
  from_bytes : list Z → T
}.

Definition kind_size (k : type_kind) (size : Z) : Prop :=
  match k with
  | KChar | KUint8 | KInt8 => size = 1
  | KUint16 | KInt16 | KPointer => size = 2
  | KUint32 | KInt32 | KFloat => size = 4
  | KOther => 0 < size
  end.

Class TriviallyCopyableLaws (T : Type) `{TriviallyCopyable T} : Prop := {
  sizeof_kind : kind_size kind sizeof;
  to_bytes_length : ∀ v : T, Z.of_nat (length (to_bytes v)) = sizeof;
  to_bytes_range : ∀ v : T, Forall is_byte (to_bytes v);
  from_to_bytes : ∀ v : T, from_bytes (to_bytes v) = v
}.

Section Typed.
Context {T : Type} `{TriviallyCopyable T}.

(** Whether the call is resolved to the helper specialised for
    one-byte types: [char], [uint8_t] and [int8_t] have overloads of
    their own, so these are the other types of size 1 ([bool], one-byte
    enumerations and structures). *)
Definition selects_byte_helper : bool :=
  match kind with
  | KOther => sizeof =? 1
  | _ => false
  end.

(** [update_eeprom_helper<Type, sizeof(Type)>::update_eeprom]. The
    specialisation for size 1 casts [&source], a [const Type *], to
    [unsigned char *] with [reinterpret_cast], and passes
    [&destination], a [Type *], where [eeprom_update_byte] takes a
    [uint8_t *]: it is ill-formed for every type. *)
Definition update_eeprom_helper (destination : Z) (source : T) (e : t)
    : instantiation t :=
  if sizeof =? 1
  then IllFormed
  else WellFormed (eeprom_update_block (to_bytes source) destination sizeof e).

(** [details::update_eeprom(destination, source)] after overload
    resolution. *)
Definition update_eeprom (destination : Z) (source : T) (e : t)
    : instantiation t :=
  match kind with
  | KChar | KUint8 | KInt8 =>
      WellFormed
        (eeprom_update_byte destination (le_combine (to_bytes source)) e)
  | KUint16 | KInt16 =>
      WellFormed
        (eeprom_update_word destination (le_combine (to_bytes source)) e)
  | KUint32 | KInt32 =>
      WellFormed
        (eeprom_update_dword destination (le_combine (to_bytes source)) e)
  | KFloat =>
      WellFormed
        (eeprom_update_float destination (le_combine (to_bytes source)) e)
  | KPointer | KOther => update_eeprom_helper destination source e
  end.

(** [read_eeprom_helper<Type, sizeof(Type)>::read_eeprom]. The
    specialisation for size 1 passes [&object], a [const Type *], where
    [eeprom_read_byte] takes a [const uint8_t *]: it is ill-formed for
    every type that reaches it ([uint8_t] itself has an overload of
    [read_eeprom] and does not). *)
Definition read_eeprom_helper (e : t) (object : Z) : instantiation T :=
  if sizeof =? 1
  then IllFormed
  else WellFormed (from_bytes (eeprom_read_block e object sizeof)).

(** [details::read_eeprom(object)] after overload resolution. *)
Definition read_eeprom (e : t) (object : Z) : instantiation T :=
  match kind with
  | KChar | KUint8 | KInt8 =>
      WellFormed (from_bytes (le_split 1 (eeprom_read_byte e object)))
  | KUint16 | KInt16 =>
      WellFormed (from_bytes (le_split 2 (eeprom_read_word e object)))
  | KUint32 | KInt32 =>
      WellFormed (from_bytes (le_split 4 (eeprom_read_dword e object)))
  | KFloat =>
      WellFormed (from_bytes (le_split 4 (eeprom_read_float e object)))
  | KPointer =>
      WellFormed (from_bytes (le_split 2 (eeprom_read_ptr e object)))
  | KOther => read_eeprom_helper e object
  end.

(** [eeprom::writeEeprom(destination, source)]. *)
Definition writeEeprom (destination : Z) (source : T) (e : t)
    : instantiation t :=
  update_eeprom destination source e.

(** [eeprom::readEeprom(object)]. *)
Definition readEeprom (e : t) (object : Z) : instantiation T :=
  read_eeprom e object.
End Typed.

End Eeprom.

(** ** eeprom::EepromReference<Type> *)

Module EepromReference.

Record t : Type := mk { pointer : Z }.

Section Members.
Context {T : Type} `{Eeprom.TriviallyCopyable T}.

(** [operator =(value)]. The member [pointer] is a
    [const value_type *], so the call of [eeprom::writeEeprom] on
    [*this->pointer] and [value] offers a [const value_type] lvalue
    for the parameter [Type & destination]
    and a [value_type] for [const Type & source]: [Type] is deduced
    two ways, no overload of [writeEeprom] is viable and the operator
    is ill-formed for every type. *)
Definition assign (r : t) (value : T) (e : Eeprom.t)
    : instantiation Eeprom.t :=
  IllFormed.

(** [operator value_type()]. *)
Definition read (r : t) (e : Eeprom.t) : instantiation T :=
  Eeprom.readEeprom e (pointer r).
End Members.

End EepromReference.

(** [bool] as a trivially copyable type: one byte, and none of the
    types the overload sets name. *)
#[global] Instance bool_TriviallyCopyable : Eeprom.TriviallyCopyable bool := {
  Eeprom.kind := Eeprom.KOther;
  Eeprom.sizeof := 1;
  Eeprom.to_bytes b := [if b then 1 else 0];
  Eeprom.from_bytes bytes := negb (hd 0 bytes =? 0)
}.

(** [char] as a trivially copyable type. *)
#[global] Instance char_TriviallyCopyable : Eeprom.TriviallyCopyable ascii := {
  Eeprom.kind := Eeprom.KChar;
  Eeprom.sizeof := 1;
  Eeprom.to_bytes c := [Z.of_N (N_of_ascii c)];
  Eeprom.from_bytes bytes := ascii_of_N (Z.to_N (hd 0 bytes))
}.

(** The object representation of an array: its elements' bytes, in
    order. *)
Definition array_bytes {T : Type} `{Eeprom.TriviallyCopyable T}
    (source : list T) : list Z :=
  concat (Eeprom.to_bytes <$> source).

(** ** eeprom::overwriteEeprom and the array overloads *)

Module EepromOverwrite.
Import Eeprom.

(** Modelled from the spec: the width-native platform primitives
    [eeprom_write_word], [eeprom_write_dword] and [eeprom_write_float]
    (section 4.2: unconditional writes; every byte written consumes
    wear budget). Words are little-endian on the target; a float is
    handled through its 32-bit pattern. *)
Definition eeprom_write_word (addr value : Z) (e : t) : t :=
  eeprom_write_block (le_split 2 value) addr 2 e.

Definition eeprom_write_dword (addr value : Z) (e : t) : t :=
  eeprom_write_block (le_split 4 value) addr 4 e.

Definition eeprom_write_float (addr value : Z) (e : t) : t :=
  eeprom_write_block (le_split 4 value) addr 4 e.

Section Typed.
Context {T : Type} `{TriviallyCopyable T}.

(** [write_eeprom_helper<Type, sizeof(Type)>::write_eeprom]. The
    specialisation for size 1 has the casts of
    [update_eeprom_helper<Type, 1>]: it is ill-formed for every
    type. *)
Definition write_eeprom_helper (destination : Z) (source : T) (e : t)
    : instantiation t :=
  if sizeof =? 1
  then IllFormed
  else WellFormed (eeprom_write_block (to_bytes source) destination sizeof e).

(** [details::write_eeprom(destination, source)] after overload
    resolution. *)
Definition write_eeprom (destination : Z) (source : T) (e : t)
    : instantiation t :=
  match kind with
  | KChar | KUint8 | KInt8 =>
      WellFormed
        (eeprom_write_byte destination (le_combine (to_bytes source)) e)
  | KUint16 | KInt16 =>
      WellFormed
        (eeprom_write_word destination (le_combine (to_bytes source)) e)
  | KUint32 | KInt32 =>
      WellFormed
        (eeprom_write_dword destination (le_combine (to_bytes source)) e)
  | KFloat =>
      WellFormed
        (eeprom_write_float destination (le_combine (to_bytes source)) e)
  | KPointer | KOther => write_eeprom_helper destination source e
  end.

(** [eeprom::overwriteEeprom(destination, source)]. *)
Definition overwriteEeprom (destination : Z) (source : T) (e : t)
    : instantiation t :=
  write_eeprom destination source e.

(** [details::update_eeprom(destination, source)] on arrays of [size]
    elements. *)
Definition update_eeprom_array (size : Z) (destination : Z)
    (source : list T) (e : t) : t :=
  eeprom_update_block (array_bytes source) destination (sizeof * size) e.

(** [details::write_eeprom(destination, source)] on arrays of [size]
    elements. *)
Definition write_eeprom_array (size : Z) (destination : Z)
    (source : list T) (e : t) : t :=
  eeprom_write_block (array_bytes source) destination (sizeof * size) e.

(** [eeprom::writeEeprom(destination, source)] on arrays. *)
Definition writeEeprom_array (size : Z) (destination : Z)
    (source : list T) (e : t) : t :=
  update_eeprom_array size destination source e.

(** [eeprom::overwriteEeprom(destination, source)] on arrays. *)
Definition overwriteEeprom_array (size : Z) (destination : Z)
    (source : list T) (e : t) : t :=
  write_eeprom_array size destination source e.
End Typed.

End EepromOverwrite.

(** ** eeprom::EepromPointer<Type> *)

Module EepromPointer.

(** The handle holds the address of the designated object. *)
Record t : Type := mk { pointer : Z }.

Section Members.
Context {T : Type} `{Eeprom.TriviallyCopyable T}.

(** [operator *()]. *)
Definition deref (p : t) : EepromReference.t :=
  EepromReference.mk (pointer p).

(** [operator ++()]: the pointer moves on by one object. *)
Definition increment (p : t) : t := mk (pointer p + Eeprom.sizeof).

(** [operator --()]. *)
Definition decrement (p : t) : t := mk (pointer p - Eeprom.sizeof).

(** [left == right] and [left != right]. *)
Definition eqb (left right : t) : bool := pointer left =? pointer right.

Definition neqb (left right : t) : bool :=
  negb (pointer left =? pointer right).
End Members.

End EepromPointer.

(** ** eeprom::EepromArray<Type, capacity>: element access *)

Module EepromArrayElements.
Import EepromArray.

Section Members.
Context {T : Type} `{Eeprom.TriviallyCopyable T}.
Variable capacity : Z.

(** [&this->elements[index]]. *)
Definition element_address (a : t) (index : Z) : Z :=
  elements a + index * Eeprom.sizeof.

Definition front (a : t) : EepromReference.t :=
  EepromReference.mk (element_address a 0).

Definition back (a : t) : EepromReference.t :=
  EepromReference.mk (element_address a (wrap (capacity - 1))).

Definition data (a : t) : EepromPointer.t :=
  EepromPointer.mk (element_address a 0).

(** [operator[](index)]. *)
Definition at_index (a : t) (index : Z) : EepromReference.t :=
  EepromReference.mk (element_address a index).

Definition cbegin (a : t) : EepromPointer.t :=
  EepromPointer.mk (element_address a 0).

Definition cend (a : t) : EepromPointer.t :=
  EepromPointer.mk (element_address a capacity).

(** [for (it = first; it != last; ++it)], reading [*it] at each step. *)
Fixpoint iterate (fuel : nat) (e : Eeprom.t) (it last : EepromPointer.t)
    : instantiation (result (list T)) :=
  match fuel with
  | O => WellFormed OutOfFuel
  | S fuel' =>
      if EepromPointer.neqb it last
      then
        x ← EepromReference.read (EepromPointer.deref it) e;
        rest ← iterate fuel' e (EepromPointer.increment it) last;
        WellFormed (rest ← rest; Ok (x :: rest))
      else WellFormed (Ok [])
  end.

(** The elements seen from [cbegin()] to [cend()]. *)
Definition contents (a : t) (e : Eeprom.t)
    : instantiation (result (list T)) :=
  iterate LOOP_FUEL e (cbegin a) (cend a).
End Members.

Arguments contents : simpl never.

End EepromArrayElements.

(** ** Program memory (flash) *)

Module Progmem.
Import Eeprom.

(** The byte cells of the program memory, fixed when the program is
    flashed. A cell that was never programmed reads 255. *)
Definition t : Type := gmap Z Z.

(** Modelled from the spec: the platform primitive [pgm_read_byte]
    (section 4.1: reads exactly one byte). *)
Definition pgm_read_byte (m : t) (addr : Z) : Z :=
  default 255 (m !! addr) mod 256.

(** Modelled from the spec: the platform primitive [memcpy_P]
    (section 4.1: bulk copy of [n] bytes starting at [src]); the bytes
    copied to RAM. *)
Definition memcpy_P (m : t) (src n : Z) : list Z :=
  (λ i, pgm_read_byte m (src + i)) <$> seqZ 0 n.

(** Modelled from the spec: the width-native platform primitives
    (section 4.1: fixed-width reads, and a pointer-width read, 16 bits
    on the target). Words are little-endian on the target; a float is
    handled through its 32-bit pattern. *)
Definition pgm_read_word (m : t) (addr : Z) : Z :=
  le_combine (memcpy_P m addr 2).

Definition pgm_read_dword (m : t) (addr : Z) : Z :=
  le_combine (memcpy_P m addr 4).

Definition pgm_read_float (m : t) (addr : Z) : Z :=
  le_combine (memcpy_P m addr 4).

Definition pgm_read_ptr (m : t) (addr : Z) : Z :=
  le_combine (memcpy_P m addr 2).

Section Typed.
Context {T : Type} `{TriviallyCopyable T}.

(** [read_progmem_helper<Type, sizeof(Type)>::read_progmem]. *)
Definition read_progmem_helper (m : t) (object : Z) : T :=
  if sizeof =? 1
  then from_bytes [pgm_read_byte m object]
  else from_bytes (memcpy_P m object sizeof).

(** [details::read_progmem(object)] after overload resolution. *)
Definition read_progmem (m : t) (object : Z) : T :=
  match kind with
  | KChar | KUint8 | KInt8 =>
      from_bytes (le_split 1 (pgm_read_byte m object))
  | KUint16 | KInt16 =>
      from_bytes (le_split 2 (pgm_read_word m object))
  | KUint32 | KInt32 =>
      from_bytes (le_split 4 (pgm_read_dword m object))
  | KFloat =>
      from_bytes (le_split 4 (pgm_read_float m object))
  | KPointer =>
      from_bytes (le_split 2 (pgm_read_ptr m object))
  | KOther => read_progmem_helper m object
  end.

(** [progmem::readProgmem(object)]. *)
Definition readProgmem (m : t) (object : Z) : T :=
  read_progmem m object.

(** [copy_progmem_helper<Type, sizeof(Type)>::copy_progmem]: the value
    left in [destination]. The specialisation for pointer types,
    [copy_progmem_helper<Type *, size>], returns [&destination], a
    [Type * *], from a function declared to return [Type *], and is
    called by [copy_progmem<Type *>], declared to return [Type * *]:
    it is ill-formed for every pointer type. *)
Definition copy_progmem_helper (m : t) (source : Z) : instantiation T :=
  match kind with
  | KPointer => IllFormed
  | _ =>
      if sizeof =? 1
      then WellFormed (from_bytes [pgm_read_byte m source])
      else WellFormed (from_bytes (memcpy_P m source sizeof))
  end.

(** [details::copy_progmem(destination, source)]. *)
Definition copy_progmem (m : t) (source : Z) : instantiation T :=
  copy_progmem_helper m source.

End Typed.

End Progmem.

(** ** progmem::ProgmemReference<Type>, progmem::ProgmemPointer<Type> *)

Module ProgmemReference.

Record t : Type := mk { pointer : Z }.

Section Members.
Context {T : Type} `{Eeprom.TriviallyCopyable T}.

(** [operator value_type()]. *)
Definition read (r : t) (m : Progmem.t) : T :=
  Progmem.readProgmem m (pointer r).
End Members.

End ProgmemReference.

Module ProgmemPointer.

Record t : Type := mk { pointer : Z }.

Section Members.
Context {T : Type} `{Eeprom.TriviallyCopyable T}.

(** [operator *()]. *)
Definition deref (p : t) : ProgmemReference.t :=
  ProgmemReference.mk (pointer p).

(** [operator ++()]: the pointer moves on by one object. *)
Definition increment (p : t) : t := mk (pointer p + Eeprom.sizeof).

(** [operator --()]. *)
Definition decrement (p : t) : t := mk (pointer p - Eeprom.sizeof).

(** [left == right] and [left != right]. *)
Definition eqb (left right : t) : bool := pointer left =? pointer right.

Definition neqb (left right : t) : bool :=
  negb (pointer left =? pointer right).

(** [for (it = first; it != last; ++it)], reading [*it] at each step. *)
Fixpoint iterate (fuel : nat) (m : Progmem.t) (it last : t)
    : result (list T) :=
  match fuel with
  | O => OutOfFuel
  | S fuel' =>
      if neqb it last
      then
        rest ← iterate fuel' m (increment it) last;
        Ok (ProgmemReference.read (deref it) m :: rest)
      else Ok []
  end.
End Members.

End ProgmemPointer.

(** ** progmem::ProgmemArray<Type, capacity>: element access *)

Module ProgmemArrayElements.
Import ProgmemArray.

Section Members.
Context {T : Type} `{Eeprom.TriviallyCopyable T}.
Variable capacity : Z.

(** [&this->elements[index]]. *)
Definition element_address (a : t) (index : Z) : Z :=
  elements a + index * Eeprom.sizeof.

Definition front (a : t) : ProgmemReference.t :=
  ProgmemReference.mk (element_address a 0).

Definition back (a : t) : ProgmemReference.t :=
  ProgmemReference.mk (element_address a (wrap (capacity - 1))).

Definition data (a : t) : ProgmemPointer.t :=
  ProgmemPointer.mk (element_address a 0).

(** [operator[](index)]. *)
Definition at_index (a : t) (index : Z) : ProgmemReference.t :=
  ProgmemReference.mk (element_address a index).

Definition begin (a : t) : ProgmemPointer.t :=
  ProgmemPointer.mk (element_address a 0).

Definition end_ (a : t) : ProgmemPointer.t :=
  ProgmemPointer.mk (element_address a capacity).

(** [for (auto x : array)]: the elements seen from [begin()] to
    [end()]. *)
Definition contents (a : t) (m : Progmem.t) : result (list T) :=
  ProgmemPointer.iterate LOOP_FUEL m (begin a) (end_ a).

(** [for (index = 0; index < array.size(); ++index) array[index]]. *)
Definition indexed (a : t) (m : Progmem.t) : list T :=
  (λ index, ProgmemReference.read (at_index a index) m)
    <$> seqZ 0 (size capacity a).
End Members.

Arguments contents : simpl never.

End ProgmemArrayElements.

(** ** progmem::ProgmemNullString, progmem::ProgmemString *)

Module ProgmemNullString.

(** The handle holds the address of the first character. *)
Record t : Type := mk { string : Z }.

(** The scanning loop of [size()]. *)
Fixpoint size_loop (fuel : nat) (m : Progmem.t) (current result_ : Z)
    : result Z :=
  match fuel with
  | O => OutOfFuel
  | S fuel' =>
      if negb (Progmem.pgm_read_byte m current =? 0)
      then size_loop fuel' m (current + 1) (wrap (result_ + 1))
      else Ok result_
  end.

(** [size()]; the loop is given [fuel] iterations. *)
Definition size (fuel : nat) (m : Progmem.t) (s : t) : result Z :=
  size_loop fuel m (string s) 0.

(** [operator[](index)]. *)
Definition at_index (s : t) (index : Z) : ProgmemReference.t :=
  ProgmemReference.mk (string s + index).

End ProgmemNullString.

Module ProgmemString.

(** The handle holds the address of the first character and a size. *)
Record t : Type := mk { string : Z; string_size : Z }.

(** [PROGMEM_STRING(string_literal)], the literal stored at [address]:
    [utils::size] of a literal counts its terminating NUL. *)
Definition PROGMEM_STRING (address : Z) (string_literal : list ascii) : t :=
  mk address (wrap (Z.of_nat (length string_literal) + 1)).

Definition empty (s : t) : bool := (string s =? 0) || (string_size s =? 0).

Definition size (s : t) : Z := string_size s.

Definition front (s : t) : ProgmemReference.t :=
  ProgmemReference.mk (string s + 0).

Definition back (s : t) : ProgmemReference.t :=
  ProgmemReference.mk (string s + wrap (size s - 1)).

Definition data (s : t) : ProgmemPointer.t :=
  ProgmemPointer.mk (string s + 0).

(** [operator[](index)]. *)
Definition at_index (s : t) (index : Z) : ProgmemReference.t :=
  ProgmemReference.mk (string s + index).

Definition begin (s : t) : ProgmemPointer.t :=
  ProgmemPointer.mk (string s + 0).

Definition end_ (s : t) : ProgmemPointer.t :=
  ProgmemPointer.mk (string s + string_size s).

(** [explicit operator ProgmemNullString()]. *)
Definition to_null_string (s : t) : ProgmemNullString.t :=
  ProgmemNullString.mk (string s).

(** [left == right]. *)
Definition eqb (left right : t) : bool :=
  (string left =? string right) && (size left =? size right).

(** [for (auto c : string)]: the characters seen from [begin()] to
    [end()]. *)
Definition contents (s : t) (m : Progmem.t) : result (list ascii) :=
  ProgmemPointer.iterate LOOP_FUEL m (begin s) (end_ s).

Arguments contents : simpl never.

End ProgmemString.

(** ** utils::Array<Type, capacity> *)

Module Array.

Record t (T : Type) : Type := mk { elements : list T }.

Arguments mk {T} elements.
Arguments elements {T} _.

Section Members.
Context {T : Type}.
Variable capacity : Z.

Implicit Type a : t T.

(** The primary template returns [false]; the specialisation
    [Array<Type, 0>] returns [true]. *)
Definition empty a : bool := capacity =? 0.

Definition size a : Z := capacity.

Definition max_size a : Z := capacity.

(** [front()], [back()], [data()]: the slot designated. *)
Definition front a : result Z := slot_ref (elements a) 0.

Definition back a : result Z := slot_ref (elements a) (wrap (capacity - 1)).

Definition data a : result Z := slot_ref (elements a) 0.

(** [operator[](index)], read through the returned reference. *)
Definition at_index a (index : Z) : result T :=
  array_get (elements a) index.

(** Iterators are element pointers: the offset from [&elements[0]]. *)
Definition begin a : Z := 0.

Definition end_ a : Z := capacity.

Definition fill (value : T) a : result (t T) :=
  filled ← for_up 0 capacity (λ index e, array_set e index value)
                  (elements a);
  Ok (mk filled).

(** [a.swap(b)]: the pair of states afterwards. *)
Definition swap (a b : t T) : result (t T * t T) :=
  lr ← swap_arrays capacity (elements a) (elements b);
  Ok (mk lr.1, mk lr.2).
End Members.

End Array.

(** ** utils::ReverseIterator<Iterator> over element pointers *)

Module ReverseIterator.

(** The adapted iterator: an element pointer, as the offset from the
    first element of the array it points into. *)
Record t : Type := mk { iterator : Z }.

Definition makeReverseIterator (iterator : Z) : t := mk iterator.

Definition base (r : t) : Z := iterator r.

Section Members.
Context {T : Type}.

(** [operator *()]: reads the element before the adapted iterator. *)
Definition deref (a : list T) (r : t) : result T :=
  let temporary := iterator r in
  let temporary := temporary - 1 in
  array_get a temporary.

(** [operator[](offset)]. *)
Definition at_offset (a : list T) (r : t) (offset : Z) : result T :=
  array_get a (iterator r - (offset - 1)).
End Members.

(** [operator ++()] and [operator --()]. *)
Definition increment (r : t) : t := mk (iterator r - 1).

Definition decrement (r : t) : t := mk (iterator r + 1).

(** [r + offset] and [r - offset]. *)
Definition plus (r : t) (offset : Z) : t := mk (iterator r - offset).

Definition minus (r : t) (offset : Z) : t := mk (iterator r - offset).

(** [r += offset] and [r -= offset]. *)
Definition plus_assign (r : t) (offset : Z) : t := mk (iterator r - offset).

Definition minus_assign (r : t) (offset : Z) : t := mk (iterator r + offset).

(** [left == right], [left != right], [left < right]. *)
Definition eqb (left right : t) : bool := base left =? base right.

Definition neqb (left right : t) : bool := negb (base left =? base right).

Definition ltb (left right : t) : bool := base right <? base left.

(** [for (auto x : makeIteratorPair(first, last))]: the elements read
    from [first] until [last] is reached. *)
Fixpoint iterate {T : Type} (fuel : nat) (a : list T) (it last : t)
    : result (list T) :=
  match fuel with
  | O => OutOfFuel
  | S fuel' =>
      if neqb it last
      then
        x ← deref a it;
        rest ← iterate fuel' a (increment it) last;
        Ok (x :: rest)
      else Ok []
  end.

(** The elements of a [Deque] seen from [makeReverseIterator(end())]
    to [makeReverseIterator(begin())] (tests/test07.h). *)
Definition reversed {T : Type} (d : Deque.t T) : result (list T) :=
  iterate LOOP_FUEL (Deque.elements d)
    (makeReverseIterator (Deque.end_ d))
    (makeReverseIterator (Deque.begin d)).

Arguments reversed : simpl never.

End ReverseIterator.

(** ** containers::IndexIterator<Container> *)

Module IndexIterator.

(** The iterator holds the address of its container and an index. *)
Record t : Type := mk { container : Z; index : Z }.

Definition make_begin (container : Z) : t := mk container 0.

(** [make_end(container)], for a container of [size] elements. *)
Definition make_end (container size : Z) : t := mk container size.

(** [operator ++()] and [operator --()]. *)
Definition increment (it : t) : t := mk (container it) (wrap (index it + 1)).

Definition decrement (it : t) : t := mk (container it) (wrap (index it - 1)).

(** [it += offset] and [it -= offset]. *)
Definition plus_assign (it : t) (offset : Z) : t :=
  mk (container it) (wrap (index it + offset)).

Definition minus_assign (it : t) (offset : Z) : t :=
  mk (container it) (wrap (index it - offset)).

(** Conversion of a [size_t] to the 16-bit signed [ptrdiff_t]. *)
Definition to_difference (x : Z) : Z :=
  if x <? SIZE_MODULUS / 2 then x else x - SIZE_MODULUS.

(** [left - right]. *)
Definition difference (left right : t) : Z :=
  to_difference (wrap (index left - index right)).

Definition eqb (left right : t) : bool :=
  (container left =? container right) && (index left =? index right).

Definition neqb (left right : t) : bool :=
  negb (container left =? container right)
  || negb (index left =? index right).

Definition ltb (left right : t) : bool :=
  (container left =? container right) && (index left <? index right).

Definition gtb (left right : t) : bool :=
  (container left =? container right) && (index right <? index left).

Definition leb (left right : t) : bool :=
  (container left =? container right) && (index left <=? index right).

Definition geb (left right : t) : bool :=
  (container left =? container right) && (index right <=? index left).

(** [a.swap(b)]: the pair of iterators afterwards. *)
Definition swap (a b : t) : t * t := (b, a).

End IndexIterator.

(** * Specification-level definitions *)

(** Pushing a run of values, one call per value. *)
Fixpoint call_each {T S : Type} (member : T → S → result S)
    (values : list T) (s : S) : result S :=
  match values with
  | [] => Ok s
  | v :: rest => s' ← member v s; call_each member rest s'
  end.

(** The member functions that can be called on a deque of type [C]
    holding elements of type [T]. *)
Inductive operation (T C : Type) : Type :=
  | PushBack (value : argument T)
  | EmplaceBack (value : argument T)
  | PushFront (value : argument T)
  | EmplaceFront (value : argument T)
  | PopBack
  | PopFront
  | Front
  | Back
  | At (index : Z)
  | Erase (element_iterator : Z)
  | Clear
  | SwapWith (other : C).

Arguments PushBack {T C} value.
Arguments EmplaceBack {T C} value.
Arguments PushFront {T C} value.
Arguments EmplaceFront {T C} value.
Arguments PopBack {T C}.
Arguments PopFront {T C}.
Arguments Front {T C}.
Arguments Back {T C}.
Arguments At {T C} index.
Arguments Erase {T C} element_iterator.
Arguments Clear {T C}.
Arguments SwapWith {T C} other.

Module CircularDequeSpec.
Import CircularDeque.

Section Spec.
Context {T : Type}.
Variable capacity : Z.

(** [models d l]: the deque [d] is well formed and holds exactly the
    elements [l], front to back. *)
Definition models (d : t T) (l : list T) : Prop :=
  Z.of_nat (length (elements d)) = capacity ∧
  element_count d = Z.of_nat (length l) ∧
  Z.of_nat (length l) ≤ capacity ∧
  0 ≤ first_index d < capacity ∧
  ∀ (i : nat) (x : T), l !! i = Some x →
    elements d !! Z.to_nat ((first_index d + Z.of_nat i) mod capacity)
    = Some x.

(** The invariant of the representation. *)
Definition well_formed (d : t T) : Prop :=
  Z.of_nat (length (elements d)) = capacity ∧
  0 ≤ element_count d ≤ capacity ∧
  0 ≤ first_index d < capacity.

Variable CONTAINER_SAFETY : bool.

(** An argument that is an element of the deque is one of its
    [size()] elements. *)
Definition designates (value : argument T) (d : t T) : Prop :=
  match value with
  | Value _ => True
  | Element index => 0 ≤ index < size d
  end.

(** The documented precondition of each member function. *)
Definition precondition (op : operation T (t T)) (d : t T) : Prop :=
  match op with
  | PushBack value | EmplaceBack value | PushFront value
  | EmplaceFront value =>
      size d < max_size capacity d ∧ designates value d
  | PopBack | PopFront | Front | Back => 0 < size d
  | At index => 0 ≤ index < size d
  | Erase element_iterator => 0 ≤ element_iterator < size d
  | Clear => True
  | SwapWith other => Z.of_nat (length (elements other)) = capacity
  end.

(** The value an argument holds at the call. The four inserting
    functions of the circular deque read their argument before they
    write anything, and none moves an element. *)
Definition argument_value (value : argument T) (d : t T) : result T :=
  match value with
  | Value v => Ok v
  | Element index => at_index capacity d index
  end.

(** Calling a member function: the state the deque is left in, when
    the call returns and, for [erase], when it runs off the end of the
    function body. *)
Definition run (op : operation T (t T)) (d : t T) : result (t T) :=
  match op with
  | PushBack value =>
      v ← argument_value value d; push_back capacity CONTAINER_SAFETY v d
  | EmplaceBack value =>
      v ← argument_value value d;
      r ← emplace_back capacity CONTAINER_SAFETY v d; Ok r.1
  | PushFront value =>
      v ← argument_value value d; push_front capacity CONTAINER_SAFETY v d
  | EmplaceFront value =>
      v ← argument_value value d;
      r ← emplace_front capacity CONTAINER_SAFETY v d; Ok r.1
  | PopBack => pop_back capacity CONTAINER_SAFETY d
  | PopFront => pop_front capacity CONTAINER_SAFETY d
  | Front => _ ← front d; Ok d
  | Back => _ ← back capacity d; Ok d
  | At index => _ ← at_index capacity d index; Ok d
  | Erase element_iterator =>
      c ← erase capacity CONTAINER_SAFETY element_iterator d;
      Ok (state_left c)
  | Clear => clear capacity d
  | SwapWith other => r ← swap capacity d other; Ok r.1
  end.

(** The states a deque goes through, starting empty, when every call
    satisfies its precondition. *)
Inductive reachable : t T → Prop :=
  | reachable_init (storage : list T) :
      Z.of_nat (length storage) = capacity → reachable (init storage)
  | reachable_run (op : operation T (t T)) (d d' : t T) :
      reachable d → precondition op d → run op d = Ok d' → reachable d'.
End Spec.

End CircularDequeSpec.

Module DequeSpec.
Import Deque.

Section Spec.
Context {T : Type}.
Variable capacity : Z.

(** [models d l]: the deque [d] is well formed and holds exactly the
    elements [l], front to back. *)
Definition models (d : t T) (l : list T) : Prop :=
  Z.of_nat (length (elements d)) = capacity ∧
  element_count d = Z.of_nat (length l) ∧
  Z.of_nat (length l) ≤ capacity ∧
  ∀ (i : nat) (x : T), l !! i = Some x → elements d !! i = Some x.

(** The invariant of the representation. *)
Definition well_formed (d : t T) : Prop :=
  Z.of_nat (length (elements d)) = capacity ∧
  0 ≤ element_count d ≤ capacity.

Variable CONTAINER_SAFETY : bool.

(** An argument that is an element of the deque is one of its
    [size()] elements. *)
Definition designates (value : argument T) (d : t T) : Prop :=
  match value with
  | Value _ => True
  | Element index => 0 ≤ index < size d
  end.

(** The documented precondition of each member function. *)
Definition precondition (op : operation T (t T)) (d : t T) : Prop :=
  match op with
  | PushBack value | EmplaceBack value | PushFront value
  | EmplaceFront value =>
      size d < max_size capacity d ∧ designates value d
  | PopBack | PopFront | Front | Back => 0 < size d
  | At index => 0 ≤ index < size d
  | Erase element_iterator => 0 ≤ element_iterator < size d
  | Clear => True
  | SwapWith other => Z.of_nat (length (elements other)) = capacity
  end.

(** Calling a member function: the state the deque is left in, when
    the call returns and, for [erase], when it runs off the end of the
    function body. *)
Definition run (op : operation T (t T)) (d : t T) : result (t T) :=
  match op with
  | PushBack value =>
      v ← read_argument (elements d) value;
      push_back capacity CONTAINER_SAFETY v d
  | EmplaceBack value =>
      v ← read_argument (elements d) value;
      r ← emplace_back capacity CONTAINER_SAFETY v d; Ok r.1
  | PushFront value => push_front capacity CONTAINER_SAFETY value d
  | EmplaceFront value =>
      r ← emplace_front capacity CONTAINER_SAFETY value d; Ok r.1
  | PopBack => pop_back CONTAINER_SAFETY d
  | PopFront => pop_front CONTAINER_SAFETY d
  | Front => _ ← front d; Ok d
  | Back => _ ← back d; Ok d
  | At index => _ ← at_index d index; Ok d
  | Erase element_iterator =>
      c ← erase CONTAINER_SAFETY element_iterator d;
      Ok (state_left c)
  | Clear => clear d
  | SwapWith other => r ← swap capacity d other; Ok r.1
  end.

(** The states a deque goes through, starting empty, when every call
    satisfies its precondition. [pop_front] on a full deque, which
    reads one past the end of the array, is followed whatever value
    that read yields. *)
Inductive reachable : t T → Prop :=
  | reachable_init (storage : list T) :
      Z.of_nat (length storage) = capacity → reachable (init storage)
  | reachable_run (op : operation T (t T)) (d d' : t T) :
      reachable d → precondition op d → run op d = Ok d' → reachable d'
  | reachable_past_the_end (beyond : T) (d d' : t T) :
      reachable d → precondition PopFront d →
      pop_front_reading CONTAINER_SAFETY beyond d = Ok d' → reachable d'.
End Spec.

End DequeSpec.

(** Scenario S1 (tests/test06.h): the calls made on a
    [CircularDeque<char, 16>] with static (zeroed) storage. *)
Definition scenario_S1 (CONTAINER_SAFETY : bool)
    : result (CircularDeque.t ascii) :=
  let push_back := CircularDeque.push_back 16 CONTAINER_SAFETY in
  let push_front := CircularDeque.push_front 16 CONTAINER_SAFETY in
  let deque := CircularDeque.init (replicate 16 zero) in
  deque ← push_back "w"%char deque;
  deque ← push_back "o"%char deque;
  deque ← push_back "r"%char deque;
  deque ← push_back "l"%char deque;
  deque ← push_back "d"%char deque;
  deque ← push_front " "%char deque;
  deque ← push_front "o"%char deque;
  deque ← push_front "l"%char deque;
  deque ← push_front "l"%char deque;
  deque ← push_front "e"%char deque;
  deque ← push_front "h"%char deque;
  Ok deque.

(** A [CircularDeque<char, 4>] after [push_back('a')], [pop_front()],
    [push_back('b')]: one live element, in slot 1. *)
Definition circular_head_1 : result (CircularDeque.t ascii) :=
  let deque := CircularDeque.init (replicate 4 zero) in
  deque ← CircularDeque.push_back 4 false "a"%char deque;
  deque ← CircularDeque.pop_front 4 false deque;
  deque ← CircularDeque.push_back 4 false "b"%char deque;
  Ok deque.

(** A [CircularDeque<char, 4>] after [push_front('a')]: one live
    element, in slot 3, the active range ending at the array's end. *)
Definition circular_head_3 : result (CircularDeque.t ascii) :=
  CircularDeque.push_front 4 false "a"%char
    (CircularDeque.init (replicate 4 zero)).

(** A full [CircularDeque<char, 4>] holding "abcd", head at slot 0. *)
Definition circular_full : result (CircularDeque.t ascii) :=
  call_each (CircularDeque.push_back 4 false) (list_ascii_of_string "abcd")
            (CircularDeque.init (replicate 4 zero)).

(** A full [Deque<char, 2>] holding "ab". *)
Definition deque_full : result (Deque.t ascii) :=
  call_each (Deque.push_back 2 false) (list_ascii_of_string "ab")
            (Deque.init (replicate 2 zero)).

(** ** Call sequences on the adapters *)

(** The calls that change a [Stack] or a [Queue]. *)
Inductive adapter_call (T : Type) : Type :=
  | Push (value : T)
  | Emplace (value : T)
  | Pop.

Arguments Push {T} value.
Arguments Emplace {T} value.
Arguments Pop {T}.

Section AdapterCalls.
Context {C T : Type} {container_type : Container C T}.

(** One call on a stack: the state afterwards. *)
Definition stack_call (call : adapter_call T) (s : Stack.t C)
    : result (Stack.t C) :=
  match call with
  | Push value => Stack.push value s
  | Emplace value => sr ← Stack.emplace value s; Ok sr.1
  | Pop => Stack.pop s
  end.

(** One call on a queue: the state afterwards. *)
Definition queue_call (call : adapter_call T) (q : Queue.t C)
    : result (Queue.t C) :=
  match call with
  | Push value => Queue.push value q
  | Emplace value => qr ← Queue.emplace value q; Ok qr.1
  | Pop => Queue.pop q
  end.
End AdapterCalls.

Section ListModels.
Context {T : Type}.
Variable capacity : Z.

(** A bounded last-in first-out list: the top is the last element. *)
Definition stack_model (call : adapter_call T) (l : list T) : list T :=
  match call with
  | Push value | Emplace value =>
      if Z.of_nat (length l) <? capacity then l ++ [value] else l
  | Pop => take (length l - 1) l
  end.

(** A bounded first-in first-out list: the front is the first element. *)
Definition queue_model (call : adapter_call T) (l : list T) : list T :=
  match call with
  | Push value | Emplace value =>
      if Z.of_nat (length l) <? capacity then l ++ [value] else l
  | Pop => drop 1 l
  end.

Definition model_run (model : adapter_call T → list T → list T)
    (calls : list (adapter_call T)) (l : list T) : list T :=
  fold_left (λ l call, model call l) calls l.

(** The documented precondition of a call, which a build with
    CONTAINER_SAFETY does not need. *)
Definition within_contract (CONTAINER_SAFETY : bool)
    (call : adapter_call T) (l : list T) : bool :=
  CONTAINER_SAFETY ||
  match call with
  | Push _ | Emplace _ => Z.of_nat (length l) <? capacity
  | Pop => 0 <? Z.of_nat (length l)
  end.

(** [pop] is not called while the container is full. *)
Definition pop_has_room (call : adapter_call T) (l : list T) : bool :=
  match call with
  | Push _ | Emplace _ => true
  | Pop => Z.of_nat (length l) <? capacity
  end.

(** Every call of a sequence is made under [precondition]. *)
Fixpoint contract_kept (model : adapter_call T → list T → list T)
    (precondition : adapter_call T → list T → bool)
    (calls : list (adapter_call T)) (l : list T) : bool :=
  match calls with
  | [] => true
  | call :: rest =>
      precondition call l && contract_kept model precondition rest (model call l)
  end.
End ListModels.

(** The number of positions at which two runs of bytes differ. *)
Fixpoint differing (old new : list Z) : Z :=
  match old, new with
  | o :: old', n :: new' => (if o =? n then 0 else 1) + differing old' new'
  | _, _ => 0
  end.

(** The bytes of a run of characters. *)
Definition char_bytes (chars : list ascii) : list Z :=
  (λ c, Z.of_N (N_of_ascii c)) <$> chars.

(** ** Sample states *)

(** A wrapped [CircularDeque<char, 4>] holding "abc": head at slot 2. *)
Definition circular_abc : CircularDeque.t ascii :=
  CircularDeque.mk ["c"; "000"; "a"; "b"]%char 3 2.

(** A [Deque<char, 4>] holding "abc". *)
Definition linear_abc : Deque.t ascii :=
  Deque.mk ["a"; "b"; "c"; "000"]%char 3.

(** A full, wrapped [CircularDeque<char, 4>] holding "abcd". *)
Definition circular_abcd : CircularDeque.t ascii :=
  CircularDeque.mk ["c"; "d"; "a"; "b"]%char 4 2.

(** An empty [CircularDeque<char, 4>] whose head has moved to slot 2. *)
Definition circular_none : CircularDeque.t ascii :=
  CircularDeque.mk ["c"; "d"; "a"; "b"]%char 0 2.

(** A full [Deque<char, 4>] holding "abcd". *)
Definition linear_abcd : Deque.t ascii :=
  Deque.mk ["a"; "b"; "c"; "d"]%char 4.

(** An empty [Deque<char, 4>]. *)
Definition linear_none : Deque.t ascii :=
  Deque.mk ["a"; "b"; "c"; "d"]%char 0.

(** A wrapped [CircularDeque<char, 4>] holding "xyz": head at slot 2. *)
Definition circular_xyz : CircularDeque.t ascii :=
  CircularDeque.mk ["z"; "000"; "x"; "y"]%char 3 2.

(** A [Deque<char, 4>] holding "xyz". *)
Definition linear_xyz : Deque.t ascii :=
  Deque.mk ["x"; "y"; "z"; "000"]%char 3.

(** A short run of calls on an adapter of characters. *)
Definition sample_calls : list (adapter_call ascii) :=
  [Push "a"; Push "b"; Pop; Emplace "c"]%char.

(** A flash image holding the literal "Hi" at address 100. *)
Definition flash_hi : Progmem.t := {[100 := 72; 101 := 105; 102 := 0]}.

(** A [utils::Array<char, 3>] holding "abc", and one holding "xyz". *)
Definition array_abc : Array.t ascii := Array.mk ["a"; "b"; "c"]%char.

Definition array_xyz : Array.t ascii := Array.mk ["x"; "y"; "z"]%char.

(** * Properties *)

(** ** [size_t] arithmetic and raw arrays *)

(** Closing a goal about a concrete run by evaluating the model. *)
Ltac evaluate := vm_compute; reflexivity.

(** Splitting a conjunction of concrete facts, each closed by evaluation. *)
Ltac evaluate_each :=
  repeat match goal with |- _ ∧ _ => split end; evaluate.

Lemma wrap_small (x : Z) : 0 ≤ x < SIZE_MODULUS → wrap x = x.
Proof. intros. unfold wrap. by apply Z.mod_small. Qed.

Lemma mod_add_cases (h i c : Z) :
  0 ≤ h < c → 0 ≤ i ≤ c →
  (h + i) mod c = if h + i <? c then h + i else h + i - c.
Proof.
  intros Hh Hi. destruct (Z.ltb_spec (h + i) c) as [Hlt | Hge].
  - apply Z.mod_small. lia.
  - symmetry. apply (Z.mod_unique _ _ 1); lia.
Qed.

Lemma mod_add_inj (h i j c : Z) :
  0 ≤ h < c → 0 ≤ i < c → 0 ≤ j < c →
  (h + i) mod c = (h + j) mod c → i = j.
Proof.
  intros Hh Hi Hj. rewrite !mod_add_cases by lia.
  destruct (Z.ltb_spec (h + i) c), (Z.ltb_spec (h + j) c); lia.
Qed.

Lemma previous_then_next (h i c : Z) :
  0 < c → ((h + (c - 1)) mod c + (i + 1)) mod c = (h + i) mod c.
Proof.
  intros. rewrite Zplus_mod_idemp_l.
  replace (h + (c - 1) + (i + 1)) with (h + i + 1 * c) by lia.
  apply Z_mod_plus_full.
Qed.

Lemma mod_in_range (x c : Z) : 0 < c → 0 ≤ x mod c < c.
Proof. intros. by apply Z.mod_pos_bound. Qed.

Lemma loop_fuel_value : Z.of_nat LOOP_FUEL = SIZE_MODULUS + 1.
Proof. unfold LOOP_FUEL, SIZE_MODULUS. lia. Qed.

Lemma bind_Ok {A B : Type} (m : result A) (f : A → result B) (b : B) :
  m ≫= f = Ok b → ∃ a, m = Ok a ∧ f a = Ok b.
Proof. destruct m as [a | |]; simpl; intros H; [by exists a | done | done]. Qed.

(** Taking apart a run that is known to have returned. *)
Ltac invert_run :=
  repeat match goal with
  | H : _ ≫= _ = Ok _ |- _ =>
      let a := fresh "a" in
      let Ha := fresh "Hcall" in
      apply bind_Ok in H; destruct H as (a & Ha & H)
  | H : Ok ?x = Ok ?y |- _ =>
      injection H as H; first [subst y | subst x | idtac]
  end.

Section RawArrayFacts.
Context {T : Type}.
Implicit Types (a : list T) (i : Z).

Lemma in_bounds_true a i :
  0 ≤ i < Z.of_nat (length a) → in_bounds a i = true.
Proof. intros. unfold in_bounds. apply andb_true_iff. lia. Qed.

Lemma in_bounds_false a i :
  ¬ (0 ≤ i < Z.of_nat (length a)) → in_bounds a i = false.
Proof. intros. unfold in_bounds. apply andb_false_iff. lia. Qed.

Lemma array_get_Ok a i x :
  0 ≤ i → a !! Z.to_nat i = Some x → array_get a i = Ok x.
Proof.
  intros Hi Hx. unfold array_get.
  rewrite in_bounds_true, Hx; [done |].
  apply lookup_lt_Some in Hx. lia.
Qed.

Lemma array_get_in_bounds a i :
  0 ≤ i < Z.of_nat (length a) → ∃ x, array_get a i = Ok x.
Proof.
  intros Hi. destruct (lookup_lt_is_Some_2 a (Z.to_nat i)) as [x Hx]; [lia |].
  exists x. apply array_get_Ok; [lia | done].
Qed.

Lemma array_get_out a i :
  Z.of_nat (length a) ≤ i → array_get a i = OutOfBounds i.
Proof. intros. unfold array_get. rewrite in_bounds_false; [done | lia]. Qed.

Lemma array_set_Ok a i v :
  0 ≤ i < Z.of_nat (length a) →
  array_set a i v = Ok (<[Z.to_nat i := v]> a).
Proof. intros. unfold array_set. by rewrite in_bounds_true. Qed.

Lemma slot_ref_Ok a i :
  0 ≤ i < Z.of_nat (length a) → slot_ref a i = Ok i.
Proof. intros. unfold slot_ref. by rewrite in_bounds_true. Qed.

Lemma array_set_length a i v a' :
  array_set a i v = Ok a' → length a' = length a.
Proof.
  unfold array_set. destruct (in_bounds a i); [| done].
  intros [= <-]. apply length_insert.
Qed.

Lemma for_each_preserves {S : Type} (P : S → Prop) (indices : list Z)
    (body : Z → S → result S) (s s' : S) :
  (∀ index s0 s1, P s0 → body index s0 = Ok s1 → P s1) →
  P s → for_each indices body s = Ok s' → P s'.
Proof.
  intros Hbody. revert s. induction indices as [| index rest IH];
    intros s Hs Hrun; simpl in Hrun.
  - by injection Hrun as <-.
  - destruct (body index s) as [s1 | |] eqn:Hstep; simpl in Hrun; try done.
    eapply IH; [| done]. by eapply Hbody.
Qed.

Lemma swap_arrays_length (size : Z) (l r l' r' : list T) :
  swap_arrays size l r = Ok (l', r') →
  length l' = length l ∧ length r' = length r.
Proof.
  unfold swap_arrays, for_up. intros Hrun.
  apply (for_each_preserves
           (λ lr, length lr.1 = length l ∧ length lr.2 = length r)
           _ _ _ _) in Hrun; [done | | done].
  intros index [l0 r0] [l1 r1] [Hl Hr] Hstep. unfold swap_slot in Hstep.
  simpl in *.
  destruct (array_get l0 index); simpl in Hstep; try done.
  destruct (array_get r0 index); simpl in Hstep; try done.
  destruct (array_set l0 index _) eqn:Hl1; simpl in Hstep; try done.
  destruct (array_set r0 index _) eqn:Hr1; simpl in Hstep; try done.
  injection Hstep as <- <-.
  apply array_set_length in Hl1, Hr1. split; congruence.
Qed.

Lemma swap_slot_Ok (k : nat) (l r : list T) (x y : T) :
  l !! k = Some x → r !! k = Some y →
  swap_slot (Z.of_nat k) (l, r) = Ok (<[k := y]> l, <[k := x]> r).
Proof.
  intros Hx Hy. unfold swap_slot. simpl.
  pose proof (lookup_lt_Some _ _ _ Hx). pose proof (lookup_lt_Some _ _ _ Hy).
  rewrite (array_get_Ok l _ x), (array_get_Ok r _ y)
    by (rewrite ?Nat2Z.id; (done || lia)).
  simpl. rewrite !array_set_Ok by lia. simpl. by rewrite !Nat2Z.id.
Qed.

(** The swapping loop of [utils::swap] on arrays: after the slots
    [k .. k + n - 1] have been visited they hold each other's elements. *)
Lemma swap_run (n k : nat) (l r : list T) :
  length l = length r → (k + n ≤ length l)%nat →
  ∃ l' r',
    for_each (seqZ (Z.of_nat k) (Z.of_nat n)) swap_slot (l, r) = Ok (l', r')
    ∧ length l' = length l ∧ length r' = length r
    ∧ ∀ i : nat,
        l' !! i = (if decide (k ≤ i < k + n)%nat then r !! i else l !! i)
        ∧ r' !! i = (if decide (k ≤ i < k + n)%nat then l !! i else r !! i).
Proof.
  revert k l r. induction n as [| n IH]; intros k l r Hlen Hin.
  - exists l, r. simpl. repeat split; try done; case_decide; (lia || done).
  - rewrite seqZ_cons by lia. simpl.
    destruct (lookup_lt_is_Some_2 l k) as [x Hx]; [lia |].
    destruct (lookup_lt_is_Some_2 r k) as [y Hy]; [lia |].
    rewrite (swap_slot_Ok k l r x y Hx Hy). simpl.
    replace (Z.succ (Z.of_nat k)) with (Z.of_nat (S k)) by lia.
    replace (Z.pred (Z.of_nat (S n))) with (Z.of_nat n) by lia.
    destruct (IH (S k) (<[k := y]> l) (<[k := x]> r))
      as (l' & r' & -> & Hl' & Hr' & Hat).
    { by rewrite !length_insert. }
    { rewrite length_insert. lia. }
    exists l', r'. rewrite !length_insert in Hl', Hr'.
    split; [done |]. split; [done |]. split; [done |].
    intros i. destruct (Hat i) as [-> ->].
    destruct (decide (i = k)) as [-> | Hne].
    + rewrite !list_lookup_insert_eq by lia.
      repeat case_decide; try lia. by rewrite Hx, Hy.
    + rewrite !list_lookup_insert_ne by lia.
      repeat case_decide; (lia || done).
Qed.

(** [utils::swap] exchanges two arrays of [size] elements. *)
Lemma swap_arrays_exchanges (size : Z) (l r : list T) :
  Z.of_nat (length l) = size → Z.of_nat (length r) = size →
  swap_arrays size l r = Ok (r, l).
Proof.
  intros Hl Hr. unfold swap_arrays, for_up.
  destruct (swap_run (length l) 0 l r) as (l' & r' & Hrun & Hl' & Hr' & Hat);
    [lia | lia |].
  rewrite Z.sub_0_r, <- Hl. change (Z.of_nat 0) with 0 in Hrun.
  rewrite Hrun. f_equal. f_equal; apply list_eq; intros i;
    destruct (Hat i) as [Hli Hri]; rewrite ?Hli, ?Hri;
    case_decide; try done.
  - rewrite !lookup_ge_None_2 by lia. done.
  - rewrite !lookup_ge_None_2 by lia. done.
Qed.

(** A list can be read off any [n] cells that all hold a value. *)
Lemma tabulate_lookups (f : nat → option T) (n : nat) :
  (∀ k : nat, (k < n)%nat → is_Some (f k)) →
  ∃ l : list T,
    length l = n ∧ ∀ (k : nat) (x : T), l !! k = Some x → f k = Some x.
Proof.
  induction n as [| n IH]; intros Hf.
  - exists []. split; [done |]. intros k x Hx. done.
  - destruct IH as (l & Hlen & Hl); [intros k Hk; apply Hf; lia |].
    destruct (Hf n) as [y Hy]; [lia |].
    exists (l ++ [y]). split; [rewrite length_app; simpl; lia |].
    intros k x Hx. apply lookup_app_Some in Hx as [Hx | [Hge Hx]].
    + by apply Hl.
    + apply list_lookup_singleton_Some in Hx as [Hk <-].
      by replace k with n by lia.
Qed.

Lemma for_each_returns {S : Type} (P : S → Prop) (Q : Z → Prop)
    (indices : list Z) (body : Z → S → result S) (s : S) :
  Forall Q indices →
  (∀ index s0, Q index → P s0 → ∃ s1, body index s0 = Ok s1 ∧ P s1) →
  P s → ∃ s', for_each indices body s = Ok s' ∧ P s'.
Proof.
  intros Hindices Hbody. revert s.
  induction Hindices as [| index rest Hindex _ IH]; intros s Hs; simpl.
  - by exists s.
  - destruct (Hbody index s Hindex Hs) as (s1 & -> & Hs1). simpl.
    by apply IH.
Qed.

Lemma for_each_app {S : Type} (xs ys : list Z) (body : Z → S → result S)
    (s : S) :
  for_each (xs ++ ys) body s
  = (s' ← for_each xs body s; for_each ys body s').
Proof.
  revert s. induction xs as [| x xs IH]; intros s; simpl; [done |].
  destruct (body x s); simpl; auto.
Qed.
End RawArrayFacts.

(** Every successful array write kept the length of the array. *)
Ltac array_lengths :=
  repeat match goal with
  | H : array_set _ _ _ = Ok _ |- _ => apply array_set_length in H
  end.

(** ** Persistent memory: reading back what was written *)

Module EepromFacts.
Import Eeprom.

Implicit Types (e : t) (addr : Z) (bytes : list Z).

Lemma le_split_combine bytes :
  Forall is_byte bytes → le_split (length bytes) (le_combine bytes) = bytes.
Proof.
  induction 1 as [| b rest Hb _ IH]; simpl; [done |].
  unfold is_byte in Hb. f_equal.
  - Z.div_mod_to_equations. lia.
  - replace ((b + 256 * le_combine rest) / 256) with (le_combine rest)
      by (Z.div_mod_to_equations; lia).
    exact IH.
Qed.

Lemma read_write_byte_eq e addr b :
  eeprom_read_byte (eeprom_write_byte addr b e) addr = b mod 256.
Proof. unfold eeprom_read_byte, eeprom_write_byte. simpl. by rewrite lookup_insert_eq. Qed.

Lemma read_write_byte_ne e addr addr' b :
  addr ≠ addr' →
  eeprom_read_byte (eeprom_write_byte addr b e) addr' = eeprom_read_byte e addr'.
Proof.
  intros. unfold eeprom_read_byte, eeprom_write_byte. simpl.
  by rewrite lookup_insert_ne.
Qed.

Lemma read_update_byte_eq e addr b :
  eeprom_read_byte (eeprom_update_byte addr b e) addr = b mod 256.
Proof.
  unfold eeprom_update_byte.
  destruct (Z.eqb_spec (eeprom_read_byte e addr) (b mod 256)); [done |].
  apply read_write_byte_eq.
Qed.

Lemma read_update_byte_ne e addr addr' b :
  addr ≠ addr' →
  eeprom_read_byte (eeprom_update_byte addr b e) addr' = eeprom_read_byte e addr'.
Proof.
  intros. unfold eeprom_update_byte.
  destruct (_ =? _); [done |]. by apply read_write_byte_ne.
Qed.

(** An update writes nothing when the cell already holds the byte. *)
Lemma update_byte_same e addr b :
  eeprom_read_byte e addr = b mod 256 → eeprom_update_byte addr b e = e.
Proof. intros H. unfold eeprom_update_byte. by rewrite H, Z.eqb_refl. Qed.

Lemma read_update_bytes_before bytes e dst addr :
  addr < dst →
  eeprom_read_byte (update_bytes bytes dst e) addr = eeprom_read_byte e addr.
Proof.
  revert e dst. induction bytes as [| b rest IH]; intros e dst Hlt; simpl;
    [done |].
  rewrite IH by lia. apply read_update_byte_ne. lia.
Qed.

Lemma read_block_bytes e src (n : nat) :
  eeprom_read_block e src (Z.of_nat n)
  = (λ i : nat, eeprom_read_byte e (src + Z.of_nat i)) <$> seq 0 n.
Proof.
  unfold eeprom_read_block, seqZ. rewrite Nat2Z.id, <- list_fmap_compose.
  apply list_fmap_ext. intros i x _. simpl. f_equal. lia.
Qed.

Lemma read_block_cons e src (n : nat) :
  eeprom_read_block e src (Z.of_nat (S n))
  = eeprom_read_byte e src :: eeprom_read_block e (src + 1) (Z.of_nat n).
Proof.
  rewrite !read_block_bytes. simpl. rewrite Z.add_0_r. f_equal.
  rewrite <- fmap_S_seq, <- list_fmap_compose.
  apply list_fmap_ext. intros i x _. simpl. f_equal. lia.
Qed.

(** Reading a block back after updating it yields the bytes written. *)
Lemma read_update_bytes bytes e dst :
  Forall is_byte bytes →
  eeprom_read_block (update_bytes bytes dst e) dst (Z.of_nat (length bytes))
  = bytes.
Proof.
  intros Hbytes. revert e dst.
  induction Hbytes as [| b rest Hb _ IH]; intros e dst; [done |].
  change (length (b :: rest)) with (S (length rest)).
  rewrite read_block_cons. simpl. f_equal.
  - rewrite read_update_bytes_before by lia.
    rewrite read_update_byte_eq. apply Z.mod_small, Hb.
  - apply IH.
Qed.

(** Updating a block with the bytes it already holds changes nothing:
    in particular no byte is written. *)
Lemma update_bytes_same bytes e dst :
  Forall is_byte bytes →
  eeprom_read_block e dst (Z.of_nat (length bytes)) = bytes →
  update_bytes bytes dst e = e.
Proof.
  intros Hbytes. revert dst.
  induction Hbytes as [| b rest Hb _ IH]; intros dst Hread; [done |].
  change (length (b :: rest)) with (S (length rest)) in Hread.
  rewrite read_block_cons in Hread. injection Hread as Hhead Hrest.
  simpl. rewrite update_byte_same; [by apply IH |].
  rewrite Hhead. symmetry. apply Z.mod_small, Hb.
Qed.

Lemma read_update_block bytes e dst :
  Forall is_byte bytes →
  eeprom_read_block
    (eeprom_update_block bytes dst (Z.of_nat (length bytes)) e)
    dst (Z.of_nat (length bytes))
  = bytes.
Proof.
  intros. unfold eeprom_update_block.
  rewrite Nat2Z.id, firstn_all. by apply read_update_bytes.
Qed.

Lemma update_block_same bytes e dst :
  Forall is_byte bytes →
  eeprom_read_block e dst (Z.of_nat (length bytes)) = bytes →
  eeprom_update_block bytes dst (Z.of_nat (length bytes)) e = e.
Proof.
  intros. unfold eeprom_update_block.
  rewrite Nat2Z.id, firstn_all. by apply update_bytes_same.
Qed.

Section Typed.
Context {T : Type} `{TriviallyCopyableLaws T}.

(** The object representation has [sizeof] bytes. *)
Lemma to_bytes_size (v : T) : length (to_bytes v) = Z.to_nat sizeof.
Proof. pose proof (to_bytes_length v). lia. Qed.

Lemma one_byte (v : T) :
  sizeof = 1 → ∃ b, to_bytes v = [b] ∧ is_byte b.
Proof.
  intros Hsize. pose proof (to_bytes_length v) as Hlen.
  pose proof (to_bytes_range v) as Hrange.
  destruct (to_bytes v) as [| b [| b' rest]]; simpl in Hlen; try lia.
  exists b. split; [done |]. by inversion Hrange.
Qed.

(** The types whose call is resolved to a helper for one-byte types
    have no instantiation of the typed functions. *)
Lemma byte_helper_ill_formed (object : Z) (v : T) e :
  selects_byte_helper = true →
  update_eeprom object v e = IllFormed
  ∧ read_eeprom (T:=T) e object = IllFormed.
Proof.
  unfold selects_byte_helper, update_eeprom, update_eeprom_helper,
    read_eeprom, read_eeprom_helper.
  destruct kind; try done. by intros ->.
Qed.

(** What [update_eeprom] does, whichever overload is selected: it
    updates the [sizeof] cells of the object with its bytes. *)
Lemma update_eeprom_bytes (destination : Z) (v : T) e :
  selects_byte_helper = false →
  update_eeprom destination v e
  = WellFormed (update_bytes (to_bytes v) destination e).
Proof.
  intros Hselect.
  pose proof (to_bytes_length v) as Hlen.
  pose proof (to_bytes_range v) as Hrange.
  pose proof sizeof_kind as Hkind.
  assert (Hblock : ∀ n : nat, length (to_bytes v) = n →
            eeprom_update_block (le_split n (le_combine (to_bytes v)))
              destination (Z.of_nat n) e
            = update_bytes (to_bytes v) destination e).
  { intros n <-. rewrite le_split_combine by done.
    unfold eeprom_update_block. by rewrite Nat2Z.id, firstn_all. }
  assert (Hbyte : sizeof = 1 →
            eeprom_update_byte destination (le_combine (to_bytes v)) e
            = update_bytes (to_bytes v) destination e
            ∧ eeprom_update_byte destination (hd 0 (to_bytes v)) e
              = update_bytes (to_bytes v) destination e).
  { intros Hone. destruct (one_byte v Hone) as (b & -> & Hb). simpl.
    by rewrite Z.mul_0_r, Z.add_0_r. }
  unfold selects_byte_helper in Hselect.
  unfold update_eeprom, update_eeprom_helper, eeprom_update_word,
    eeprom_update_dword, eeprom_update_float.
  destruct kind; simpl in Hkind;
    try (f_equal; by apply Hbyte);
    try (f_equal; by apply (Hblock 2%nat); lia);
    try (f_equal; by apply (Hblock 4%nat); lia).
  - rewrite Hkind. simpl. f_equal. unfold eeprom_update_block.
    rewrite <- Hkind, <- Hlen. by rewrite Nat2Z.id, firstn_all.
  - rewrite Hselect. f_equal. unfold eeprom_update_block.
    rewrite <- Hlen. by rewrite Nat2Z.id, firstn_all.
Qed.

(** What [read_eeprom] does, whichever overload is selected: it
    rebuilds the object from its [sizeof] cells. *)
Lemma read_eeprom_bytes (object : Z) e :
  selects_byte_helper = false →
  Forall is_byte (eeprom_read_block e object sizeof) →
  read_eeprom e object
  = WellFormed (from_bytes (eeprom_read_block e object sizeof)).
Proof.
  intros Hselect Hrange. pose proof sizeof_kind as Hkind.
  assert (Hlen : length (eeprom_read_block e object sizeof) = Z.to_nat sizeof).
  { unfold eeprom_read_block. by rewrite length_fmap, length_seqZ. }
  assert (Hblock : ∀ n : nat, sizeof = Z.of_nat n →
            le_split n (le_combine (eeprom_read_block e object sizeof))
            = eeprom_read_block e object sizeof).
  { intros n Hn.
    replace n with (length (eeprom_read_block e object sizeof)) by lia.
    by apply le_split_combine. }
  assert (Hbyte : sizeof = 1 →
            eeprom_read_block e object sizeof = [eeprom_read_byte e object]
            ∧ le_split 1 (eeprom_read_byte e object)
              = [eeprom_read_byte e object]).
  { intros Hone. rewrite Hone in Hrange |- *.
    unfold eeprom_read_block in *. simpl in *. rewrite Z.add_0_r in *.
    split; [done |]. f_equal. inversion Hrange as [| ? ? Hb _]; subst.
    by apply Z.mod_small. }
  unfold selects_byte_helper in Hselect.
  unfold read_eeprom, read_eeprom_helper, eeprom_read_word, eeprom_read_dword,
    eeprom_read_float, eeprom_read_ptr.
  destruct kind; simpl in Hkind;
    try (destruct (Hbyte Hkind) as [-> ->]; done);
    try (by rewrite <- Hkind, (Hblock 2%nat) by lia);
    try (by rewrite <- Hkind, (Hblock 4%nat) by lia).
  by rewrite Hselect.
Qed.

Lemma read_after_write (object : Z) (v : T) e :
  selects_byte_helper = false →
  (e' ← writeEeprom object v e; readEeprom e' object) = WellFormed v.
Proof.
  intros Hselect. unfold readEeprom, writeEeprom.
  rewrite update_eeprom_bytes by done. simpl.
  assert (eeprom_read_block (update_bytes (to_bytes v) object e) object sizeof
          = to_bytes v) as Hread.
  { rewrite <- (to_bytes_length v). apply read_update_bytes, to_bytes_range. }
  rewrite read_eeprom_bytes; rewrite ?Hread.
  - by rewrite from_to_bytes.
  - done.
  - apply to_bytes_range.
Qed.

Lemma write_unchanged (object : Z) (v : T) e :
  selects_byte_helper = false →
  eeprom_read_block e object sizeof = to_bytes v →
  writeEeprom object v e = WellFormed e.
Proof.
  intros Hselect Hsame. unfold writeEeprom.
  rewrite update_eeprom_bytes by done. f_equal.
  apply update_bytes_same; [apply to_bytes_range |].
  by rewrite (to_bytes_length v).
Qed.
End Typed.

#[global] Instance bool_TriviallyCopyableLaws : TriviallyCopyableLaws bool.
Proof.
  split; simpl.
  - done.
  - done.
  - intros b. repeat constructor; unfold is_byte; destruct b; lia.
  - by intros [].
Qed.

#[global] Instance char_TriviallyCopyableLaws : TriviallyCopyableLaws ascii.
Proof.
  split; simpl.
  - done.
  - done.
  - intros c. repeat constructor; unfold is_byte.
    + lia.
    + pose proof (N_ascii_bounded c). lia.
  - intros c. by rewrite N2Z.id, ascii_N_embedding.
Qed.

End EepromFacts.

(** ** The circular deque against its list model *)

Module CircularDequeFacts.
Import CircularDeque CircularDequeSpec.

Section Facts.
Context {T : Type}.
Variable capacity : Z.
Variable CONTAINER_SAFETY : bool.
Hypothesis capacity_pos : 0 < capacity.
Hypothesis capacity_fits : 2 * capacity ≤ SIZE_MODULUS.

(** Every fact of this section takes the whole context, in this order. *)
#[local] Set Default Proof Using "All".

Implicit Types (d : t T) (l : list T).

Lemma adjust_index_small d (i : Z) :
  0 ≤ first_index d < capacity → 0 ≤ i ≤ capacity →
  adjust_index capacity d i = (first_index d + i) mod capacity.
Proof.
  intros. unfold adjust_index. rewrite wrap_small; [done | lia].
Qed.

Lemma models_init (storage : list T) :
  Z.of_nat (length storage) = capacity → models capacity (init storage) [].
Proof. intros. unfold models, init. simpl. repeat split; (done || lia). Qed.

Lemma models_at d l (i : nat) x :
  models capacity d l → l !! i = Some x →
  at_index capacity d (Z.of_nat i) = Ok x.
Proof.
  intros (Hlen & Hcount & Hle & Hhead & Hslots) Hx.
  unfold at_index.
  assert (Z.of_nat i < Z.of_nat (length l)) by (apply lookup_lt_Some in Hx; lia).
  rewrite adjust_index_small by lia.
  apply array_get_Ok; [apply mod_in_range; lia | by apply Hslots].
Qed.

Lemma push_back_models d l v :
  models capacity d l → Z.of_nat (length l) < capacity →
  ∃ d', push_back capacity CONTAINER_SAFETY v d = Ok d'
        ∧ models capacity d' (l ++ [v]).
Proof.
  intros (Hlen & Hcount & Hle & Hhead & Hslots) Hroom.
  unfold push_back, max_size, size, get_end_index.
  replace (capacity <=? element_count d) with false by lia.
  rewrite andb_false_r, adjust_index_small by lia.
  rewrite Hcount.
  pose proof (mod_in_range (first_index d + Z.of_nat (length l)) capacity
                capacity_pos).
  rewrite array_set_Ok by lia.
  eexists; split; [done |]. unfold models; simpl.
  rewrite length_insert, length_app, wrap_small by lia. simpl.
  repeat split; try lia.
  intros i x Hx. destruct (decide (i = length l)) as [-> | Hne].
  - rewrite lookup_app_r, Nat.sub_diag in Hx by lia. simpl in Hx.
    injection Hx as <-. apply list_lookup_insert_eq. lia.
  - assert (i < length l)%nat.
    { apply lookup_lt_Some in Hx. rewrite length_app in Hx. simpl in Hx. lia. }
    rewrite lookup_app_l in Hx by lia.
    rewrite list_lookup_insert_ne; [by apply Hslots |].
    intros Heq. apply Z2Nat.inj in Heq; [| lia | apply mod_in_range; lia].
    apply mod_add_inj in Heq; lia.
Qed.

Lemma push_front_models d l v :
  models capacity d l → Z.of_nat (length l) < capacity →
  ∃ d', push_front capacity CONTAINER_SAFETY v d = Ok d'
        ∧ models capacity d' (v :: l).
Proof.
  intros (Hlen & Hcount & Hle & Hhead & Hslots) Hroom.
  unfold push_front, max_size, size, get_previous_index.
  replace (capacity <=? element_count d) with false by lia.
  rewrite andb_false_r.
  rewrite (wrap_small (capacity - 1)) by lia.
  rewrite !wrap_small by lia.
  pose proof (mod_in_range (first_index d + (capacity - 1)) capacity
                capacity_pos).
  rewrite array_set_Ok by lia.
  eexists; split; [done |]. unfold models; simpl.
  rewrite length_insert.
  repeat split; try lia.
  intros i x Hx. destruct i as [| i]; simpl in Hx.
  - injection Hx as <-. rewrite Z.add_0_r, Z.mod_mod by lia.
    apply list_lookup_insert_eq. lia.
  - assert (i < length l)%nat by (by apply lookup_lt_Some in Hx).
    replace (Z.of_nat (S i)) with (Z.of_nat i + 1) by lia.
    rewrite previous_then_next by lia.
    rewrite list_lookup_insert_ne; [by apply Hslots |].
    intros Heq. apply Z2Nat.inj in Heq; [| lia | apply mod_in_range; lia].
    apply mod_add_inj in Heq; lia.
Qed.

Lemma iterate_models d l (fuel k : nat) :
  models capacity d l → (k ≤ length l)%nat → (length l - k < fuel)%nat →
  iterate capacity fuel d (Z.of_nat k) (Z.of_nat (length l)) = Ok (drop k l).
Proof.
  intros Hm. revert k. induction fuel as [| fuel IH]; intros k Hk Hfuel; [lia |].
  simpl. destruct (Z.eqb_spec (Z.of_nat k) (Z.of_nat (length l))) as [Heq | Hne].
  - rewrite drop_ge by lia. done.
  - destruct (lookup_lt_is_Some_2 l k) as [x Hx]; [lia |].
    rewrite (models_at _ _ _ _ Hm Hx). simpl.
    destruct Hm as (Hlen & Hcount & Hle & Hhead & Hslots).
    rewrite wrap_small by lia.
    replace (Z.of_nat k + 1) with (Z.of_nat (S k)) by lia.
    rewrite IH by (unfold models; auto || lia). simpl.
    by rewrite (drop_S _ _ _ Hx).
Qed.

Lemma contents_models d l :
  models capacity d l → contents capacity d = Ok l.
Proof.
  intros Hm. unfold contents, begin, end_, size.
  pose proof Hm as (Hlen & Hcount & Hle & Hhead & Hslots).
  rewrite Hcount. change 0 with (Z.of_nat 0).
  rewrite (iterate_models d l) by (done || pose proof loop_fuel_value; lia).
  done.
Qed.

Lemma size_models d l :
  models capacity d l → size d = Z.of_nat (length l).
Proof. by intros (_ & Hcount & _). Qed.

Lemma pop_back_models d l v :
  models capacity d (l ++ [v]) →
  ∃ d', pop_back capacity CONTAINER_SAFETY d = Ok d' ∧ models capacity d' l.
Proof.
  intros (Hlen & Hcount & Hle & Hhead & Hslots).
  rewrite length_app in Hcount, Hle. simpl in Hcount, Hle.
  unfold pop_back, empty, get_last_index.
  replace (element_count d =? 0) with false by lia.
  rewrite andb_false_r, Hcount.
  rewrite (wrap_small (_ - 1)), adjust_index_small by lia.
  destruct (array_get_in_bounds (elements d)
    ((first_index d + (Z.of_nat (length l + 1) - 1)) mod capacity)) as [x ->].
  { rewrite Hlen. apply mod_in_range. lia. }
  eexists; split; [done |]. unfold models; simpl.
  repeat split; try lia.
  intros i x' Hx'. apply Hslots. by apply lookup_app_l_Some.
Qed.

Lemma pop_front_models d l v :
  models capacity d (v :: l) →
  ∃ d', pop_front capacity CONTAINER_SAFETY d = Ok d' ∧ models capacity d' l.
Proof.
  intros (Hlen & Hcount & Hle & Hhead & Hslots).
  simpl in Hcount, Hle.
  unfold pop_front, empty, get_next_index.
  replace (element_count d =? 0) with false by lia.
  rewrite andb_false_r, Hcount.
  destruct (array_get_in_bounds (elements d) (first_index d)) as [x ->];
    [lia |].
  rewrite !wrap_small by lia.
  pose proof (mod_in_range (first_index d + 1) capacity capacity_pos).
  eexists; split; [done |]. unfold models; simpl.
  repeat split; try lia.
  intros i x' Hx'. rewrite Zplus_mod_idemp_l.
  replace (first_index d + 1 + Z.of_nat i)
    with (first_index d + Z.of_nat (S i)) by lia.
  by apply Hslots.
Qed.

Lemma call_each_push_back (values : list T) d l :
  models capacity d l →
  Z.of_nat (length l) + Z.of_nat (length values) ≤ capacity →
  ∃ d', call_each (push_back capacity CONTAINER_SAFETY) values d = Ok d'
        ∧ models capacity d' (l ++ values).
Proof.
  revert d l. induction values as [| v values IH]; intros d l Hm Hroom.
  - exists d. by rewrite app_nil_r.
  - simpl in Hroom |- *.
    destruct (push_back_models d l v Hm) as (d1 & -> & Hm1); [lia |].
    simpl. destruct (IH d1 (l ++ [v]) Hm1) as (d' & Hrun & Hm').
    { rewrite length_app. simpl. lia. }
    exists d'. split; [done |]. by rewrite <- app_assoc in Hm'.
Qed.

Lemma call_each_push_front (values : list T) d l :
  models capacity d l →
  Z.of_nat (length l) + Z.of_nat (length values) ≤ capacity →
  ∃ d', call_each (push_front capacity CONTAINER_SAFETY) values d = Ok d'
        ∧ models capacity d' (reverse values ++ l).
Proof.
  revert d l. induction values as [| v values IH]; intros d l Hm Hroom.
  - by exists d.
  - simpl in Hroom |- *.
    destruct (push_front_models d l v Hm) as (d1 & -> & Hm1); [lia |].
    simpl. destruct (IH d1 (v :: l) Hm1) as (d' & Hrun & Hm').
    { simpl. lia. }
    exists d'. split; [done |].
    by rewrite reverse_cons, <- app_assoc.
Qed.

(** *** Preservation of the representation invariant *)

Lemma erase_loop_shape (fuel : nat) d d' (current next end_iterator : Z) :
  erase_loop capacity fuel d current next end_iterator = Ok d' →
  length (elements d') = length (elements d)
  ∧ element_count d' = element_count d
  ∧ first_index d' = first_index d.
Proof.
  revert d current next. induction fuel as [| fuel IH];
    intros d current next Hrun; simpl in Hrun; [done |].
  destruct (next =? end_iterator); [by injection Hrun as <- |].
  invert_run. unfold assign_index in *. invert_run.
  apply IH in Hrun as (Hlen & Hcount & Hhead). simpl in *.
  array_lengths. repeat split; congruence.
Qed.

Lemma run_well_formed (op : operation T (t T)) d d' :
  well_formed capacity d →
  precondition capacity op d →
  run capacity CONTAINER_SAFETY op d = Ok d' →
  well_formed capacity d'.
Proof.
  intros (Hlen & Hcount & Hhead) Hpre Hrun.
  pose proof (λ x, mod_in_range x capacity capacity_pos) as Hmod.
  destruct op; simpl in Hpre, Hrun;
    unfold max_size, size, empty in *.
  - unfold push_back, max_size, size in Hrun.
    replace (capacity <=? element_count d) with false in Hrun by lia.
    rewrite andb_false_r in Hrun. invert_run.
    array_lengths. unfold well_formed; simpl.
    rewrite wrap_small by lia. repeat split; lia.
  - unfold emplace_back, max_size, size in Hrun.
    replace (capacity <=? element_count d) with false in Hrun by lia.
    rewrite andb_false_r in Hrun. invert_run.
    array_lengths. unfold well_formed; simpl.
    rewrite wrap_small by lia. repeat split; lia.
  - unfold push_front, max_size, size, get_previous_index in Hrun.
    replace (capacity <=? element_count d) with false in Hrun by lia.
    rewrite andb_false_r in Hrun. invert_run.
    array_lengths. unfold well_formed; simpl.
    rewrite wrap_small by lia. repeat split; (lia || apply Hmod).
  - unfold emplace_front, max_size, size, get_previous_index in Hrun.
    replace (capacity <=? element_count d) with false in Hrun by lia.
    rewrite andb_false_r in Hrun. invert_run.
    array_lengths. unfold well_formed; simpl.
    rewrite wrap_small by lia. repeat split; (lia || apply Hmod).
  - unfold pop_back, empty in Hrun.
    replace (element_count d =? 0) with false in Hrun by lia.
    rewrite andb_false_r in Hrun. invert_run.
    unfold well_formed; simpl.
    rewrite wrap_small by lia. repeat split; lia.
  - unfold pop_front, empty, get_next_index in Hrun.
    replace (element_count d =? 0) with false in Hrun by lia.
    rewrite andb_false_r in Hrun. invert_run.
    unfold well_formed; simpl.
    rewrite wrap_small by lia. repeat split; (lia || apply Hmod).
  - invert_run. by unfold well_formed.
  - invert_run. by unfold well_formed.
  - invert_run. by unfold well_formed.
  - unfold erase, empty, end_, size in Hrun.
    replace (element_count d =? 0) with false in Hrun by lia.
    replace (element_iterator =? element_count d) with false in Hrun by lia.
    rewrite !andb_false_r in Hrun. invert_run.
    match goal with
    | H : erase_loop _ _ _ _ _ _ = Ok _ |- _ =>
        apply erase_loop_shape in H as (Hlen' & Hcount' & Hhead')
    end.
    unfold well_formed; simpl. rewrite Hcount', Hhead', Hlen'.
    rewrite wrap_small by lia. repeat split; lia.
  - unfold clear in Hrun. invert_run. unfold well_formed; simpl.
    repeat split; lia.
  - apply bind_Ok in Hrun as ([d1 d2] & Hswap & Hrun).
    injection Hrun as <-. unfold swap in Hswap.
    apply bind_Ok in Hswap as ([l' r'] & Harrays & Hswap).
    injection Hswap as <- _.
    apply swap_arrays_length in Harrays as [Hl _].
    unfold well_formed; simpl. repeat split; lia.
Qed.

Lemma reachable_well_formed d :
  reachable capacity CONTAINER_SAFETY d → well_formed capacity d.
Proof.
  induction 1 as [storage Hlen | op d d' _ IH Hpre Hrun].
  - unfold well_formed, init; simpl. repeat split; lia.
  - by eapply run_well_formed.
Qed.

(** A well-formed deque holds some sequence of elements. *)
Lemma well_formed_models d :
  well_formed capacity d → ∃ l, models capacity d l.
Proof.
  intros (Hlen & Hcount & Hhead).
  destruct (tabulate_lookups
    (λ i, elements d !! Z.to_nat ((first_index d + Z.of_nat i) mod capacity))
    (Z.to_nat (element_count d))) as (l & Hl & Hslots).
  { intros i Hi. apply lookup_lt_is_Some_2.
    pose proof (mod_in_range (first_index d + Z.of_nat i) capacity
                  capacity_pos). lia. }
  exists l. unfold models. repeat split; (done || lia).
Qed.

(** *** Every call made under its precondition runs to the end of its
    body *)

Lemma adjust_index_in_range d (index : Z) :
  0 ≤ adjust_index capacity d index < capacity.
Proof. unfold adjust_index. by apply mod_in_range. Qed.

Lemma at_index_returns d (index : Z) :
  Z.of_nat (length (elements d)) = capacity →
  ∃ x, at_index capacity d index = Ok x.
Proof.
  intros Hlen. unfold at_index. apply array_get_in_bounds.
  pose proof (adjust_index_in_range d index). lia.
Qed.

Lemma argument_value_returns (value : argument T) d :
  Z.of_nat (length (elements d)) = capacity →
  ∃ x, argument_value capacity value d = Ok x.
Proof.
  intros Hlen. destruct value as [v | index]; simpl; [by eexists |].
  by apply at_index_returns.
Qed.

Lemma assign_index_returns d (index : Z) (v : T) :
  Z.of_nat (length (elements d)) = capacity →
  ∃ d', assign_index capacity d index v = Ok d'
        ∧ length (elements d') = length (elements d)
        ∧ first_index d' = first_index d.
Proof.
  intros Hlen. unfold assign_index.
  pose proof (adjust_index_in_range d index).
  rewrite array_set_Ok by lia. simpl. eexists. split; [done |].
  simpl. by rewrite length_insert.
Qed.

Lemma erase_loop_returns (fuel : nat) d (current next end_iterator : Z) :
  Z.of_nat (length (elements d)) = capacity →
  0 ≤ next ≤ end_iterator → end_iterator < SIZE_MODULUS →
  (Z.to_nat (end_iterator - next) < fuel)%nat →
  ∃ d', erase_loop capacity fuel d current next end_iterator = Ok d'.
Proof.
  revert d current next. induction fuel as [| fuel IH];
    intros d current next Hlen Hnext Hend Hfuel; [lia |].
  simpl. destruct (Z.eqb_spec next end_iterator) as [-> | Hne]; [by eexists |].
  destruct (at_index_returns d next Hlen) as [x ->]. simpl.
  destruct (assign_index_returns d current x Hlen) as (d1 & -> & Hlen1 & _).
  simpl. rewrite (wrap_small (next + 1)) by lia.
  apply IH; lia.
Qed.

Lemma clear_loop_returns (fuel : nat) d (index : Z) (destroyed : list Z) :
  Z.of_nat (length (elements d)) = capacity →
  0 ≤ index < SIZE_MODULUS →
  (Z.to_nat ((get_end_index capacity d - index) mod SIZE_MODULUS) < fuel)%nat →
  ∃ slots, clear_loop capacity fuel d index destroyed = Ok slots.
Proof.
  intros Hlen. revert index destroyed. induction fuel as [| fuel IH];
    intros index destroyed Hindex Hfuel; [lia |].
  simpl.
  pose proof (adjust_index_in_range d (element_count d)) as Hend.
  fold (get_end_index capacity d) in Hend.
  destruct (Z.eqb_spec index (get_end_index capacity d)) as [-> | Hne];
    [by eexists |].
  pose proof (adjust_index_in_range d index).
  destruct (array_get_in_bounds (elements d) (adjust_index capacity d index))
    as [x ->]; [lia |].
  simpl. apply IH.
  - unfold wrap. apply mod_in_range. unfold SIZE_MODULUS. lia.
  - unfold wrap, SIZE_MODULUS in *. Z.div_mod_to_equations. lia.
Qed.

Lemma clear_returns d :
  Z.of_nat (length (elements d)) = capacity →
  0 ≤ first_index d < capacity →
  ∃ slots, clear_destroys capacity d = Ok slots
           ∧ clear capacity d = Ok (mk (elements d) 0 0).
Proof.
  intros Hlen Hhead. unfold clear, clear_destroys.
  destruct (clear_loop_returns LOOP_FUEL d (get_begin_index d) [])
    as [slots ->]; [done | unfold get_begin_index; lia | |].
  - pose proof loop_fuel_value.
    pose proof (mod_in_range
      (get_end_index capacity d - get_begin_index d) SIZE_MODULUS).
    unfold SIZE_MODULUS in *. lia.
  - simpl. by eexists.
Qed.

Lemma run_returns (op : operation T (t T)) d :
  well_formed capacity d → precondition capacity op d →
  ∃ d', run capacity CONTAINER_SAFETY op d = Ok d'.
Proof.
  intros (Hlen & Hcount & Hhead) Hpre.
  pose proof (λ x, mod_in_range x capacity capacity_pos) as Hmod.
  destruct op; simpl in Hpre |- *; unfold max_size, size in Hpre.
  - unfold push_back, max_size, size.
    destruct Hpre as [Hpre _].
    destruct (argument_value_returns value d Hlen) as [x ->]; simpl.
    replace (capacity <=? element_count d) with false by lia.
    rewrite andb_false_r.
    pose proof (adjust_index_in_range d (element_count d)).
    unfold get_end_index. rewrite array_set_Ok by lia. by eexists.
  - unfold emplace_back, max_size, size.
    destruct Hpre as [Hpre _].
    destruct (argument_value_returns value d Hlen) as [x ->]; simpl.
    replace (capacity <=? element_count d) with false by lia.
    rewrite andb_false_r.
    pose proof (adjust_index_in_range d (element_count d)).
    unfold get_end_index. rewrite array_set_Ok by lia. by eexists.
  - unfold push_front, max_size, size, get_previous_index.
    destruct Hpre as [Hpre _].
    destruct (argument_value_returns value d Hlen) as [x ->]; simpl.
    replace (capacity <=? element_count d) with false by lia.
    rewrite andb_false_r, array_set_Ok by (rewrite Hlen; apply Hmod).
    by eexists.
  - unfold emplace_front, max_size, size, get_previous_index.
    destruct Hpre as [Hpre _].
    destruct (argument_value_returns value d Hlen) as [x ->]; simpl.

    replace (capacity <=? element_count d) with false by lia.
    rewrite andb_false_r, array_set_Ok by (rewrite Hlen; apply Hmod).
    by eexists.
  - unfold pop_back, empty, get_last_index.
    replace (element_count d =? 0) with false by lia.
    rewrite andb_false_r.
    destruct (array_get_in_bounds (elements d)
      (adjust_index capacity d (wrap (element_count d - 1)))) as [x ->].
    { rewrite Hlen. apply adjust_index_in_range. }
    by eexists.
  - unfold pop_front, empty.
    replace (element_count d =? 0) with false by lia.
    rewrite andb_false_r.
    destruct (array_get_in_bounds (elements d) (first_index d)) as [x ->];
      [lia |].
    by eexists.
  - unfold front, get_first_index. rewrite slot_ref_Ok by lia. by eexists.
  - unfold back, get_last_index. rewrite slot_ref_Ok; [by eexists |].
    rewrite Hlen. apply adjust_index_in_range.
  - destruct (at_index_returns d index Hlen) as [x ->]. by eexists.
  - unfold erase, empty, end_, size.
    replace (element_count d =? 0) with false by lia.
    replace (element_iterator =? element_count d) with false by lia.
    rewrite !andb_false_r.
    destruct (erase_loop_returns LOOP_FUEL d element_iterator
                (wrap (element_iterator + 1)) (element_count d))
      as [d' ->]; [done | | | | by eexists].
    + rewrite wrap_small; lia.
    + lia.
    + rewrite wrap_small by lia. pose proof loop_fuel_value. lia.
  - destruct (clear_returns d Hlen Hhead) as (slots & _ & ->). by eexists.
  - unfold swap. rewrite swap_arrays_exchanges by done. by eexists.
Qed.
End Facts.

End CircularDequeFacts.

(** ** The linear deque against its list model *)

Module DequeFacts.
Import Deque DequeSpec.

Section Facts.
Context {T : Type}.
Variable capacity : Z.
Variable CONTAINER_SAFETY : bool.
Hypothesis capacity_pos : 0 < capacity.
Hypothesis capacity_fits : capacity < SIZE_MODULUS.

(** Every fact of this section takes the whole context, in this order. *)
#[local] Set Default Proof Using "All".

Implicit Types (d : t T) (l : list T) (a : list T).

Lemma linear_models_init (storage : list T) :
  Z.of_nat (length storage) = capacity → models capacity (init storage) [].
Proof. intros. unfold models, init. simpl. repeat split; (done || lia). Qed.

Lemma linear_size_models d l : models capacity d l → size d = Z.of_nat (length l).
Proof. by intros (_ & Hcount & _). Qed.

Lemma linear_push_back_models d l v :
  models capacity d l → Z.of_nat (length l) < capacity →
  ∃ d', push_back capacity CONTAINER_SAFETY v d = Ok d'
        ∧ models capacity d' (l ++ [v]).
Proof.
  intros (Hlen & Hcount & Hle & Hslots) Hroom.
  unfold push_back, max_size, size.
  replace (capacity <=? element_count d) with false by lia.
  rewrite andb_false_r, Hcount, array_set_Ok by lia.
  eexists; split; [done |]. unfold models; simpl.
  rewrite length_insert, length_app, wrap_small by lia. simpl.
  repeat split; try lia.
  intros i x Hx. rewrite Nat2Z.id.
  destruct (decide (i = length l)) as [-> | Hne].
  - rewrite lookup_app_r, Nat.sub_diag in Hx by lia. simpl in Hx.
    injection Hx as <-. apply list_lookup_insert_eq. lia.
  - assert (i < length l)%nat.
    { apply lookup_lt_Some in Hx. rewrite length_app in Hx. simpl in Hx. lia. }
    rewrite lookup_app_l in Hx by lia.
    rewrite list_lookup_insert_ne by lia. by apply Hslots.
Qed.

Lemma linear_pop_back_models d l v :
  models capacity d (l ++ [v]) →
  ∃ d', pop_back CONTAINER_SAFETY d = Ok d' ∧ models capacity d' l.
Proof.
  intros (Hlen & Hcount & Hle & Hslots).
  rewrite length_app in Hcount, Hle. simpl in Hcount, Hle.
  unfold pop_back, empty.
  replace (element_count d =? 0) with false by lia.
  rewrite andb_false_r, Hcount, wrap_small by lia.
  destruct (array_get_in_bounds (elements d)
              (Z.of_nat (length l + 1) - 1)) as [x ->]; [lia |].
  eexists; split; [done |]. unfold models; simpl.
  repeat split; try lia.
  intros i x' Hx'. apply Hslots. by apply lookup_app_l_Some.
Qed.

Lemma move_forward_Ok (k : nat) a x :
  a !! S k = Some x → Z.of_nat (length a) ≤ SIZE_MODULUS →
  move_forward (Z.of_nat k) a = Ok (<[k := x]> a).
Proof.
  intros Hx Hfit. pose proof (lookup_lt_Some _ _ _ Hx).
  unfold move_forward. rewrite wrap_small by lia.
  rewrite (array_get_Ok _ _ x); [| lia |].
  - simpl. rewrite array_set_Ok by lia. by rewrite Nat2Z.id.
  - by replace (Z.to_nat (Z.of_nat k + 1)) with (S k) by lia.
Qed.

(** The shifting loop of [pop_front], while it stays inside the array. *)
Lemma move_forward_run (n k : nat) a :
  (k + n < length a)%nat → Z.of_nat (length a) ≤ SIZE_MODULUS →
  ∃ a', for_each (seqZ (Z.of_nat k) (Z.of_nat n)) move_forward a = Ok a'
        ∧ length a' = length a
        ∧ ∀ i : nat, a' !! i
            = if decide (k ≤ i < k + n)%nat then a !! S i else a !! i.
Proof.
  revert k a. induction n as [| n IH]; intros k a Hin Hfit.
  - exists a. simpl. split; [done |]. split; [done |].
    intros i. case_decide; [lia | done].
  - rewrite seqZ_cons by lia. simpl.
    destruct (lookup_lt_is_Some_2 a (S k)) as [x Hk]; [lia |].
    rewrite (move_forward_Ok k a x Hk Hfit). simpl.
    replace (Z.succ (Z.of_nat k)) with (Z.of_nat (S k)) by lia.
    replace (Z.pred (Z.of_nat (S n))) with (Z.of_nat n) by lia.
    destruct (IH (S k) (<[k := x]> a)) as (a' & -> & Hlen' & Hat).
    { rewrite length_insert. lia. }
    { by rewrite length_insert. }
    exists a'. split; [done |]. rewrite length_insert in Hlen'.
    split; [done |]. intros i. rewrite Hat.
    repeat case_decide; try lia.
    + rewrite list_lookup_insert_ne by lia. done.
    + assert (i = k) as -> by lia.
      rewrite list_lookup_insert_eq by lia. done.
    + rewrite list_lookup_insert_ne by lia. done.
Qed.

Lemma linear_pop_front_models d l v :
  models capacity d (v :: l) → Z.of_nat (length (v :: l)) < capacity →
  ∃ d', pop_front CONTAINER_SAFETY d = Ok d' ∧ models capacity d' l.
Proof.
  intros (Hlen & Hcount & Hle & Hslots) Hroom. simpl in Hcount, Hle, Hroom.
  unfold pop_front, empty, for_up.
  replace (element_count d =? 0) with false by lia.
  rewrite andb_false_r, Hcount, Z.sub_0_r.
  destruct (move_forward_run (S (length l)) 0 (elements d))
    as (a' & Hrun & Hlen' & Hat); [lia | lia |].
  change (Z.of_nat 0) with 0 in Hrun. rewrite Hrun. simpl.
  eexists; split; [done |]. unfold models; simpl.
  rewrite wrap_small by lia.
  repeat split; try lia.
  intros i x Hx. rewrite Hat.
  assert (i < length l)%nat by (by apply lookup_lt_Some in Hx).
  case_decide; [| lia]. by apply (Hslots (S i)).
Qed.

(** On a full deque the last iteration of the loop of [pop_front] reads
    [elements[capacity]]. *)
Lemma pop_front_full d l :
  models capacity d l → Z.of_nat (length l) = capacity →
  pop_front CONTAINER_SAFETY d = OutOfBounds capacity.
Proof.
  intros (Hlen & Hcount & Hle & Hslots) Hfull.
  unfold pop_front, empty, for_up.
  replace (element_count d =? 0) with false by lia.
  rewrite andb_false_r, Hcount, Z.sub_0_r.
  destruct (length l) as [| m] eqn:Hm; [lia |].
  rewrite seqZ_S, for_each_app.
  destruct (move_forward_run m 0 (elements d))
    as (a' & Hrun & Hlen' & Hat); [lia | lia |].
  change (Z.of_nat 0) with 0 in Hrun. rewrite Hrun. simpl.
  unfold move_forward. rewrite !wrap_small by lia.
  rewrite array_get_out by lia. simpl. f_equal. lia.
Qed.

Lemma linear_iterate_models d l (fuel k : nat) :
  models capacity d l → (k ≤ length l)%nat → (length l - k < fuel)%nat →
  iterate fuel d (Z.of_nat k) (Z.of_nat (length l)) = Ok (drop k l).
Proof.
  intros Hm. revert k. induction fuel as [| fuel IH]; intros k Hk Hfuel; [lia |].
  simpl. destruct (Z.eqb_spec (Z.of_nat k) (Z.of_nat (length l))) as [Heq | Hne].
  - rewrite drop_ge by lia. done.
  - destruct (lookup_lt_is_Some_2 l k) as [x Hx]; [lia |].
    pose proof Hm as (Hlen & Hcount & Hle & Hslots).
    rewrite (array_get_Ok _ _ x) by (rewrite ?Nat2Z.id; auto || lia). simpl.
    replace (Z.of_nat k + 1) with (Z.of_nat (S k)) by lia.
    rewrite IH by lia. simpl.
    by rewrite (drop_S _ _ _ Hx).
Qed.

Lemma linear_contents_models d l : models capacity d l → contents d = Ok l.
Proof.
  intros Hm. unfold contents, begin, end_, get_begin_index, get_end_index.
  pose proof Hm as (Hlen & Hcount & Hle & Hslots).
  rewrite Hcount. change 0 with (Z.of_nat 0).
  rewrite (linear_iterate_models d l) by (done || pose proof loop_fuel_value; lia).
  done.
Qed.

(** *** Preservation of the representation invariant *)

Lemma move_back_length (index : Z) a a' :
  move_back index a = Ok a' → length a' = length a.
Proof. unfold move_back. intros Hrun. invert_run. by array_lengths. Qed.

Lemma move_forward_length (index : Z) a a' :
  move_forward index a = Ok a' → length a' = length a.
Proof. unfold move_forward. intros Hrun. invert_run. by array_lengths. Qed.

Lemma erase_loop_length (fuel : nat) a a' (current next end_iterator : Z) :
  erase_loop fuel a current next end_iterator = Ok a' →
  length a' = length a.
Proof.
  revert a current next. induction fuel as [| fuel IH];
    intros a current next Hrun; simpl in Hrun; [done |].
  destruct (next =? end_iterator); [by injection Hrun as <- |].
  invert_run. apply IH in Hrun. array_lengths. congruence.
Qed.

Lemma linear_run_well_formed (op : operation T (t T)) d d' :
  well_formed capacity d →
  precondition capacity op d →
  run capacity CONTAINER_SAFETY op d = Ok d' →
  well_formed capacity d'.
Proof.
  intros (Hlen & Hcount) Hpre Hrun.
  destruct op; simpl in Hpre, Hrun;
    unfold max_size, size, empty in *.
  - unfold push_back, max_size, size in Hrun.
    replace (capacity <=? element_count d) with false in Hrun by lia.
    rewrite andb_false_r in Hrun. invert_run.
    array_lengths. unfold well_formed; simpl.
    rewrite wrap_small by lia. repeat split; lia.
  - unfold emplace_back, max_size, size in Hrun.
    replace (capacity <=? element_count d) with false in Hrun by lia.
    rewrite andb_false_r in Hrun. invert_run.
    array_lengths. unfold well_formed; simpl.
    rewrite wrap_small by lia. repeat split; lia.
  - unfold push_front, max_size, size, for_down in Hrun.
    replace (capacity <=? element_count d) with false in Hrun by lia.
    rewrite andb_false_r in Hrun.
    apply bind_Ok in Hrun as (a & Hshift & Hrun).
    apply (for_each_preserves (λ a0, length a0 = length (elements d)))
      in Hshift; [| | done].
    2: { intros index s0 s1 Hs0 Hs1. apply move_back_length in Hs1.
         congruence. }
    invert_run. array_lengths. unfold well_formed; simpl.
    rewrite wrap_small by lia. repeat split; lia.
  - apply bind_Ok in Hrun as ([d1 r] & Hrun & Hfst). injection Hfst as <-.
    unfold emplace_front, max_size, size, for_down in Hrun.
    replace (capacity <=? element_count d) with false in Hrun by lia.
    rewrite andb_false_r in Hrun.
    apply bind_Ok in Hrun as (a & Hshift & Hrun).
    apply (for_each_preserves (λ a0, length a0 = length (elements d)))
      in Hshift; [| | done].
    2: { intros index s0 s1 Hs0 Hs1. apply move_back_length in Hs1.
         congruence. }
    invert_run. subst d1. array_lengths. unfold well_formed; simpl.
    rewrite wrap_small by lia. repeat split; lia.
  - unfold pop_back, empty in Hrun.
    replace (element_count d =? 0) with false in Hrun by lia.
    rewrite andb_false_r in Hrun. invert_run.
    unfold well_formed; simpl.
    rewrite wrap_small by lia. repeat split; lia.
  - unfold pop_front, empty, for_up in Hrun.
    replace (element_count d =? 0) with false in Hrun by lia.
    rewrite andb_false_r in Hrun.
    apply bind_Ok in Hrun as (a & Hshift & Hrun).
    apply (for_each_preserves (λ a0, length a0 = length (elements d)))
      in Hshift; [| | done].
    2: { intros index s0 s1 Hs0 Hs1. apply move_forward_length in Hs1.
         congruence. }
    invert_run. unfold well_formed; simpl.
    rewrite wrap_small by lia. repeat split; lia.
  - invert_run. by unfold well_formed.
  - invert_run. by unfold well_formed.
  - invert_run. by unfold well_formed.
  - unfold erase, empty, end_, get_end_index in Hrun.
    replace (element_count d =? 0) with false in Hrun by lia.
    replace (element_iterator =? element_count d) with false in Hrun by lia.
    rewrite !andb_false_r in Hrun. invert_run.
    match goal with
    | H : erase_loop _ _ _ _ _ = Ok _ |- _ =>
        apply erase_loop_length in H as Hshift
    end.
    unfold well_formed; simpl.
    rewrite wrap_small by lia. repeat split; lia.
  - unfold clear in Hrun. invert_run. unfold well_formed; simpl.
    repeat split; lia.
  - apply bind_Ok in Hrun as ([d1 d2] & Hswap & Hrun).
    injection Hrun as <-. unfold swap in Hswap.
    apply bind_Ok in Hswap as ([l' r'] & Harrays & Hswap).
    injection Hswap as <- _.
    apply swap_arrays_length in Harrays as [Hl _].
    unfold well_formed; simpl. repeat split; lia.
Qed.

(** A step of the loop of [pop_front] that stays inside the array
    does the same on the array followed by further cells. *)
Lemma move_forward_app (index : Z) a a' (beyond : list T) :
  move_forward index a = Ok a' →
  move_forward index (a ++ beyond) = Ok (a' ++ beyond).
Proof.
  unfold move_forward, array_get, array_set, in_bounds.
  intros Hrun. rewrite length_app.
  destruct ((0 <=? wrap (index + 1))
            && (wrap (index + 1) <? Z.of_nat (length a))) eqn:Hget;
    [| done].
  apply andb_true_iff in Hget as [Hlow Hhigh].
  apply Z.leb_le in Hlow. apply Z.ltb_lt in Hhigh.
  destruct (a !! Z.to_nat (wrap (index + 1))) as [x |] eqn:Hx; [| done].
  simpl in Hrun.
  destruct ((0 <=? index) && (index <? Z.of_nat (length a))) eqn:Hset;
    [| done].
  apply andb_true_iff in Hset as [Hlow' Hhigh'].
  apply Z.leb_le in Hlow'. apply Z.ltb_lt in Hhigh'.
  injection Hrun as <-.
  replace ((0 <=? wrap (index + 1))
           && (wrap (index + 1) <? Z.of_nat (length a + length beyond)))
    with true
    by (symmetry; apply andb_true_iff;
        split; [apply Z.leb_le | apply Z.ltb_lt]; lia).
  rewrite lookup_app_l, Hx by lia. simpl.
  replace ((0 <=? index) && (index <? Z.of_nat (length a + length beyond)))
    with true
    by (symmetry; apply andb_true_iff;
        split; [apply Z.leb_le | apply Z.ltb_lt]; lia).
  by rewrite insert_app_l by lia.
Qed.

Lemma move_forward_each_app (indices : list Z) a a' (beyond : list T) :
  for_each indices move_forward a = Ok a' →
  for_each indices move_forward (a ++ beyond) = Ok (a' ++ beyond).
Proof.
  revert a. induction indices as [| index rest IH]; intros a Hrun;
    simpl in Hrun |- *.
  - by injection Hrun as <-.
  - destruct (move_forward index a) as [a1 | |] eqn:Hstep; try done.
    rewrite (move_forward_app index a a1 beyond Hstep). simpl.
    by apply IH.
Qed.

(** Where [pop_front] stays inside the array, the value that follows
    the array is not read. *)
Lemma pop_front_reading_agrees (beyond : T) d d' :
  pop_front CONTAINER_SAFETY d = Ok d' →
  pop_front_reading CONTAINER_SAFETY beyond d = Ok d'.
Proof.
  unfold pop_front, pop_front_reading, for_up.
  destruct (CONTAINER_SAFETY && empty d); [done |].
  intros Hrun. apply bind_Ok in Hrun as (a & Hshift & Hrun).
  injection Hrun as <-.
  rewrite (move_forward_each_app _ _ a [beyond] Hshift). simpl.
  apply (for_each_preserves (λ a0, length a0 = length (elements d)))
    in Hshift; [| | done].
  2: { intros index s0 s1 Hs0 Hs1. apply move_forward_length in Hs1.
       congruence. }
  by rewrite <- Hshift, take_app_length.
Qed.

(** [pop_front] through the read past the end: whatever the read
    yields, the call returns with one element fewer. *)
Lemma pop_front_reading_returns (beyond : T) d :
  well_formed capacity d → 0 < size d →
  ∃ d', pop_front_reading CONTAINER_SAFETY beyond d = Ok d'
        ∧ well_formed capacity d' ∧ size d' = size d - 1.
Proof.
  intros (Hlen & Hcount) Hsize. unfold size in Hsize.
  unfold pop_front_reading, empty, for_up.
  replace (element_count d =? 0) with false by lia.
  rewrite andb_false_r.
  destruct (for_each_returns (λ a, Z.of_nat (length a) = capacity + 1)
              (λ index, 0 ≤ index < capacity)
              (seqZ 0 (element_count d - 0))
              move_forward (elements d ++ [beyond])) as (a & -> & Ha).
  - apply Forall_seqZ. lia.
  - intros index a Hindex Ha. unfold move_forward.
    rewrite wrap_small by lia.
    destruct (array_get_in_bounds a (index + 1)) as [x ->]; [lia |].
    simpl. rewrite array_set_Ok by lia. eexists. split; [done |].
    by rewrite length_insert.
  - rewrite length_app. simpl. lia.
  - simpl. eexists. split; [done |].
    unfold well_formed, size; simpl.
    rewrite length_take, wrap_small by lia. lia.
Qed.

Lemma linear_reachable_well_formed d :
  reachable capacity CONTAINER_SAFETY d → well_formed capacity d.
Proof.
  induction 1 as [storage Hlen | op d d' _ IH Hpre Hrun
                 | beyond d d' _ IH Hpre Hrun].
  - unfold well_formed, init; simpl. repeat split; lia.
  - by eapply linear_run_well_formed.
  - destruct (pop_front_reading_returns beyond d IH Hpre)
      as (d'' & Hrun' & Hwf & _).
    congruence.
Qed.

(** A well-formed deque holds some sequence of elements. *)
Lemma linear_well_formed_models d :
  well_formed capacity d → ∃ l, models capacity d l.
Proof.
  intros (Hlen & Hcount).
  destruct (tabulate_lookups (λ i, elements d !! i)
              (Z.to_nat (element_count d))) as (l & Hl & Hslots).
  { intros i Hi. apply lookup_lt_is_Some_2. lia. }
  exists l. unfold models. repeat split; (done || lia).
Qed.

(** *** Every call made under its precondition runs to the end of its
    body, except [pop_front] on a full deque *)

Lemma move_back_returns (index : Z) a :
  1 ≤ index < capacity → Z.of_nat (length a) = capacity →
  ∃ a', move_back index a = Ok a' ∧ Z.of_nat (length a') = capacity.
Proof.
  intros Hindex Hlen. unfold move_back. rewrite wrap_small by lia.
  destruct (array_get_in_bounds a (index - 1)) as [x ->]; [lia |].
  simpl. rewrite array_set_Ok by lia. eexists. split; [done |].
  by rewrite length_insert.
Qed.

Lemma move_forward_returns (index : Z) a :
  0 ≤ index < capacity - 1 → Z.of_nat (length a) = capacity →
  ∃ a', move_forward index a = Ok a' ∧ Z.of_nat (length a') = capacity.
Proof.
  intros Hindex Hlen. unfold move_forward. rewrite wrap_small by lia.
  destruct (array_get_in_bounds a (index + 1)) as [x ->]; [lia |].
  simpl. rewrite array_set_Ok by lia. eexists. split; [done |].
  by rewrite length_insert.
Qed.

Lemma read_argument_returns a (value : argument T) d :
  Z.of_nat (length a) = capacity → designates value d →
  element_count d ≤ capacity →
  ∃ x, read_argument a value = Ok x.
Proof.
  intros Hlen Hvalue Hcount.
  destruct value as [v | index]; simpl; [by eexists |].
  simpl in Hvalue. unfold size in Hvalue.
  apply array_get_in_bounds. lia.
Qed.

Lemma linear_erase_loop_returns (fuel : nat) a
    (current next end_iterator : Z) :
  Z.of_nat (length a) = capacity →
  0 ≤ current < next → next ≤ end_iterator ≤ capacity →
  (Z.to_nat (end_iterator - next) < fuel)%nat →
  ∃ a', erase_loop fuel a current next end_iterator = Ok a'.
Proof.
  revert a current next. induction fuel as [| fuel IH];
    intros a current next Hlen Hcurrent Hnext Hfuel; [lia |].
  simpl. destruct (Z.eqb_spec next end_iterator) as [-> | Hne]; [by eexists |].
  destruct (array_get_in_bounds a next) as [x ->]; [lia |].
  simpl. rewrite array_set_Ok by lia. simpl.
  apply IH; rewrite ?length_insert; lia.
Qed.

Lemma linear_clear_returns d :
  well_formed capacity d →
  ∃ slots, clear_destroys d = Ok slots ∧ clear d = Ok (mk (elements d) 0).
Proof.
  intros (Hlen & Hcount). unfold clear, clear_destroys, for_up.
  destruct (for_each_returns (λ _ : list Z, True)
              (λ index, 0 ≤ index < element_count d)
              (seqZ (get_begin_index d) (get_end_index d - get_begin_index d))
              (destroy_slot d) []) as (slots & -> & _); [| | done |].
  - apply Forall_seqZ. unfold get_begin_index, get_end_index. lia.
  - intros index slots Hindex _. unfold destroy_slot.
    destruct (array_get_in_bounds (elements d) index) as [x ->]; [lia |].
    by eexists.
  - simpl. by eexists.
Qed.

Lemma linear_run_returns (op : operation T (t T)) d :
  well_formed capacity d → precondition capacity op d →
  (op = PopFront → size d < capacity) →
  ∃ d', run capacity CONTAINER_SAFETY op d = Ok d'.
Proof.
  intros (Hlen & Hcount) Hpre Hpop.
  destruct op; simpl in Hpre |- *; unfold max_size, size in Hpre.
  - destruct Hpre as [Hpre Hvalue].
    destruct (read_argument_returns (elements d) value d)
      as [x ->]; [done | done | lia |]. simpl.
    unfold push_back, max_size, size.
    replace (capacity <=? element_count d) with false by lia.
    rewrite andb_false_r, array_set_Ok by lia. by eexists.
  - destruct Hpre as [Hpre Hvalue].
    destruct (read_argument_returns (elements d) value d)
      as [x ->]; [done | done | lia |]. simpl.
    unfold emplace_back, max_size, size.
    replace (capacity <=? element_count d) with false by lia.
    rewrite andb_false_r, array_set_Ok by lia. by eexists.
  - destruct Hpre as [Hpre Hvalue].
    unfold push_front, max_size, size, for_down.
    replace (capacity <=? element_count d) with false by lia.
    rewrite andb_false_r.
    destruct (for_each_returns (λ a, Z.of_nat (length a) = capacity)
                (λ index, 1 ≤ index < capacity)
                (reverse (seqZ (0 + 1) (element_count d - 0)))
                move_back (elements d)) as (a & -> & Ha); [| | done |].
    + apply Forall_reverse, Forall_seqZ. lia.
    + intros index a. apply move_back_returns.
    + simpl.
      destruct (read_argument_returns a value d)
        as [x ->]; [done | done | lia |]. simpl.
      rewrite array_set_Ok by lia. by eexists.
  - destruct Hpre as [Hpre Hvalue].
    unfold emplace_front, max_size, size, for_down.
    replace (capacity <=? element_count d) with false by lia.
    rewrite andb_false_r.
    destruct (for_each_returns (λ a, Z.of_nat (length a) = capacity)
                (λ index, 1 ≤ index < capacity)
                (reverse (seqZ (0 + 1) (element_count d - 0)))
                move_back (elements d)) as (a & -> & Ha); [| | done |].
    + apply Forall_reverse, Forall_seqZ. lia.
    + intros index a. apply move_back_returns.
    + simpl.
      destruct (read_argument_returns a value d)
        as [x ->]; [done | done | lia |]. simpl.
      rewrite array_set_Ok by lia. by eexists.
  - unfold pop_back, empty.
    replace (element_count d =? 0) with false by lia.
    rewrite andb_false_r, wrap_small by lia.
    destruct (array_get_in_bounds (elements d) (element_count d - 1))
      as [x ->]; [lia |].
    by eexists.
  - specialize (Hpop eq_refl). unfold size in Hpop.
    unfold pop_front, empty, for_up.
    replace (element_count d =? 0) with false by lia.
    rewrite andb_false_r.
    destruct (for_each_returns (λ a, Z.of_nat (length a) = capacity)
                (λ index, 0 ≤ index < capacity - 1)
                (seqZ 0 (element_count d - 0))
                move_forward (elements d)) as (a & -> & Ha); [| | done |].
    + apply Forall_seqZ. lia.
    + intros index a. apply move_forward_returns.
    + by eexists.
  - unfold front, get_first_index. rewrite slot_ref_Ok by lia. by eexists.
  - unfold back, get_last_index.
    rewrite wrap_small, slot_ref_Ok by lia. by eexists.
  - unfold at_index.
    destruct (array_get_in_bounds (elements d) index) as [x ->]; [lia |].
    by eexists.
  - unfold erase, empty, end_, get_end_index.
    replace (element_count d =? 0) with false by lia.
    replace (element_iterator =? element_count d) with false by lia.
    rewrite !andb_false_r.
    destruct (linear_erase_loop_returns LOOP_FUEL (elements d)
                element_iterator (element_iterator + 1) (element_count d))
      as [a ->]; [done | lia | lia | | by eexists].
    pose proof loop_fuel_value. lia.
  - destruct (linear_clear_returns d) as (slots & _ & ->); [done |].
    by eexists.
  - unfold swap. rewrite swap_arrays_exchanges by done. by eexists.
Qed.
End Facts.

End DequeFacts.

(** * The stated properties *)

Section CircularDequeClaims.
Import CircularDeque CircularDequeSpec CircularDequeFacts.

(** C1. Starting from an empty [CircularDeque<T, N>], pushing [k]
    values at the back and then [j] values at the front, with
    [k + j <= N], makes front-to-back iteration yield the front-pushed
    values in reverse insertion order followed by the back-pushed
    values in insertion order, and [size()] return [k + j]. In
    particular scenario S1 on a [CircularDeque<char, 16>] iterates as
    "hello world" with [size() == 11]. *)
Theorem C1_mixed_end_insertion :
  (∀ (T : Type) (capacity : Z) (CONTAINER_SAFETY : bool)
     (storage back_values front_values : list T),
     0 < capacity → 2 * capacity ≤ SIZE_MODULUS →
     Z.of_nat (length storage) = capacity →
     Z.of_nat (length back_values) + Z.of_nat (length front_values)
       ≤ capacity →
     ∃ d,
       (d1 ← call_each (push_back capacity CONTAINER_SAFETY) back_values
                       (init storage);
        call_each (push_front capacity CONTAINER_SAFETY) front_values d1)
       = Ok d
       ∧ contents capacity d = Ok (reverse front_values ++ back_values)
       ∧ size d
         = Z.of_nat (length back_values) + Z.of_nat (length front_values))
  ∧ (∀ CONTAINER_SAFETY : bool,
       ∃ d, scenario_S1 CONTAINER_SAFETY = Ok d
            ∧ contents 16 d = Ok (list_ascii_of_string "hello world")
            ∧ size d = 11).
Proof.
  split.
  - intros T capacity safety storage bs fs Hpos Hfit Hlen Hroom.
    destruct (call_each_push_back capacity safety Hpos Hfit bs
                (init storage) []) as (d1 & -> & Hm1);
      [by apply (models_init capacity safety Hpos Hfit) | simpl; lia |].
    simpl in Hm1 |- *.
    destruct (call_each_push_front capacity safety Hpos Hfit fs d1 bs Hm1)
      as (d & -> & Hm); [lia |].
    exists d. split; [done |]. split.
    + by apply (contents_models capacity safety Hpos Hfit).
    + rewrite (size_models capacity safety Hpos Hfit d _ Hm),
        length_app, length_reverse. lia.
  - intros []; (eexists; split; [evaluate |]); evaluate_each.
Qed.

Lemma C1_mixed_end_insertion_witness :
  ∃ d,
    (d1 ← call_each (push_back 16 false)
                    (list_ascii_of_string "world")
                    (init (replicate 16 zero));
     call_each (push_front 16 false) (list_ascii_of_string " olleh") d1)
    = Ok d
    ∧ contents 16 d
      = Ok (reverse (list_ascii_of_string " olleh")
            ++ list_ascii_of_string "world")
    ∧ size d = Z.of_nat 5 + Z.of_nat 6.
Proof.
  apply (proj1 C1_mixed_end_insertion ascii 16 false
           (replicate 16 zero) (list_ascii_of_string "world")
           (list_ascii_of_string " olleh")).
  - lia.
  - unfold SIZE_MODULUS. lia.
  - reflexivity.
  - simpl. lia.
Defined.

(** C10. [CircularDeque<T, N>::data()] always designates physical slot
    0 of the backing array, whatever the head position; so in every
    reachable non-empty state whose head is not 0 the pointer differs
    from the address of [front()], and such a state is reached by one
    [push_front] on an empty deque (of capacity at least 2). *)
Theorem C10_data_ignores_head (T : Type) (capacity : Z)
    (CONTAINER_SAFETY : bool) :
  0 < capacity → 2 * capacity ≤ SIZE_MODULUS →
  (∀ d : t T, reachable capacity CONTAINER_SAFETY d → data d = Ok 0)
  ∧ (∀ d : t T, reachable capacity CONTAINER_SAFETY d →
       empty d = false → first_index d ≠ 0 →
       front d = Ok (first_index d) ∧ front d ≠ data d)
  ∧ (∀ (storage : list T) (v : T),
       Z.of_nat (length storage) = capacity → 2 ≤ capacity →
       ∃ d, push_front capacity CONTAINER_SAFETY v (init storage) = Ok d
            ∧ reachable capacity CONTAINER_SAFETY d
            ∧ empty d = false
            ∧ contents capacity d = Ok [v]
            ∧ first_index d = capacity - 1
            ∧ data d = Ok 0
            ∧ front d = Ok (capacity - 1)).
Proof.
  intros Hpos Hfit.
  pose proof (reachable_well_formed (T:=T) capacity CONTAINER_SAFETY
                Hpos Hfit) as Hwf.
  assert (Hdata : ∀ d : t T,
            reachable capacity CONTAINER_SAFETY d → data d = Ok 0).
  { intros d Hreach. apply Hwf in Hreach as (Hlen & _).
    unfold data. apply slot_ref_Ok. lia. }
  assert (Hfront : ∀ d : t T, reachable capacity CONTAINER_SAFETY d →
            front d = Ok (first_index d)).
  { intros d Hreach. apply Hwf in Hreach as (Hlen & _ & Hhead).
    unfold front, get_first_index. apply slot_ref_Ok. lia. }
  split; [done |]. split.
  - intros d Hreach _ Hhead. rewrite (Hfront d Hreach), (Hdata d Hreach).
    split; [done | congruence].
  - intros storage v Hlen Hcap.
    destruct (push_front_models capacity CONTAINER_SAFETY Hpos Hfit
                (init storage) [] v) as (d & Hpush & Hm);
      [by apply (models_init capacity CONTAINER_SAFETY Hpos Hfit)
      | simpl; lia |].
    exists d.
    assert (reachable capacity CONTAINER_SAFETY d) as Hreach.
    { apply (reachable_run capacity CONTAINER_SAFETY (PushFront (Value v))
               (init storage)); [by apply reachable_init | | done].
      simpl. unfold size, max_size. simpl. lia. }
    assert (first_index d = capacity - 1) as Hhead.
    { revert Hpush. unfold push_front, max_size, size, init. simpl.
      replace (capacity <=? 0) with false by lia.
      rewrite andb_false_r. unfold get_previous_index.
      rewrite (wrap_small (capacity - 1)) by lia.
      rewrite !wrap_small by lia.
      rewrite (Z.mod_small (0 + (capacity - 1))) by lia.
      rewrite array_set_Ok by lia. simpl. by intros [= <-]. }
    split; [done |]. split; [done |]. split.
    { unfold empty. destruct Hm as (_ & -> & _). done. }
    split; [by apply (contents_models capacity CONTAINER_SAFETY Hpos Hfit) |].
    split; [done |]. split; [by apply Hdata |].
    rewrite (Hfront d Hreach). by rewrite Hhead.
Qed.

Lemma C10_data_ignores_head_witness :
  ∃ d, push_front 16 false "h"%char (init (replicate 16 zero)) = Ok d
       ∧ reachable 16 false d
       ∧ empty d = false
       ∧ contents 16 d = Ok ["h"%char]
       ∧ first_index d = 16 - 1
       ∧ data d = Ok 0
       ∧ front d = Ok (16 - 1).
Proof.
  apply (C10_data_ignores_head ascii 16 false).
  - lia.
  - unfold SIZE_MODULUS. lia.
  - reflexivity.
  - lia.
Defined.
End CircularDequeClaims.

Section CodeDefects.

(** C3. For the region array handles [ProgmemArray<T, N>] and
    [EepromArray<T, N>], [size()] and [max_size()] return [N], and
    [empty()] is claimed to hold exactly when [N == 0]. The code returns
    [capacity > 0]: a 12-element array reports [empty() == true] and a
    0-element one reports [false]. *)
Theorem C3_region_array_empty_is_inverted :
  ∀ (p : ProgmemArray.t) (e : EepromArray.t),
    ProgmemArray.size 12 p = 12 ∧ ProgmemArray.max_size 12 p = 12
    ∧ EepromArray.size 12 e = 12 ∧ EepromArray.max_size 12 e = 12
    ∧ ProgmemArray.empty 12 p = true ∧ EepromArray.empty 12 e = true
    ∧ ProgmemArray.empty 0 p = false ∧ EepromArray.empty 0 e = false.
Proof. intros p e. repeat split. Qed.

(** C5. [a.swap(b)] is claimed to exchange the observable contents of
    two deques. The code swaps the backing arrays only: each deque keeps
    its own element count (and head). Swapping a one-element deque with
    an empty one leaves the sizes 1 and 0 in place, so the first deque
    now shows one element of the other's unused storage and the pushed
    element is no longer visible in either. *)
Theorem C5_swap_keeps_own_count :
  (∀ (T : Type) (capacity : Z) (a b : Deque.t T),
     Z.of_nat (length (Deque.elements a)) = capacity →
     Z.of_nat (length (Deque.elements b)) = capacity →
     Deque.swap capacity a b
     = Ok (Deque.mk (Deque.elements b) (Deque.element_count a),
           Deque.mk (Deque.elements a) (Deque.element_count b)))
  ∧ (∀ (T : Type) (capacity : Z) (a b : CircularDeque.t T),
       Z.of_nat (length (CircularDeque.elements a)) = capacity →
       Z.of_nat (length (CircularDeque.elements b)) = capacity →
       CircularDeque.swap capacity a b
       = Ok (CircularDeque.mk (CircularDeque.elements b)
               (CircularDeque.element_count a) (CircularDeque.first_index a),
             CircularDeque.mk (CircularDeque.elements a)
               (CircularDeque.element_count b) (CircularDeque.first_index b)))
  ∧ (let b := Deque.init (replicate 4 zero) in
     ∃ a a' b',
       Deque.push_back 4 false "x"%char (Deque.init (replicate 4 zero)) = Ok a
       ∧ Deque.contents a = Ok ["x"%char] ∧ Deque.contents b = Ok []
       ∧ Deque.swap 4 a b = Ok (a', b')
       ∧ Deque.size a' = 1 ∧ Deque.contents a' = Ok [zero]
       ∧ Deque.size b' = 0 ∧ Deque.contents b' = Ok [])
  ∧ (let b := CircularDeque.init (replicate 4 zero) in
     ∃ a a' b',
       CircularDeque.push_back 4 false "x"%char
         (CircularDeque.init (replicate 4 zero)) = Ok a
       ∧ CircularDeque.contents 4 a = Ok ["x"%char]
       ∧ CircularDeque.contents 4 b = Ok []
       ∧ CircularDeque.swap 4 a b = Ok (a', b')
       ∧ CircularDeque.size a' = 1
       ∧ CircularDeque.contents 4 a' = Ok [zero]
       ∧ CircularDeque.size b' = 0
       ∧ CircularDeque.contents 4 b' = Ok []).
Proof.
  split; [| split; [| split]].
  - intros T capacity a b Ha Hb. unfold Deque.swap.
    by rewrite swap_arrays_exchanges.
  - intros T capacity a b Ha Hb. unfold CircularDeque.swap.
    by rewrite swap_arrays_exchanges.
  - simpl; do 3 eexists; (split; [evaluate |]);
      do 2 (split; [evaluate |]); (split; [evaluate |]); evaluate_each.
  - simpl; do 3 eexists; (split; [evaluate |]);
      do 2 (split; [evaluate |]); (split; [evaluate |]); evaluate_each.
Qed.

Lemma C5_swap_keeps_own_count_witness :
  let a := Deque.mk ("x"%char :: replicate 3 zero) 1 in
  let b := Deque.init (replicate 4 zero) in
  Deque.swap 4 a b
  = Ok (Deque.mk (Deque.elements b) (Deque.element_count a),
        Deque.mk (Deque.elements a) (Deque.element_count b)).
Proof.
  apply (proj1 C5_swap_keeps_own_count ascii 4); reflexivity.
Defined.

(** The full [Deque<char, 2>] built by two [push_back] calls:
    [pop_front()] reads [elements[2]]. *)
Example pop_front_on_full_deque :
  ∃ d, deque_full = Ok d
       ∧ Deque.size d = Deque.max_size 2 d
       ∧ Deque.pop_front false d = OutOfBounds 2.
Proof. eexists. split; [evaluate |]. evaluate_each. Qed.

(** C6. [Deque::pop_front()] on a deque with [0 < size() <= N] is
    claimed to touch only slots of the [N]-element array. On a full
    deque the last iteration of its loop reads [elements[N]]; on a
    non-empty deque that is not full the call stays in bounds, the size
    drops by one and every element moves one place to the front. *)
Theorem C6_pop_front_reads_past_the_end (T : Type) (capacity : Z)
    (CONTAINER_SAFETY : bool) (d : Deque.t T) (v : T) (l : list T) :
  0 < capacity → capacity < SIZE_MODULUS →
  DequeSpec.models capacity d (v :: l) →
  (Z.of_nat (length (v :: l)) = capacity →
   Deque.pop_front CONTAINER_SAFETY d = OutOfBounds capacity)
  ∧ (Z.of_nat (length (v :: l)) < capacity →
     ∃ d', Deque.pop_front CONTAINER_SAFETY d = Ok d'
           ∧ DequeSpec.models capacity d' l).
Proof.
  intros Hpos Hfit Hm. split; intros Hsize.
  - by apply (DequeFacts.pop_front_full capacity CONTAINER_SAFETY Hpos Hfit
                d (v :: l)).
  - by apply (DequeFacts.linear_pop_front_models capacity CONTAINER_SAFETY Hpos Hfit
                d l v).
Qed.

Lemma C6_pop_front_reads_past_the_end_witness :
  let d := Deque.mk (list_ascii_of_string "ab") 2 in
  (Z.of_nat 2 = 2 → Deque.pop_front false d = OutOfBounds 2)
  ∧ (Z.of_nat 2 < 2 →
     ∃ d', Deque.pop_front false d = Ok d'
           ∧ DequeSpec.models 2 d' ["b"%char]).
Proof.
  apply (C6_pop_front_reads_past_the_end ascii 2 false
           (Deque.mk (list_ascii_of_string "ab") 2) "a"%char ["b"%char]).
  - lia.
  - unfold SIZE_MODULUS. lia.
  - unfold DequeSpec.models. simpl.
    split; [reflexivity |]. split; [reflexivity |]. split; [lia |].
    intros [| [| i]] x Hx; simpl in Hx |- *;
      [exact Hx | exact Hx | discriminate].
Defined.

(** C7. [CircularDeque::clear()] is claimed to destroy exactly the live
    elements, front to back. In every reachable state the call does
    return, with [count = 0] and [head = 0]; but its loop runs a
    physical index from the head slot to the end slot and destroys at
    [adjust_index(index)], which adds the head a second time:
    - with one live element in slot 1 it destroys slot 2;
    - with one live element in slot 3 of 4 the end slot is 0, so the
      index only meets it after wrapping around [size_t]: 65533
      destructor calls, the first at slot 2;
    - on a full deque with head 0 the begin and end slots coincide and
      nothing is destroyed. *)
Theorem C7_clear_walks_physical_indices :
  (∀ (T : Type) (capacity : Z) (CONTAINER_SAFETY : bool)
     (d : CircularDeque.t T),
     0 < capacity → 2 * capacity ≤ SIZE_MODULUS →
     CircularDequeSpec.reachable capacity CONTAINER_SAFETY d →
     ∃ slots, CircularDeque.clear_destroys capacity d = Ok slots
              ∧ CircularDeque.clear capacity d
                = Ok (CircularDeque.mk (CircularDeque.elements d) 0 0))
  ∧ (∃ d, circular_head_1 = Ok d
          ∧ CircularDeque.live_slots 4 d = [1]
          ∧ CircularDeque.clear_destroys 4 d = Ok [2])
  ∧ (∃ d, circular_head_3 = Ok d
          ∧ CircularDeque.live_slots 4 d = [3]
          ∧ (destroyed ← CircularDeque.clear_destroys 4 d;
             Ok (Z.of_nat (length destroyed), take 3 destroyed))
            = Ok (65533, [2; 3; 0]))
  ∧ (∃ d, circular_full = Ok d
          ∧ CircularDeque.live_slots 4 d = [0; 1; 2; 3]
          ∧ CircularDeque.clear_destroys 4 d = Ok []).
Proof.
  split.
  - intros T capacity safety d Hpos Hfit Hreach.
    apply (CircularDequeFacts.reachable_well_formed capacity safety Hpos Hfit)
      in Hreach as (Hlen & _ & Hhead).
    by apply (CircularDequeFacts.clear_returns capacity safety Hpos Hfit).
  - split; [| split]; (eexists; split; [evaluate |]); evaluate_each.
Qed.

Lemma C7_clear_walks_physical_indices_witness :
  let d := CircularDeque.mk (replicate 3 zero ++ ["a"%char]) 1 3 in
  ∃ slots, CircularDeque.clear_destroys 4 d = Ok slots
           ∧ CircularDeque.clear 4 d
             = Ok (CircularDeque.mk (CircularDeque.elements d) 0 0).
Proof.
  apply (proj1 C7_clear_walks_physical_indices ascii 4 false).
  - lia.
  - unfold SIZE_MODULUS. lia.
  - apply (CircularDequeSpec.reachable_run 4 false
             (PushFront (Value "a"%char))
             (CircularDeque.init (replicate 4 zero))).
    + apply CircularDequeSpec.reachable_init. reflexivity.
    + simpl. unfold CircularDeque.size, CircularDeque.max_size. simpl. lia.
    + vm_compute. reflexivity.
Defined.
End CodeDefects.

Section SafetyFlag.

(** C9, as stated, fails for [back()]: the accessors [front()] and
    [back()] carry no CONTAINER_SAFETY guard (so the flag is not even a
    parameter of their model), and on an empty linear deque [back()]
    designates [elements[size_t(0 - 1)]], outside the array. *)
Lemma C9_back_on_empty_counterexample :
  let d := Deque.init (replicate 4 zero) in
  Deque.empty d = true
  ∧ Deque.back d = OutOfBounds 65535
  ∧ ¬ (∃ slot, Deque.back d = Ok slot).
Proof.
  simpl. split; [evaluate |]. split; [evaluate |].
  intros [slot Hslot]. vm_compute in Hslot. discriminate.
Qed.

(** C9, amended. With CONTAINER_SAFETY defined, [push_back],
    [push_front], [emplace_back] and [emplace_front] on a full deque,
    [pop_back], [pop_front] and [erase] on an empty deque, and [erase]
    of the end iterator return with the container's state unchanged;
    this holds for both deques and for every state, well formed or not.
    ([front()] and [back()] are not guarded.) *)
Theorem C9_guarded_calls_leave_state (T : Type) (capacity : Z) (v : T) :
  (∀ d : Deque.t T, capacity ≤ Deque.size d →
     Deque.push_back capacity true v d = Ok d
     ∧ (∀ value, Deque.push_front capacity true value d = Ok d)
     ∧ Deque.emplace_back capacity true v d = Ok (d, None)
     ∧ (∀ value, Deque.emplace_front capacity true value d = Ok (d, None)))
  ∧ (∀ d : Deque.t T, Deque.size d = 0 →
       Deque.pop_back true d = Ok d
       ∧ Deque.pop_front true d = Ok d
       ∧ ∀ it, Deque.erase true it d = Ok (Returns d))
  ∧ (∀ d : Deque.t T, Deque.erase true (Deque.end_ d) d = Ok (Returns d))
  ∧ (∀ d : CircularDeque.t T, capacity ≤ CircularDeque.size d →
       CircularDeque.push_back capacity true v d = Ok d
       ∧ CircularDeque.push_front capacity true v d = Ok d
       ∧ CircularDeque.emplace_back capacity true v d = Ok (d, None)
       ∧ CircularDeque.emplace_front capacity true v d = Ok (d, None))
  ∧ (∀ d : CircularDeque.t T, CircularDeque.size d = 0 →
       CircularDeque.pop_back capacity true d = Ok d
       ∧ CircularDeque.pop_front capacity true d = Ok d
       ∧ ∀ it, CircularDeque.erase capacity true it d = Ok (Returns d))
  ∧ (∀ d : CircularDeque.t T,
       CircularDeque.erase capacity true (CircularDeque.end_ d) d
       = Ok (Returns d)).
Proof.
  repeat match goal with |- _ ∧ _ => split end.
  - intros d Hfull.
    unfold Deque.push_back, Deque.push_front, Deque.emplace_back,
      Deque.emplace_front, Deque.max_size.
    replace (capacity <=? Deque.size d) with true by lia. done.
  - intros d Hempty.
    unfold Deque.pop_back, Deque.pop_front, Deque.erase, Deque.empty.
    unfold Deque.size in Hempty. rewrite Hempty. done.
  - intros d. unfold Deque.erase. rewrite Z.eqb_refl.
    by destruct (Deque.empty d).
  - intros d Hfull.
    unfold CircularDeque.push_back, CircularDeque.push_front,
      CircularDeque.emplace_back, CircularDeque.emplace_front,
      CircularDeque.max_size.
    replace (capacity <=? CircularDeque.size d) with true by lia. done.
  - intros d Hempty.
    unfold CircularDeque.pop_back, CircularDeque.pop_front,
      CircularDeque.erase, CircularDeque.empty.
    unfold CircularDeque.size in Hempty. rewrite Hempty. done.
  - intros d. unfold CircularDeque.erase. rewrite Z.eqb_refl.
    by destruct (CircularDeque.empty d).
Qed.

Lemma C9_guarded_calls_leave_state_witness :
  let d := Deque.mk (list_ascii_of_string "ab") 2 in
  Deque.push_back 2 true "c"%char d = Ok d
  ∧ (∀ value, Deque.push_front 2 true value d = Ok d)
  ∧ Deque.emplace_back 2 true "c"%char d = Ok (d, None)
  ∧ (∀ value, Deque.emplace_front 2 true value d = Ok (d, None)).
Proof.
  apply (proj1 (C9_guarded_calls_leave_state ascii 2 "c"%char)).
  simpl. lia.
Defined.
End SafetyFlag.

Section Adapters.

(** C4, as stated, fails for [Queue]: [push] appends at the back and
    [pop] removes from the front, so on a queue holding "a" the calls
    [push('b'); pop()] leave it holding "b". *)
Lemma C4_queue_push_pop_counterexample :
  let ops := Deque_Container (T:=ascii) 4 false in
  ∃ q q',
    Queue.push (container_type:=ops) "a"%char
      (Queue.mk (Deque.init (replicate 4 zero))) = Ok q
    ∧ (q1 ← Queue.push (container_type:=ops) "b"%char q;
       Queue.pop (container_type:=ops) q1) = Ok q'
    ∧ Queue.size (container_type:=ops) q = 1
    ∧ Queue.size (container_type:=ops) q' = 1
    ∧ Deque.contents (Queue.container q) = Ok ["a"%char]
    ∧ Deque.contents (Queue.container q') = Ok ["b"%char]
    ∧ Deque.contents (Queue.container q')
      ≠ Deque.contents (Queue.container q).
Proof.
  simpl. do 2 eexists. split; [evaluate |]. split; [evaluate |].
  do 4 (split; [evaluate |]). vm_compute. discriminate.
Qed.

(** [push(v); pop()] through either adapter, on a container that holds
    [l] and is not full. *)
Lemma push_pop_on_model (T : Type) (capacity : Z)
    (CONTAINER_SAFETY : bool) (v : T) (l : list T) :
  0 < capacity → 2 * capacity ≤ SIZE_MODULUS →
  Z.of_nat (length l) < capacity →
  let linear := Deque_Container (T:=T) capacity CONTAINER_SAFETY in
  let circular := CircularDeque_Container (T:=T) capacity CONTAINER_SAFETY in
  (∀ d, DequeSpec.models capacity d l →
     ∃ s', (s ← Stack.push (container_type:=linear) v (Stack.mk d);
            Stack.pop (container_type:=linear) s) = Ok s'
           ∧ Stack.size (container_type:=linear) s' = Deque.size d
           ∧ Deque.contents (Stack.container s') = Ok l
           ∧ Deque.contents d = Ok l)
  ∧ (∀ d, CircularDequeSpec.models capacity d l →
       ∃ s', (s ← Stack.push (container_type:=circular) v (Stack.mk d);
              Stack.pop (container_type:=circular) s) = Ok s'
             ∧ Stack.size (container_type:=circular) s'
               = CircularDeque.size d
             ∧ CircularDeque.contents capacity (Stack.container s') = Ok l
             ∧ CircularDeque.contents capacity d = Ok l)
  ∧ (∀ d, CircularDequeSpec.models capacity d l →
       ∃ q', (q ← Queue.push (container_type:=circular) v (Queue.mk d);
              Queue.pop (container_type:=circular) q) = Ok q'
             ∧ Queue.size (container_type:=circular) q'
               = CircularDeque.size d
             ∧ CircularDeque.contents capacity (Queue.container q')
               = Ok (drop 1 (l ++ [v]))
             ∧ CircularDeque.contents capacity d = Ok l)
  ∧ (∀ d, DequeSpec.models capacity d l →
       Z.of_nat (length l) + 1 < capacity →
       ∃ q', (q ← Queue.push (container_type:=linear) v (Queue.mk d);
              Queue.pop (container_type:=linear) q) = Ok q'
             ∧ Queue.size (container_type:=linear) q' = Deque.size d
             ∧ Deque.contents (Queue.container q') = Ok (drop 1 (l ++ [v]))
             ∧ Deque.contents d = Ok l).
Proof.
  intros Hpos Hfit Hroom linear circular.
  assert (Hfit' : capacity < SIZE_MODULUS) by lia.
  assert (Hsnoc : ∃ x l', l ++ [v] = x :: l' ∧ length l' = length l).
  { destruct l as [| x l']; simpl; eauto.
    exists x, (l' ++ [v]). rewrite length_app. simpl. split; [done | lia]. }
  destruct Hsnoc as (x & l' & Hsnoc & Hlen').
  pose proof (DequeFacts.linear_push_back_models (T:=T) capacity CONTAINER_SAFETY
                Hpos Hfit') as Hpush_l.
  pose proof (DequeFacts.linear_pop_back_models (T:=T) capacity CONTAINER_SAFETY
                Hpos Hfit') as Hpop_back_l.
  pose proof (DequeFacts.linear_pop_front_models (T:=T) capacity CONTAINER_SAFETY
                Hpos Hfit') as Hpop_front_l.
  pose proof (DequeFacts.linear_size_models (T:=T) capacity CONTAINER_SAFETY
                Hpos Hfit') as Hsize_l.
  pose proof (DequeFacts.linear_contents_models (T:=T) capacity CONTAINER_SAFETY
                Hpos Hfit') as Hcontents_l.
  pose proof (CircularDequeFacts.push_back_models (T:=T) capacity CONTAINER_SAFETY
                Hpos Hfit) as Hpush_c.
  pose proof (CircularDequeFacts.pop_back_models (T:=T) capacity CONTAINER_SAFETY
                Hpos Hfit) as Hpop_back_c.
  pose proof (CircularDequeFacts.pop_front_models (T:=T) capacity CONTAINER_SAFETY
                Hpos Hfit) as Hpop_front_c.
  pose proof (CircularDequeFacts.size_models (T:=T) capacity CONTAINER_SAFETY
                Hpos Hfit) as Hsize_c.
  pose proof (CircularDequeFacts.contents_models (T:=T) capacity CONTAINER_SAFETY
                Hpos Hfit) as Hcontents_c.
  repeat match goal with |- _ ∧ _ => split end.
  - intros d Hm.
    destruct (Hpush_l d l v Hm Hroom) as (d1 & Hpush & Hm1).
    destruct (Hpop_back_l d1 l v Hm1) as (d2 & Hpop & Hm2).
    exists (Stack.mk d2). unfold Stack.push, Stack.pop, Stack.size. simpl.
    rewrite Hpush. simpl. rewrite Hpop. simpl.
    rewrite (Hsize_l d l Hm), (Hsize_l d2 l Hm2).
    rewrite (Hcontents_l d l Hm), (Hcontents_l d2 l Hm2). done.
  - intros d Hm.
    destruct (Hpush_c d l v Hm Hroom) as (d1 & Hpush & Hm1).
    destruct (Hpop_back_c d1 l v Hm1) as (d2 & Hpop & Hm2).
    exists (Stack.mk d2). unfold Stack.push, Stack.pop, Stack.size. simpl.
    rewrite Hpush. simpl. rewrite Hpop. simpl.
    rewrite (Hsize_c d l Hm), (Hsize_c d2 l Hm2).
    rewrite (Hcontents_c d l Hm), (Hcontents_c d2 l Hm2). done.
  - intros d Hm.
    destruct (Hpush_c d l v Hm Hroom) as (d1 & Hpush & Hm1).
    rewrite Hsnoc in Hm1 |- *.
    destruct (Hpop_front_c d1 l' x Hm1) as (d2 & Hpop & Hm2).
    exists (Queue.mk d2). unfold Queue.push, Queue.pop, Queue.size. simpl.
    rewrite Hpush. simpl. rewrite Hpop. simpl.
    rewrite (Hsize_c d l Hm), (Hsize_c d2 l' Hm2), Hlen'.
    rewrite (Hcontents_c d l Hm), (Hcontents_c d2 l' Hm2). done.
  - intros d Hm Hroom'.
    destruct (Hpush_l d l v Hm Hroom) as (d1 & Hpush & Hm1).
    rewrite Hsnoc in Hm1 |- *.
    destruct (Hpop_front_l d1 l' x Hm1) as (d2 & Hpop & Hm2);
      [simpl; lia |].
    exists (Queue.mk d2). unfold Queue.push, Queue.pop, Queue.size. simpl.
    rewrite Hpush. simpl. rewrite Hpop. simpl.
    rewrite (Hsize_l d l Hm), (Hsize_l d2 l' Hm2), Hlen'.
    rewrite (Hcontents_l d l Hm), (Hcontents_l d2 l' Hm2). done.
Qed.

(** C4, amended. In any reachable state of the wrapped container that
    is not full:
    - [Stack::push(v); Stack::pop()] leaves the container with the same
      size and the same element sequence, over either deque;
    - [Queue::push(v); Queue::pop()] leaves the size unchanged and the
      element sequence equal to the previous one without its first
      element, followed by [v]; over the linear deque this is stated
      for a deque that is still not full after the push. *)
Theorem C4_adapter_push_pop (T : Type) (capacity : Z)
    (CONTAINER_SAFETY : bool) (v : T) :
  0 < capacity → 2 * capacity ≤ SIZE_MODULUS →
  let linear := Deque_Container (T:=T) capacity CONTAINER_SAFETY in
  let circular := CircularDeque_Container (T:=T) capacity CONTAINER_SAFETY in
  (∀ d, DequeSpec.reachable capacity CONTAINER_SAFETY d →
     Deque.size d < Deque.max_size capacity d →
     ∃ l s', Deque.contents d = Ok l
       ∧ (s ← Stack.push (container_type:=linear) v (Stack.mk d);
          Stack.pop (container_type:=linear) s) = Ok s'
       ∧ Stack.size (container_type:=linear) s' = Deque.size d
       ∧ Deque.contents (Stack.container s') = Ok l)
  ∧ (∀ d, CircularDequeSpec.reachable capacity CONTAINER_SAFETY d →
       CircularDeque.size d < CircularDeque.max_size capacity d →
       ∃ l s', CircularDeque.contents capacity d = Ok l
         ∧ (s ← Stack.push (container_type:=circular) v (Stack.mk d);
            Stack.pop (container_type:=circular) s) = Ok s'
         ∧ Stack.size (container_type:=circular) s' = CircularDeque.size d
         ∧ CircularDeque.contents capacity (Stack.container s') = Ok l)
  ∧ (∀ d, CircularDequeSpec.reachable capacity CONTAINER_SAFETY d →
       CircularDeque.size d < CircularDeque.max_size capacity d →
       ∃ l q', CircularDeque.contents capacity d = Ok l
         ∧ (q ← Queue.push (container_type:=circular) v (Queue.mk d);
            Queue.pop (container_type:=circular) q) = Ok q'
         ∧ Queue.size (container_type:=circular) q' = CircularDeque.size d
         ∧ CircularDeque.contents capacity (Queue.container q')
           = Ok (drop 1 (l ++ [v])))
  ∧ (∀ d, DequeSpec.reachable capacity CONTAINER_SAFETY d →
       Deque.size d + 1 < Deque.max_size capacity d →
       ∃ l q', Deque.contents d = Ok l
         ∧ (q ← Queue.push (container_type:=linear) v (Queue.mk d);
            Queue.pop (container_type:=linear) q) = Ok q'
         ∧ Queue.size (container_type:=linear) q' = Deque.size d
         ∧ Deque.contents (Queue.container q') = Ok (drop 1 (l ++ [v]))).
Proof.
  intros Hpos Hfit linear circular.
  assert (Hfit' : capacity < SIZE_MODULUS) by lia.
  assert (Hlinear : ∀ d : Deque.t T,
            DequeSpec.reachable capacity CONTAINER_SAFETY d →
            ∃ l, DequeSpec.models capacity d l
                 ∧ Deque.size d = Z.of_nat (length l)).
  { intros d Hreach.
    apply (DequeFacts.linear_reachable_well_formed capacity CONTAINER_SAFETY
             Hpos Hfit') in Hreach.
    apply (DequeFacts.linear_well_formed_models capacity CONTAINER_SAFETY
             Hpos Hfit') in Hreach as [l Hm].
    exists l. split; [done |].
    by apply (DequeFacts.linear_size_models capacity CONTAINER_SAFETY
                Hpos Hfit'). }
  assert (Hcircular : ∀ d : CircularDeque.t T,
            CircularDequeSpec.reachable capacity CONTAINER_SAFETY d →
            ∃ l, CircularDequeSpec.models capacity d l
                 ∧ CircularDeque.size d = Z.of_nat (length l)).
  { intros d Hreach.
    apply (CircularDequeFacts.reachable_well_formed capacity CONTAINER_SAFETY
             Hpos Hfit) in Hreach.
    apply (CircularDequeFacts.well_formed_models capacity CONTAINER_SAFETY
             Hpos Hfit) in Hreach as [l Hm].
    exists l. split; [done |].
    by apply (CircularDequeFacts.size_models capacity CONTAINER_SAFETY
                Hpos Hfit). }
  repeat match goal with |- _ ∧ _ => split end.
  - intros d Hreach Hroom. destruct (Hlinear d Hreach) as (l & Hm & Hsize).
    unfold Deque.max_size in Hroom.
    destruct (push_pop_on_model T capacity CONTAINER_SAFETY v l Hpos Hfit)
      as (Hstack & _); [lia |].
    destruct (Hstack d Hm) as (s' & ? & ? & ? & ?). by exists l, s'.
  - intros d Hreach Hroom. destruct (Hcircular d Hreach) as (l & Hm & Hsize).
    unfold CircularDeque.max_size in Hroom.
    destruct (push_pop_on_model T capacity CONTAINER_SAFETY v l Hpos Hfit)
      as (_ & Hstack & _); [lia |].
    destruct (Hstack d Hm) as (s' & ? & ? & ? & ?). by exists l, s'.
  - intros d Hreach Hroom. destruct (Hcircular d Hreach) as (l & Hm & Hsize).
    unfold CircularDeque.max_size in Hroom.
    destruct (push_pop_on_model T capacity CONTAINER_SAFETY v l Hpos Hfit)
      as (_ & _ & Hqueue & _); [lia |].
    destruct (Hqueue d Hm) as (q' & ? & ? & ? & ?). by exists l, q'.
  - intros d Hreach Hroom. destruct (Hlinear d Hreach) as (l & Hm & Hsize).
    unfold Deque.max_size in Hroom.
    destruct (push_pop_on_model T capacity CONTAINER_SAFETY v l Hpos Hfit)
      as (_ & _ & _ & Hqueue); [lia |].
    destruct (Hqueue d Hm) as (q' & ? & ? & ? & ?); [lia |]. by exists l, q'.
Qed.

Lemma C4_adapter_push_pop_witness :
  let linear := Deque_Container (T:=ascii) 4 false in
  let d := Deque.mk ("a"%char :: replicate 3 zero) 1 in
  ∃ l s', Deque.contents d = Ok l
    ∧ (s ← Stack.push (container_type:=linear) "b"%char (Stack.mk d);
       Stack.pop (container_type:=linear) s) = Ok s'
    ∧ Stack.size (container_type:=linear) s' = Deque.size d
    ∧ Deque.contents (Stack.container s') = Ok l.
Proof.
  apply (C4_adapter_push_pop ascii 4 false "b"%char).
  - lia.
  - unfold SIZE_MODULUS. lia.
  - apply (DequeSpec.reachable_run 4 false (PushBack (Value "a"%char))
             (Deque.init (replicate 4 zero))).
    + apply DequeSpec.reachable_init. reflexivity.
    + simpl. unfold Deque.size, Deque.max_size. simpl. lia.
    + vm_compute. reflexivity.
  - unfold Deque.size, Deque.max_size. simpl. lia.
Defined.
End Adapters.

Section Invariants.

(** C8. Starting from an empty deque, after any sequence of member
    calls each made with its documented precondition satisfied,
    [0 <= size() <= N] holds for [Deque<T, N>] and for
    [CircularDeque<T, N>] in every state reached, and in addition
    [0 <= head < N] holds whenever the circular deque is not empty.
    The states are there to be observed: in a reachable state every
    such call on the circular deque, and every such call on the linear
    deque other than [pop_front] on a full deque, runs to the end of
    its body and leaves the deque in a state ([erase], which has no
    [return] statement, returning no iterator). [pop_front] on a full
    linear deque reads [elements[N]]; whatever that read yields, the
    call then returns, with one element fewer, in a state that is
    reached in turn (and where [pop_front] stays inside the array, what
    lies behind the array makes no difference). *)
Theorem C8_size_and_head_invariant (T : Type) (capacity : Z)
    (CONTAINER_SAFETY : bool) :
  0 < capacity → 2 * capacity ≤ SIZE_MODULUS →
  (∀ d : Deque.t T,
     DequeSpec.reachable capacity CONTAINER_SAFETY d →
     0 ≤ Deque.size d ≤ Deque.max_size capacity d)
  ∧ (∀ d : CircularDeque.t T,
       CircularDequeSpec.reachable capacity CONTAINER_SAFETY d →
       0 ≤ CircularDeque.size d ≤ CircularDeque.max_size capacity d
       ∧ (CircularDeque.empty d = false →
          0 ≤ CircularDeque.first_index d < capacity))
  ∧ (∀ (d : CircularDeque.t T) op,
       CircularDequeSpec.reachable capacity CONTAINER_SAFETY d →
       CircularDequeSpec.precondition capacity op d →
       ∃ d', CircularDequeSpec.run capacity CONTAINER_SAFETY op d = Ok d')
  ∧ (∀ (d : Deque.t T) op,
       DequeSpec.reachable capacity CONTAINER_SAFETY d →
       DequeSpec.precondition capacity op d →
       (op = PopFront → Deque.size d < Deque.max_size capacity d) →
       ∃ d', DequeSpec.run capacity CONTAINER_SAFETY op d = Ok d')
  ∧ (∀ (d : Deque.t T) (beyond : T),
       DequeSpec.reachable capacity CONTAINER_SAFETY d →
       DequeSpec.precondition capacity PopFront d →
       Deque.size d = Deque.max_size capacity d →
       DequeSpec.run capacity CONTAINER_SAFETY PopFront d
       = OutOfBounds capacity
       ∧ ∃ d', Deque.pop_front_reading CONTAINER_SAFETY beyond d = Ok d'
           ∧ DequeSpec.reachable capacity CONTAINER_SAFETY d'
           ∧ Deque.size d' = Deque.size d - 1)
  ∧ (∀ (d d' : Deque.t T) (beyond : T),
       Deque.pop_front CONTAINER_SAFETY d = Ok d' →
       Deque.pop_front_reading CONTAINER_SAFETY beyond d = Ok d').
Proof.
  intros Hpos Hfit.
  assert (Hfit' : capacity < SIZE_MODULUS) by lia.
  pose proof (DequeFacts.linear_reachable_well_formed (T:=T) capacity
                CONTAINER_SAFETY Hpos Hfit') as Hlinear.
  pose proof (CircularDequeFacts.reachable_well_formed (T:=T) capacity
                CONTAINER_SAFETY Hpos Hfit) as Hcircular.
  split; [| split; [| split; [| split; [| split]]]].
  - intros d Hreach. by apply Hlinear in Hreach as (_ & Hcount).
  - intros d Hreach. by apply Hcircular in Hreach as (_ & Hcount & Hhead).
  - intros d op Hreach Hpre.
    apply (CircularDequeFacts.run_returns capacity CONTAINER_SAFETY Hpos Hfit);
      auto.
  - intros d op Hreach Hpre Hpop.
    apply (DequeFacts.linear_run_returns capacity CONTAINER_SAFETY Hpos Hfit');
      auto.
  - intros d beyond Hreach Hpre Hfull.
    pose proof (Hlinear d Hreach) as Hwf.
    destruct (DequeFacts.linear_well_formed_models capacity CONTAINER_SAFETY
                Hpos Hfit' d Hwf) as (l & Hm).
    split.
    + apply (DequeFacts.pop_front_full capacity CONTAINER_SAFETY Hpos Hfit'
               d l Hm).
      destruct Hm as (_ & Hcount & _).
      unfold Deque.size, Deque.max_size in Hfull. lia.
    + destruct (DequeFacts.pop_front_reading_returns capacity
                  CONTAINER_SAFETY Hpos Hfit' beyond d Hwf Hpre)
        as (d' & Hrun & _ & Hsize).
      exists d'. split; [done |]. split; [| done].
      by apply (DequeSpec.reachable_past_the_end capacity CONTAINER_SAFETY
                  beyond d d').
  - intros d d' beyond.
    apply (DequeFacts.pop_front_reading_agrees capacity CONTAINER_SAFETY
             Hpos Hfit').
Qed.

Lemma C8_size_and_head_invariant_witness :
  (let d := CircularDeque.mk (replicate 15 zero ++ ["h"%char]) 1 15 in
   0 ≤ CircularDeque.size d ≤ CircularDeque.max_size 16 d
   ∧ (CircularDeque.empty d = false → 0 ≤ CircularDeque.first_index d < 16))
  ∧ (let d := Deque.mk (list_ascii_of_string "ab") 2 in
     DequeSpec.run 2 false PopFront d = OutOfBounds 2
     ∧ ∃ d', Deque.pop_front_reading false "z"%char d = Ok d'
         ∧ DequeSpec.reachable 2 false d'
         ∧ Deque.size d' = Deque.size d - 1).
Proof.
  split.
  - apply (C8_size_and_head_invariant ascii 16 false).
    + lia.
    + unfold SIZE_MODULUS. lia.
    + apply (CircularDequeSpec.reachable_run 16 false
               (PushFront (Value "h"%char))
               (CircularDeque.init (replicate 16 zero))).
      * apply CircularDequeSpec.reachable_init. reflexivity.
      * simpl. unfold CircularDeque.size, CircularDeque.max_size. simpl. lia.
      * vm_compute. reflexivity.
  - apply (C8_size_and_head_invariant ascii 2 false).
    + lia.
    + unfold SIZE_MODULUS. lia.
    + apply (DequeSpec.reachable_run 2 false (PushBack (Value "b"%char))
               (Deque.mk ["a"%char; zero] 1)).
      * apply (DequeSpec.reachable_run 2 false (PushBack (Value "a"%char))
                 (Deque.init (replicate 2 zero))).
        -- apply DequeSpec.reachable_init. reflexivity.
        -- simpl. unfold Deque.size, Deque.max_size. simpl. lia.
        -- vm_compute. reflexivity.
      * simpl. unfold Deque.size, Deque.max_size. simpl. lia.
      * vm_compute. reflexivity.
    + simpl. unfold Deque.size. simpl. lia.
    + reflexivity.
Defined.
End Invariants.

Section PersistentMemory.
Import Eeprom EepromFacts.

(** C2. The round trip is not there for every trivially copyable type,
    nor through an [EepromReference]: assignment through an
    [EepromReference] is ill-formed for every type, and so are
    [writeEeprom] and [readEeprom] for the one-byte types other than
    [char], [uint8_t] and [int8_t]. For every other type the code does
    what is claimed: [readEeprom] after [writeEeprom] returns the value
    written, also when read through an [EepromReference] to the object,
    and writing a value whose bytes are all stored already leaves the
    EEPROM as it is, its wear included. *)
Theorem C2_persistent_round_trip (T : Type) `{TriviallyCopyableLaws T}
    (object : Z) (v : T) (e : Eeprom.t) :
  let r := EepromReference.mk object in
  EepromReference.assign r v e = IllFormed
  ∧ (selects_byte_helper = true →
     writeEeprom object v e = IllFormed
     ∧ readEeprom (T:=T) e object = IllFormed)
  ∧ (selects_byte_helper = false →
     ∃ e', writeEeprom object v e = WellFormed e'
       ∧ readEeprom e' object = WellFormed v
       ∧ EepromReference.read r e' = WellFormed v
       ∧ (eeprom_read_block e object sizeof = to_bytes v →
          e' = e ∧ wear e' = wear e)).
Proof.
  simpl. split; [done |]. split.
  - intros Hselect. by apply byte_helper_ill_formed.
  - intros Hselect.
    pose proof (read_after_write object v e Hselect) as Hread.
    destruct (writeEeprom object v e) as [e' |] eqn:Hwrite; [| done].
    exists e'. simpl in Hread. split; [done |]. split; [done |].
    split; [done |]. intros Hsame.
    rewrite (write_unchanged object v e Hselect Hsame) in Hwrite.
    injection Hwrite as <-. done.
Qed.

Lemma C2_persistent_round_trip_witness :
  EepromReference.assign (EepromReference.mk 900) "H"%char
    (Eeprom.mk {[900 := 72]} 1) = IllFormed
  ∧ (writeEeprom 900 true (Eeprom.mk {[900 := 72]} 1) = IllFormed
     ∧ readEeprom (T:=bool) (Eeprom.mk {[900 := 72]} 1) 900 = IllFormed)
  ∧ (∃ e', writeEeprom 900 "H"%char (Eeprom.mk {[900 := 72]} 1)
           = WellFormed e'
       ∧ readEeprom e' 900 = WellFormed "H"%char
       ∧ EepromReference.read (EepromReference.mk 900) e'
         = WellFormed "H"%char
       ∧ e' = Eeprom.mk {[900 := 72]} 1
       ∧ wear e' = wear (Eeprom.mk {[900 := 72]} 1)).
Proof.
  destruct (C2_persistent_round_trip ascii (H0 := char_TriviallyCopyableLaws)
              900 "H"%char (Eeprom.mk {[900 := 72]} 1))
    as (Hassign & _ & Hchar).
  destruct (C2_persistent_round_trip bool (H0 := bool_TriviallyCopyableLaws)
              900 true (Eeprom.mk {[900 := 72]} 1))
    as (_ & Hbool & _).
  split; [exact Hassign |]. split; [apply Hbool; reflexivity |].
  destruct (Hchar eq_refl) as (e' & Hwrite & Hread & Hreference & Hsame).
  exists e'. split; [exact Hwrite |]. split; [exact Hread |].
  split; [exact Hreference |]. apply Hsame. reflexivity.
Defined.
End PersistentMemory.

(** * Further properties *)

(** ** Lists shifted by the erasing loops *)

Section ShiftedLists.
Context {T : Type}.

(** A list whose entries from [c] on are those of [l] one place later
    is, up to its last entry, [l] without its entry [c]. *)
Lemma shifted_is_delete (l l' : list T) (c : nat) :
  (c < length l)%nat → length l' = length l →
  (∀ j : nat, l' !! j
     = if decide (c ≤ j < length l - 1)%nat then l !! S j else l !! j) →
  take (length l - 1) l' = delete c l.
Proof.
  intros Hc Hlen Hat. apply list_eq. intros j.
  destruct (decide (j < length l - 1)%nat) as [Hj | Hj].
  - rewrite lookup_take_lt, Hat by lia.
    destruct (decide (j < c)%nat) as [Hlt | Hge].
    + rewrite list_lookup_delete_lt by lia. case_decide; [lia | done].
    + rewrite list_lookup_delete_ge by lia. case_decide; [done | lia].
  - rewrite lookup_take_ge by lia.
    rewrite lookup_ge_None_2; [done |].
    rewrite length_delete; [lia |]. apply lookup_lt_is_Some_2. lia.
Qed.
End ShiftedLists.

(** ** More of the linear deque against its list model *)

Module DequeMoreFacts.
Import Deque DequeSpec DequeFacts.

Section Facts.
Context {T : Type}.
Variable capacity : Z.
Variable CONTAINER_SAFETY : bool.
Hypothesis capacity_pos : 0 < capacity.
Hypothesis capacity_fits : capacity < SIZE_MODULUS.

(** Every fact of this section takes the whole context, in this order. *)
#[local] Set Default Proof Using "All".

Implicit Types (d : t T) (l : list T) (a : list T).

Lemma move_back_Ok (k : nat) a x :
  a !! k = Some x → (S k < length a)%nat →
  Z.of_nat (length a) ≤ SIZE_MODULUS →
  move_back (Z.of_nat (S k)) a = Ok (<[S k := x]> a).
Proof.
  intros Hx Hin Hfit. unfold move_back. rewrite wrap_small by lia.
  rewrite (array_get_Ok _ _ x); [| lia |].
  - simpl. rewrite array_set_Ok by lia. by rewrite Nat2Z.id.
  - by replace (Z.to_nat (Z.of_nat (S k) - 1)) with k by lia.
Qed.

(** The shifting loop of [push_front]: the first [n] elements move one
    place towards the back, highest index first. *)
Lemma move_back_run (n : nat) a :
  (n < length a)%nat → Z.of_nat (length a) ≤ SIZE_MODULUS →
  ∃ a', for_each (reverse (seqZ 1 (Z.of_nat n))) move_back a = Ok a'
        ∧ length a' = length a
        ∧ ∀ i : nat, a' !! i
            = if decide (1 ≤ i ≤ n)%nat then a !! (i - 1)%nat else a !! i.
Proof.
  revert a. induction n as [| n IH]; intros a Hin Hfit.
  - exists a. simpl. split; [done |]. split; [done |].
    intros i. case_decide; [lia | done].
  - rewrite seqZ_S, reverse_app. simpl.
    destruct (lookup_lt_is_Some_2 a n) as [x Hx]; [lia |].
    replace (1 + Z.of_nat n) with (Z.of_nat (S n)) by lia.
    rewrite (move_back_Ok n a x Hx) by lia. simpl.
    destruct (IH (<[S n := x]> a)) as (a' & -> & Hlen' & Hat).
    { rewrite length_insert. lia. }
    { by rewrite length_insert. }
    exists a'. split; [done |]. rewrite length_insert in Hlen'.
    split; [done |]. intros i. rewrite Hat.
    destruct (decide (i = S n)) as [-> | Hne].
    + rewrite list_lookup_insert_eq by lia.
      repeat case_decide; try lia.
      by replace (S n - 1)%nat with n by lia.
    + repeat case_decide; try lia;
        rewrite list_lookup_insert_ne by lia; done.
Qed.

(** [push_front(value)] puts in front what the parameter holds once
    the elements have been moved: an argument that is element [i] of
    the deque is read where element [i - 1] now is, or element 0, which
    no assignment of the loop has overwritten, for [i = 0]. *)
Lemma linear_push_front_models d l (value : argument T) (x : T) :
  models capacity d l → Z.of_nat (length l) < capacity →
  match value with
  | Value v => x = v
  | Element index =>
      0 ≤ index < Z.of_nat (length l)
      ∧ l !! (Z.to_nat index - 1)%nat = Some x
  end →
  ∃ d', push_front capacity CONTAINER_SAFETY value d = Ok d'
        ∧ models capacity d' (x :: l).
Proof.
  intros (Hlen & Hcount & Hle & Hslots) Hroom Hvalue.
  unfold push_front, max_size, size, for_down.
  replace (capacity <=? element_count d) with false by lia.
  rewrite andb_false_r, Hcount, Z.sub_0_r. change (0 + 1) with 1.
  destruct (move_back_run (length l) (elements d))
    as (a' & -> & Hlen' & Hat); [lia | lia |].
  simpl.
  assert (read_argument a' value = Ok x) as ->.
  { destruct value as [v | index]; simpl; [by subst |].
    destruct Hvalue as (Hindex & Hx).
    apply array_get_Ok; [lia |]. rewrite Hat.
    case_decide; [by apply Hslots |].
    assert (Z.to_nat index = 0%nat) as Hzero by lia.
    rewrite Hzero in Hx |- *. by apply Hslots. }
  simpl. rewrite array_set_Ok by lia. simpl.
  eexists; split; [done |]. unfold models; simpl.
  rewrite length_insert, wrap_small by lia.
  repeat split; try lia.
  intros i y Hy. destruct i as [| i]; simpl in Hy.
  - injection Hy as <-. apply list_lookup_insert_eq. lia.
  - assert (i < length l)%nat by (by apply lookup_lt_Some in Hy).
    rewrite list_lookup_insert_ne by lia. rewrite Hat.
    case_decide; [| lia].
    replace (S i - 1)%nat with i by lia. by apply Hslots.
Qed.

(** [emplace_front] does the same, and returns a reference to slot 0. *)
Lemma linear_emplace_front_is_push_front (value : argument T) d :
  emplace_front capacity CONTAINER_SAFETY value d
  = (if CONTAINER_SAFETY && (max_size capacity d <=? size d)
     then Ok (d, None)
     else d' ← push_front capacity CONTAINER_SAFETY value d;
          Ok (d', Some 0)).
Proof.
  unfold emplace_front, push_front.
  destruct (CONTAINER_SAFETY && (max_size capacity d <=? size d)); [done |].
  destruct (for_down (element_count d) 0 move_back (elements d))
    as [a | |]; [| done | done].
  simpl. destruct (read_argument a value) as [v | |]; [| done | done].
  simpl. by destruct (array_set a 0 v).
Qed.

(** The shifting loop of [erase]: the elements after [c], up to the one
    before [n], move one place towards the front. *)
Lemma linear_erase_loop_run (fuel c n : nat) a :
  (c < n)%nat → (n ≤ length a)%nat → (n - S c < fuel)%nat →
  ∃ a', erase_loop fuel a (Z.of_nat c) (Z.of_nat c + 1) (Z.of_nat n) = Ok a'
        ∧ length a' = length a
        ∧ ∀ j : nat, a' !! j
            = if decide (c ≤ j < n - 1)%nat then a !! S j else a !! j.
Proof.
  revert c a. induction fuel as [| fuel IH]; intros c a Hc Hn Hfuel; [lia |].
  simpl. destruct (Z.eqb_spec (Z.of_nat c + 1) (Z.of_nat n)) as [Heq | Hne].
  - exists a. split; [done |]. split; [done |].
    intros j. case_decide; [lia | done].
  - destruct (lookup_lt_is_Some_2 a (S c)) as [x Hx]; [lia |].
    rewrite (array_get_Ok _ _ x);
      [| lia | by replace (Z.to_nat (Z.of_nat c + 1)) with (S c) by lia].
    simpl. rewrite array_set_Ok by lia. simpl. rewrite Nat2Z.id.
    replace (Z.of_nat c + 1) with (Z.of_nat (S c)) by lia.
    destruct (IH (S c) (<[c := x]> a)) as (a' & Hrun & Hlen' & Hat);
      [lia | rewrite length_insert; lia | lia |].
    replace (Z.of_nat (S c) + 1) with (Z.of_nat (S c) + 1) in Hrun by lia.
    rewrite Hrun. exists a'. split; [done |].
    rewrite length_insert in Hlen'. split; [done |].
    intros j. rewrite Hat.
    destruct (decide (j = c)) as [-> | Hjc].
    + rewrite list_lookup_insert_eq by lia.
      repeat case_decide; try lia. done.
    + repeat case_decide; try lia;
        rewrite list_lookup_insert_ne by lia; done.
Qed.

Lemma linear_erase_models d l (i : nat) :
  models capacity d l → (i < length l)%nat →
  ∃ d', erase CONTAINER_SAFETY (Z.of_nat i) d = Ok (FlowsOffEnd d')
        ∧ models capacity d' (delete i l).
Proof.
  intros (Hlen & Hcount & Hle & Hslots) Hi.
  unfold erase, empty, end_, get_end_index.
  replace (element_count d =? 0) with false by lia.
  replace (Z.of_nat i =? element_count d) with false by lia.
  rewrite !andb_false_r, Hcount.
  destruct (linear_erase_loop_run (Z.to_nat SIZE_MODULUS + 1) i (length l)
              (elements d)) as (a' & Hrun & Hlen' & Hat);
    [lia | lia | unfold SIZE_MODULUS in *; lia |].
  replace LOOP_FUEL with (Z.to_nat SIZE_MODULUS + 1)%nat
    by (unfold LOOP_FUEL; lia).
  rewrite Hrun. simpl. eexists; split; [done |]. unfold models; simpl.
  assert (length (delete i l) = (length l - 1)%nat) as Hdel.
  { rewrite length_delete; [lia |]. apply lookup_lt_is_Some_2. lia. }
  rewrite wrap_small, Hdel by lia.
  repeat split; try lia.
  intros j x Hx. pose proof (lookup_lt_Some _ _ _ Hx) as Hj.
  rewrite Hdel in Hj. rewrite Hat.
  destruct (decide (j < i)%nat) as [Hlt | Hge].
  - rewrite list_lookup_delete_lt in Hx by lia.
    case_decide; [lia |]. by apply Hslots.
  - rewrite list_lookup_delete_ge in Hx by lia.
    case_decide; [| lia]. by apply Hslots.
Qed.

(** The destroying loop of [clear] visits the slots it is given, in
    order. *)
Lemma destroy_slots_run d (indices destroyed : list Z) :
  Forall (λ index, 0 ≤ index < Z.of_nat (length (elements d))) indices →
  for_each indices (destroy_slot d) destroyed
  = Ok (reverse indices ++ destroyed).
Proof.
  intros Hindices. revert destroyed.
  induction Hindices as [| index rest Hindex _ IH]; intros destroyed; [done |].
  destruct (array_get_in_bounds (elements d) index) as [x Hx]; [lia |].
  assert (destroy_slot d index destroyed = Ok (index :: destroyed)) as Hstep
    by (unfold destroy_slot; by rewrite Hx).
  simpl. rewrite Hstep. simpl.
  rewrite IH, reverse_cons, <- app_assoc. done.
Qed.

Lemma linear_clear_models d l :
  models capacity d l →
  clear_destroys d = Ok (seqZ 0 (size d))
  ∧ clear d = Ok (mk (elements d) 0)
  ∧ models capacity (mk (elements d) 0) [].
Proof.
  intros (Hlen & Hcount & Hle & Hslots).
  assert (clear_destroys d = Ok (seqZ 0 (size d))) as Hdestroys.
  { unfold clear_destroys, for_up, get_begin_index, get_end_index, size.
    rewrite destroy_slots_run.
    - simpl. by rewrite app_nil_r, reverse_involutive, Z.sub_0_r.
    - apply Forall_seqZ. lia. }
  split; [done |]. split.
  - unfold clear. by rewrite Hdestroys.
  - unfold models; simpl. repeat split; (done || lia).
Qed.

(** [front()], [back()] and [operator[]] on a deque holding [l]. *)
Lemma linear_access_models d l (i : nat) x :
  models capacity d l → l !! i = Some x →
  at_index d (Z.of_nat i) = Ok x.
Proof.
  intros (Hlen & Hcount & Hle & Hslots) Hx. unfold at_index.
  apply array_get_Ok; [lia |]. rewrite Nat2Z.id. by apply Hslots.
Qed.
End Facts.

End DequeMoreFacts.

(** ** More of the circular deque against its list model *)

Module CircularDequeMoreFacts.
Import CircularDeque CircularDequeSpec CircularDequeFacts.

Section Facts.
Context {T : Type}.
Variable capacity : Z.
Variable CONTAINER_SAFETY : bool.
Hypothesis capacity_pos : 0 < capacity.
Hypothesis capacity_fits : 2 * capacity ≤ SIZE_MODULUS.

(** Every fact of this section takes the whole context, in this order. *)
#[local] Set Default Proof Using "All".

Implicit Types (d : t T) (l : list T).

Lemma slot_of_index d l (i : nat) :
  models capacity d l → (i < length l)%nat →
  adjust_index capacity d (Z.of_nat i)
  = (first_index d + Z.of_nat i) mod capacity.
Proof.
  intros (Hlen & Hcount & Hle & Hhead & Hslots) Hi.
  apply (adjust_index_small capacity CONTAINER_SAFETY capacity_pos
           capacity_fits); lia.
Qed.

Lemma assign_index_models d l (i : nat) (v : T) :
  models capacity d l → (i < length l)%nat →
  ∃ d', assign_index capacity d (Z.of_nat i) v = Ok d'
        ∧ models capacity d' (<[i := v]> l).
Proof.
  intros Hm Hi. pose proof Hm as (Hlen & Hcount & Hle & Hhead & Hslots).
  unfold assign_index. rewrite (slot_of_index d l i Hm Hi).
  pose proof (mod_in_range (first_index d + Z.of_nat i) capacity
                capacity_pos).
  rewrite array_set_Ok by lia. simpl.
  eexists; split; [done |]. unfold models; simpl.
  rewrite !length_insert. repeat split; try lia.
  intros j x Hx. destruct (decide (j = i)) as [-> | Hne].
  - rewrite list_lookup_insert_eq in Hx by lia. injection Hx as <-.
    apply list_lookup_insert_eq. lia.
  - rewrite list_lookup_insert_ne in Hx by lia.
    pose proof (lookup_lt_Some _ _ _ Hx).
    rewrite list_lookup_insert_ne; [by apply Hslots |].
    intros Heq. apply Z2Nat.inj in Heq; [| lia | apply mod_in_range; lia].
    apply mod_add_inj in Heq; lia.
Qed.

(** The shifting loop of [erase], on the list the deque holds. *)
Lemma erase_loop_models (fuel c : nat) d l :
  models capacity d l → (c < length l)%nat → (length l - S c < fuel)%nat →
  ∃ d' l',
    erase_loop capacity fuel d (Z.of_nat c) (Z.of_nat c + 1)
               (Z.of_nat (length l)) = Ok d'
    ∧ models capacity d' l'
    ∧ length l' = length l
    ∧ ∀ j : nat, l' !! j
        = if decide (c ≤ j < length l - 1)%nat then l !! S j else l !! j.
Proof.
  revert c d l. induction fuel as [| fuel IH]; intros c d l Hm Hc Hfuel;
    [lia |].
  pose proof Hm as (Hlen & Hcount & Hle & Hhead & Hslots).
  simpl.
  destruct (Z.eqb_spec (Z.of_nat c + 1) (Z.of_nat (length l))) as [Heq | Hne].
  - exists d, l. split; [done |]. split; [done |]. split; [done |].
    intros j. case_decide; [lia | done].
  - destruct (lookup_lt_is_Some_2 l (S c)) as [x Hx]; [lia |].
    replace (Z.of_nat c + 1) with (Z.of_nat (S c)) by lia.
    rewrite (models_at capacity CONTAINER_SAFETY capacity_pos capacity_fits
               d l (S c) x Hm Hx). simpl.
    destruct (assign_index_models d l c x Hm Hc) as (d1 & -> & Hm1). simpl.
    rewrite !wrap_small by lia.
    destruct (IH (S c) d1 (<[c := x]> l) Hm1) as (d' & l' & Hrun & Hm' & Hlen' & Hat);
      [rewrite length_insert; lia | rewrite length_insert; lia |].
    rewrite length_insert in Hrun, Hlen', Hat.
    replace (Z.of_nat c + 1) with (Z.of_nat (S c)) by lia.
    replace (Z.of_nat (S c) + 1) with (Z.of_nat (S c) + 1) in Hrun by lia.
    rewrite Hrun. exists d', l'. split; [done |]. split; [done |].
    split; [done |]. intros j. rewrite Hat.
    destruct (decide (j = c)) as [-> | Hjc].
    + rewrite list_lookup_insert_eq by lia.
      repeat case_decide; try lia. done.
    + repeat case_decide; try lia;
        rewrite list_lookup_insert_ne by lia; done.
Qed.

(** Dropping the last element by lowering the count. *)
Lemma models_shrink d l :
  models capacity d l → (0 < length l)%nat →
  models capacity
    (mk (elements d) (Z.of_nat (length l) - 1) (first_index d))
    (take (length l - 1) l).
Proof.
  intros (Hlen & Hcount & Hle & Hhead & Hslots) Hpos.
  unfold models; simpl. rewrite length_take.
  repeat split; try lia.
  intros j x Hx. apply lookup_take_Some in Hx as [Hx _]. by apply Hslots.
Qed.

Lemma erase_models d l (i : nat) :
  models capacity d l → (i < length l)%nat →
  ∃ d', erase capacity CONTAINER_SAFETY (Z.of_nat i) d = Ok (FlowsOffEnd d')
        ∧ models capacity d' (delete i l).
Proof.
  intros Hm Hi. pose proof Hm as (Hlen & Hcount & Hle & Hhead & Hslots).
  unfold erase, empty, end_, size.
  replace (element_count d =? 0) with false by lia.
  replace (Z.of_nat i =? element_count d) with false by lia.
  rewrite !andb_false_r, Hcount, wrap_small by lia.
  destruct (erase_loop_models (Z.to_nat SIZE_MODULUS + 1) i d l Hm Hi)
    as (d' & l' & Hrun & Hm' & Hlen' & Hat);
    [unfold SIZE_MODULUS in *; lia |].
  replace LOOP_FUEL with (Z.to_nat SIZE_MODULUS + 1)%nat
    by (unfold LOOP_FUEL; lia).
  rewrite Hrun. simpl. eexists; split; [done |].
  pose proof Hm' as (_ & Hcount' & _).
  rewrite Hcount', Hlen', wrap_small by lia.
  rewrite <- (shifted_is_delete l l' i Hi Hlen' Hat), <- Hlen'.
  apply models_shrink; [done | lia].
Qed.

(** [front()] and [back()] designate the slots of the first and of the
    last element. *)
Lemma front_models d l x :
  models capacity d l → l !! 0%nat = Some x →
  ∃ slot, front d = Ok slot ∧ array_get (elements d) slot = Ok x
          ∧ at_index capacity d 0 = Ok x.
Proof.
  intros Hm Hx. pose proof Hm as (Hlen & Hcount & Hle & Hhead & Hslots).
  pose proof (models_at capacity CONTAINER_SAFETY capacity_pos capacity_fits
                d l 0 x Hm Hx) as Hat.
  exists (first_index d). unfold front, get_first_index.
  rewrite slot_ref_Ok by lia. split; [done |]. split; [| done].
  unfold at_index in Hat. simpl in Hat.
  pose proof (lookup_lt_Some _ _ _ Hx).
  rewrite (slot_of_index d l 0 Hm) in Hat by lia. simpl in Hat.
  by rewrite Z.add_0_r, Z.mod_small in Hat by lia.
Qed.

Lemma back_models d l x :
  models capacity d l → l !! (length l - 1)%nat = Some x →
  ∃ slot, back capacity d = Ok slot ∧ array_get (elements d) slot = Ok x
          ∧ at_index capacity d (size d - 1) = Ok x.
Proof.
  intros Hm Hx. pose proof Hm as (Hlen & Hcount & Hle & Hhead & Hslots).
  pose proof (lookup_lt_Some _ _ _ Hx) as Hpos.
  pose proof (models_at capacity CONTAINER_SAFETY capacity_pos capacity_fits
                d l _ x Hm Hx) as Hat.
  replace (Z.of_nat (length l - 1)) with (element_count d - 1) in Hat by lia.
  exists (adjust_index capacity d (element_count d - 1)).
  unfold back, get_last_index, size. rewrite wrap_small by lia.
  rewrite slot_ref_Ok.
  - split; [done |]. split; done.
  - rewrite Hlen.
    apply (adjust_index_in_range capacity CONTAINER_SAFETY capacity_pos
             capacity_fits).
Qed.
End Facts.

End CircularDequeMoreFacts.

(** Splitting a conjunction into its parts, definitions left folded. *)
Ltac split_conj := repeat match goal with |- _ ∧ _ => split end.

(** Proving that a concrete deque holds a concrete list. *)
Ltac concrete_models :=
  unfold CircularDequeSpec.models, DequeSpec.models; simpl;
  repeat match goal with |- _ ∧ _ => split end;
  try reflexivity; try lia;
  let i := fresh "i" in
  let x := fresh "x" in
  let Hx := fresh "Hx" in
  intros i x Hx;
  repeat (destruct i as [| i];
          [injection Hx as <-; reflexivity | simpl in Hx]);
  discriminate Hx.

Lemma circular_abc_models :
  CircularDequeSpec.models 4 circular_abc ["a"; "b"; "c"]%char.
Proof. concrete_models. Qed.

Lemma linear_abc_models :
  DequeSpec.models 4 linear_abc ["a"; "b"; "c"]%char.
Proof. concrete_models. Qed.

Section CircularDequeOperations.
Import CircularDeque CircularDequeSpec CircularDequeFacts
  CircularDequeMoreFacts.

(** X1. In any well-formed state of a [CircularDeque<T, N>] that holds
    the sequence [l] (wrapped around the end of the array or not) and
    is not full, [push_back(v)] makes it hold [l ++ [v]] and
    [push_front(v)] makes it hold [v :: l]; either way the size grows
    by one and front-to-back iteration yields the new sequence. *)
Theorem X1_circular_push (T : Type) (capacity : Z) (CONTAINER_SAFETY : bool)
    (d : t T) (l : list T) (v : T) :
  0 < capacity → 2 * capacity ≤ SIZE_MODULUS →
  models capacity d l → size d < max_size capacity d →
  (∃ d', push_back capacity CONTAINER_SAFETY v d = Ok d'
         ∧ models capacity d' (l ++ [v])
         ∧ contents capacity d' = Ok (l ++ [v])
         ∧ size d' = size d + 1)
  ∧ (∃ d', push_front capacity CONTAINER_SAFETY v d = Ok d'
           ∧ models capacity d' (v :: l)
           ∧ contents capacity d' = Ok (v :: l)
           ∧ size d' = size d + 1).
Proof.
  intros Hpos Hfit Hm Hroom. unfold max_size in Hroom.
  pose proof (size_models (T:=T) capacity CONTAINER_SAFETY Hpos Hfit) as Hsize.
  pose proof (contents_models (T:=T) capacity CONTAINER_SAFETY Hpos Hfit)
    as Hcontents.
  rewrite (Hsize d l Hm) in Hroom |- *. split.
  - destruct (push_back_models capacity CONTAINER_SAFETY Hpos Hfit d l v Hm
                Hroom) as (d' & Hrun & Hm').
    exists d'. rewrite (Hsize d' _ Hm'), (Hcontents d' _ Hm'), length_app.
    simpl. split_conj; (done || lia).
  - destruct (push_front_models capacity CONTAINER_SAFETY Hpos Hfit d l v Hm
                Hroom) as (d' & Hrun & Hm').
    exists d'. rewrite (Hsize d' _ Hm'), (Hcontents d' _ Hm').
    simpl. split_conj; (done || lia).
Qed.

Lemma X1_circular_push_witness :
  (∃ d', push_back 4 false "d"%char circular_abc = Ok d'
         ∧ models 4 d' (["a"; "b"; "c"] ++ ["d"])%char
         ∧ contents 4 d' = Ok (["a"; "b"; "c"] ++ ["d"])%char
         ∧ size d' = size circular_abc + 1)
  ∧ (∃ d', push_front 4 false "d"%char circular_abc = Ok d'
           ∧ models 4 d' ["d"; "a"; "b"; "c"]%char
           ∧ contents 4 d' = Ok ["d"; "a"; "b"; "c"]%char
           ∧ size d' = size circular_abc + 1).
Proof.
  apply (X1_circular_push ascii 4 false circular_abc ["a"; "b"; "c"]%char).
  - lia.
  - unfold SIZE_MODULUS. lia.
  - exact circular_abc_models.
  - vm_compute. reflexivity.
Defined.

(** X2. In any well-formed state of a [CircularDeque<T, N>] that holds a
    non-empty sequence [l], [pop_back()] makes it hold [l] without its
    last element and [pop_front()] makes it hold [l] without its first
    element; the size shrinks by one. *)
Theorem X2_circular_pop (T : Type) (capacity : Z) (CONTAINER_SAFETY : bool)
    (d : t T) (l : list T) :
  0 < capacity → 2 * capacity ≤ SIZE_MODULUS →
  models capacity d l → empty d = false →
  (∃ d', pop_back capacity CONTAINER_SAFETY d = Ok d'
         ∧ models capacity d' (take (length l - 1) l)
         ∧ contents capacity d' = Ok (take (length l - 1) l)
         ∧ size d' = size d - 1)
  ∧ (∃ d', pop_front capacity CONTAINER_SAFETY d = Ok d'
           ∧ models capacity d' (drop 1 l)
           ∧ contents capacity d' = Ok (drop 1 l)
           ∧ size d' = size d - 1).
Proof.
  intros Hpos Hfit Hm Hne.
  pose proof (size_models (T:=T) capacity CONTAINER_SAFETY Hpos Hfit) as Hsize.
  pose proof (contents_models (T:=T) capacity CONTAINER_SAFETY Hpos Hfit)
    as Hcontents.
  assert (0 < length l)%nat as Hlen.
  { unfold empty in Hne. destruct Hm as (_ & Hcount & _). lia. }
  rewrite (Hsize d l Hm). split.
  - revert Hm Hlen. destruct l as [| x l' _] using rev_ind;
      intros Hm Hlen; [simpl in Hlen; lia |].
    destruct (pop_back_models capacity CONTAINER_SAFETY Hpos Hfit d l' x Hm)
      as (d' & Hrun & Hm').
    exists d'. rewrite length_app. simpl.
    replace (length l' + 1 - 1)%nat with (length l') by lia.
    rewrite take_app_length.
    rewrite (Hsize d' _ Hm'), (Hcontents d' _ Hm').
    split_conj; (done || lia).
  - destruct l as [| x l']; [simpl in Hlen; lia |].
    destruct (pop_front_models capacity CONTAINER_SAFETY Hpos Hfit d l' x Hm)
      as (d' & Hrun & Hm').
    exists d'. simpl. rewrite drop_0.
    rewrite (Hsize d' _ Hm'), (Hcontents d' _ Hm').
    split_conj; (done || lia).
Qed.

Lemma X2_circular_pop_witness :
  (∃ d', pop_back 4 false circular_abc = Ok d'
         ∧ models 4 d' (take (3 - 1) ["a"; "b"; "c"]%char)
         ∧ contents 4 d' = Ok (take (3 - 1) ["a"; "b"; "c"]%char)
         ∧ size d' = size circular_abc - 1)
  ∧ (∃ d', pop_front 4 false circular_abc = Ok d'
           ∧ models 4 d' (drop 1 ["a"; "b"; "c"]%char)
           ∧ contents 4 d' = Ok (drop 1 ["a"; "b"; "c"]%char)
           ∧ size d' = size circular_abc - 1).
Proof.
  apply (X2_circular_pop ascii 4 false circular_abc ["a"; "b"; "c"]%char).
  - lia.
  - unfold SIZE_MODULUS. lia.
  - exact circular_abc_models.
  - reflexivity.
Defined.

(** X3. In any well-formed state of a [CircularDeque<T, N>] that holds
    [l], [erase] of the iterator reached from [begin()] by [+= i], with
    [i < size()], moves the later elements each one place nearer the
    front and decrements the count, so that the deque holds [l] without
    its element [i]; the call then runs off the end of the function
    body, which has no [return] statement for the iterator the
    function declares, so it returns none. *)
Theorem X3_circular_erase (T : Type) (capacity : Z) (CONTAINER_SAFETY : bool)
    (d : t T) (l : list T) (i : nat) (container : Z) :
  0 < capacity → 2 * capacity ≤ SIZE_MODULUS →
  models capacity d l → Z.of_nat i < size d →
  let element_iterator :=
    IndexIterator.plus_assign (IndexIterator.mk container (begin d))
      (Z.of_nat i) in
  ∃ d', erase capacity CONTAINER_SAFETY
          (IndexIterator.index element_iterator) d
        = Ok (FlowsOffEnd d')
        ∧ models capacity d' (delete i l)
        ∧ contents capacity d' = Ok (delete i l)
        ∧ size d' = size d - 1.
Proof.
  intros Hpos Hfit Hm Hi.
  pose proof (size_models (T:=T) capacity CONTAINER_SAFETY Hpos Hfit) as Hsize.
  rewrite (Hsize d l Hm) in Hi |- *.
  pose proof Hm as (_ & _ & Hle & _).
  destruct (erase_models capacity CONTAINER_SAFETY Hpos Hfit d l i Hm)
    as (d' & Hrun & Hm'); [lia |].
  exists d'. unfold IndexIterator.plus_assign, begin. cbn [IndexIterator.index].
  rewrite Z.add_0_l, wrap_small by (unfold SIZE_MODULUS in *; lia).
  split; [done |]. split; [done |].
  rewrite (contents_models capacity CONTAINER_SAFETY Hpos Hfit d' _ Hm').
  rewrite (Hsize d' _ Hm'), length_delete by (apply lookup_lt_is_Some_2; lia).
  split; [done | lia].
Qed.

Lemma X3_circular_erase_witness :
  ∃ d', erase 4 false
          (IndexIterator.index
             (IndexIterator.plus_assign
                (IndexIterator.mk 512 (begin circular_abc)) (Z.of_nat 1)))
          circular_abc
        = Ok (FlowsOffEnd d')
        ∧ models 4 d' (delete 1%nat ["a"; "b"; "c"]%char)
        ∧ contents 4 d' = Ok (delete 1%nat ["a"; "b"; "c"]%char)
        ∧ size d' = size circular_abc - 1.
Proof.
  apply (X3_circular_erase ascii 4 false circular_abc ["a"; "b"; "c"]%char 1
           512).
  - lia.
  - unfold SIZE_MODULUS. lia.
  - exact circular_abc_models.
  - vm_compute. reflexivity.
Defined.

(** X4. In any well-formed state of a [CircularDeque<T, N>] that holds
    [l], [operator[](i)] reads element [i] of [l] for every [i <
    size()]; on a non-empty deque [front()] designates the slot of
    [deque[0]] and [back()] the slot of [deque[size() - 1]], inside the
    array. *)
Theorem X4_circular_access (T : Type) (capacity : Z) (d : t T)
    (l : list T) :
  0 < capacity → 2 * capacity ≤ SIZE_MODULUS →
  models capacity d l →
  (∀ (i : nat) (x : T), l !! i = Some x →
     at_index capacity d (Z.of_nat i) = Ok x)
  ∧ (empty d = false →
     ∃ first last slot_first slot_last,
       l !! 0%nat = Some first ∧ l !! (length l - 1)%nat = Some last
       ∧ front d = Ok slot_first
       ∧ array_get (elements d) slot_first = Ok first
       ∧ at_index capacity d 0 = Ok first
       ∧ back capacity d = Ok slot_last
       ∧ array_get (elements d) slot_last = Ok last
       ∧ at_index capacity d (size d - 1) = Ok last).
Proof.
  intros Hpos Hfit Hm. split.
  - intros i x Hx. by apply (models_at capacity false Hpos Hfit d l).
  - intros Hne.
    assert (0 < length l)%nat as Hlen.
    { unfold empty in Hne. destruct Hm as (_ & Hcount & _). lia. }
    destruct (lookup_lt_is_Some_2 l 0) as [first Hfirst]; [lia |].
    destruct (lookup_lt_is_Some_2 l (length l - 1)) as [last Hlast]; [lia |].
    destruct (front_models capacity false Hpos Hfit d l first Hm Hfirst)
      as (sf & ? & ? & ?).
    destruct (back_models capacity false Hpos Hfit d l last Hm Hlast)
      as (sl & ? & ? & ?).
    by exists first, last, sf, sl.
Qed.

Lemma X4_circular_access_witness :
  (∀ (i : nat) (x : ascii), ["a"; "b"; "c"]%char !! i = Some x →
     at_index 4 circular_abc (Z.of_nat i) = Ok x)
  ∧ (∃ first last slot_first slot_last,
       ["a"; "b"; "c"]%char !! 0%nat = Some first
       ∧ ["a"; "b"; "c"]%char !! (3 - 1)%nat = Some last
       ∧ front circular_abc = Ok slot_first
       ∧ array_get (elements circular_abc) slot_first = Ok first
       ∧ at_index 4 circular_abc 0 = Ok first
       ∧ back 4 circular_abc = Ok slot_last
       ∧ array_get (elements circular_abc) slot_last = Ok last
       ∧ at_index 4 circular_abc (size circular_abc - 1) = Ok last).
Proof.
  destruct (X4_circular_access ascii 4 circular_abc ["a"; "b"; "c"]%char)
    as [Hat Hends].
  - lia.
  - unfold SIZE_MODULUS. lia.
  - exact circular_abc_models.
  - split; [exact Hat | apply Hends; reflexivity].
Defined.
End CircularDequeOperations.

Section DequeOperations.
Import Deque DequeSpec DequeFacts DequeMoreFacts.

(** X5. In any well-formed state of a linear [Deque<T, N>] that holds
    the sequence [l] and is not full, [push_back(v)] makes it hold
    [l ++ [v]]; [push_front] shifts every element one slot towards the
    back and only then reads its argument. Given an object outside the
    deque that holds [v], it makes the deque hold [v :: l]. Given the
    element [deque[i]] of the deque itself, it puts in front what slot
    [i] holds after the shift: the former [deque[i - 1]] for [i > 0],
    and [deque[0]] for [i = 0]. Either way the size grows by one and
    iteration yields the new sequence. *)
Theorem X5_linear_push (T : Type) (capacity : Z) (CONTAINER_SAFETY : bool)
    (d : t T) (l : list T) (v : T) :
  0 < capacity → capacity < SIZE_MODULUS →
  models capacity d l → size d < max_size capacity d →
  (∃ d', push_back capacity CONTAINER_SAFETY v d = Ok d'
         ∧ models capacity d' (l ++ [v])
         ∧ contents d' = Ok (l ++ [v])
         ∧ size d' = size d + 1)
  ∧ (∃ d', push_front capacity CONTAINER_SAFETY (Value v) d = Ok d'
           ∧ models capacity d' (v :: l)
           ∧ contents d' = Ok (v :: l)
           ∧ size d' = size d + 1)
  ∧ (∀ (i : nat) (x : T), (i < length l)%nat → l !! (i - 1)%nat = Some x →
       ∃ d', push_front capacity CONTAINER_SAFETY (Element (Z.of_nat i)) d
             = Ok d'
             ∧ models capacity d' (x :: l)
             ∧ contents d' = Ok (x :: l)
             ∧ size d' = size d + 1).
Proof.
  intros Hpos Hfit Hm Hroom. unfold max_size in Hroom.
  pose proof (linear_size_models (T:=T) capacity CONTAINER_SAFETY Hpos Hfit)
    as Hsize.
  pose proof (linear_contents_models (T:=T) capacity CONTAINER_SAFETY
                Hpos Hfit) as Hcontents.
  rewrite (Hsize d l Hm) in Hroom |- *. split; [| split].
  - destruct (linear_push_back_models capacity CONTAINER_SAFETY Hpos Hfit
                d l v Hm Hroom) as (d' & Hrun & Hm').
    exists d'. rewrite (Hsize d' _ Hm'), (Hcontents d' _ Hm'), length_app.
    simpl. split_conj; (done || lia).
  - destruct (linear_push_front_models capacity CONTAINER_SAFETY Hpos Hfit
                d l (Value v) v Hm Hroom eq_refl) as (d' & Hrun & Hm').
    exists d'. rewrite (Hsize d' _ Hm'), (Hcontents d' _ Hm').
    simpl. split_conj; (done || lia).
  - intros i x Hi Hx.
    destruct (linear_push_front_models capacity CONTAINER_SAFETY Hpos Hfit
                d l (Element (Z.of_nat i)) x Hm Hroom) as (d' & Hrun & Hm').
    { rewrite Nat2Z.id. split; [lia | done]. }
    exists d'. rewrite (Hsize d' _ Hm'), (Hcontents d' _ Hm').
    simpl. split_conj; (done || lia).
Qed.

Lemma X5_linear_push_witness :
  (∃ d', push_back 4 false "d"%char linear_abc = Ok d'
         ∧ contents d' = Ok (["a"; "b"; "c"] ++ ["d"])%char)
  ∧ (∃ d', push_front 4 false (Value "d"%char) linear_abc = Ok d'
           ∧ contents d' = Ok ["d"; "a"; "b"; "c"]%char)
  ∧ (∃ d', push_front 4 false (Element (Z.of_nat 2)) linear_abc = Ok d'
           ∧ contents d' = Ok ["b"; "a"; "b"; "c"]%char).
Proof.
  destruct (X5_linear_push ascii 4 false linear_abc ["a"; "b"; "c"]%char
              "d"%char) as (Hback & Hfront & Helement).
  - lia.
  - unfold SIZE_MODULUS. lia.
  - exact linear_abc_models.
  - vm_compute. reflexivity.
  - split; [| split].
    + destruct Hback as (d' & Hrun & _ & Hcontents & _). by exists d'.
    + destruct Hfront as (d' & Hrun & _ & Hcontents & _). by exists d'.
    + destruct (Helement 2%nat "b"%char) as (d' & Hrun & _ & Hcontents & _);
        [simpl; lia | reflexivity |].
      by exists d'.
Defined.

(** X6. In any well-formed state of a linear [Deque<T, N>] that holds a
    non-empty sequence [l], [pop_back()] makes it hold [l] without its
    last element; and if the deque is not full, [pop_front()] shifts
    the elements one slot towards the front and makes it hold [l]
    without its first element. The size shrinks by one. *)
Theorem X6_linear_pop (T : Type) (capacity : Z) (CONTAINER_SAFETY : bool)
    (d : t T) (l : list T) :
  0 < capacity → capacity < SIZE_MODULUS →
  models capacity d l → empty d = false →
  (∃ d', pop_back CONTAINER_SAFETY d = Ok d'
         ∧ models capacity d' (take (length l - 1) l)
         ∧ contents d' = Ok (take (length l - 1) l)
         ∧ size d' = size d - 1)
  ∧ (size d < max_size capacity d →
     ∃ d', pop_front CONTAINER_SAFETY d = Ok d'
           ∧ models capacity d' (drop 1 l)
           ∧ contents d' = Ok (drop 1 l)
           ∧ size d' = size d - 1).
Proof.
  intros Hpos Hfit Hm Hne.
  pose proof (linear_size_models (T:=T) capacity CONTAINER_SAFETY Hpos Hfit)
    as Hsize.
  pose proof (linear_contents_models (T:=T) capacity CONTAINER_SAFETY
                Hpos Hfit) as Hcontents.
  assert (0 < length l)%nat as Hlen.
  { unfold empty in Hne. destruct Hm as (_ & Hcount & _). lia. }
  unfold max_size. rewrite (Hsize d l Hm). split.
  - revert Hm Hlen. destruct l as [| x l' _] using rev_ind;
      intros Hm Hlen; [simpl in Hlen; lia |].
    destruct (linear_pop_back_models capacity CONTAINER_SAFETY Hpos Hfit
                d l' x Hm) as (d' & Hrun & Hm').
    exists d'. rewrite length_app. simpl.
    replace (length l' + 1 - 1)%nat with (length l') by lia.
    rewrite take_app_length.
    rewrite (Hsize d' _ Hm'), (Hcontents d' _ Hm').
    split_conj; (done || lia).
  - intros Hroom. destruct l as [| x l']; [simpl in Hlen; lia |].
    destruct (linear_pop_front_models capacity CONTAINER_SAFETY Hpos Hfit
                d l' x Hm Hroom) as (d' & Hrun & Hm').
    exists d'. simpl. rewrite drop_0.
    rewrite (Hsize d' _ Hm'), (Hcontents d' _ Hm').
    split_conj; (done || lia).
Qed.

Lemma X6_linear_pop_witness :
  (∃ d', pop_back false linear_abc = Ok d'
         ∧ models 4 d' (take (3 - 1) ["a"; "b"; "c"]%char)
         ∧ contents d' = Ok (take (3 - 1) ["a"; "b"; "c"]%char)
         ∧ size d' = size linear_abc - 1)
  ∧ (∃ d', pop_front false linear_abc = Ok d'
           ∧ models 4 d' (drop 1 ["a"; "b"; "c"]%char)
           ∧ contents d' = Ok (drop 1 ["a"; "b"; "c"]%char)
           ∧ size d' = size linear_abc - 1).
Proof.
  destruct (X6_linear_pop ascii 4 false linear_abc ["a"; "b"; "c"]%char)
    as [Hback Hfront].
  - lia.
  - unfold SIZE_MODULUS. lia.
  - exact linear_abc_models.
  - reflexivity.
  - split; [exact Hback | apply Hfront; vm_compute; reflexivity].
Defined.

(** X7. In any well-formed state of a linear [Deque<T, N>] that holds
    [l], [erase] of the iterator [begin() + i] with [i < size()] moves
    the later elements each one slot nearer the front and decrements
    the count, so that the deque holds [l] without its element [i];
    the call then runs off the end of the function body, which has no
    [return] statement for the iterator the function declares, so it
    returns none. *)
Theorem X7_linear_erase (T : Type) (capacity : Z) (CONTAINER_SAFETY : bool)
    (d : t T) (l : list T) (i : nat) :
  0 < capacity → capacity < SIZE_MODULUS →
  models capacity d l → Z.of_nat i < size d →
  ∃ d', erase CONTAINER_SAFETY (begin d + Z.of_nat i) d
        = Ok (FlowsOffEnd d')
        ∧ models capacity d' (delete i l)
        ∧ contents d' = Ok (delete i l)
        ∧ size d' = size d - 1.
Proof.
  intros Hpos Hfit Hm Hi.
  pose proof (linear_size_models (T:=T) capacity CONTAINER_SAFETY Hpos Hfit)
    as Hsize.
  rewrite (Hsize d l Hm) in Hi |- *.
  destruct (linear_erase_models capacity CONTAINER_SAFETY Hpos Hfit d l i Hm)
    as (d' & Hrun & Hm'); [lia |].
  exists d'. unfold begin, get_begin_index. rewrite Z.add_0_l.
  split; [done |]. split; [done |].
  rewrite (linear_contents_models capacity CONTAINER_SAFETY Hpos Hfit
             d' _ Hm').
  rewrite (Hsize d' _ Hm'), length_delete by (apply lookup_lt_is_Some_2; lia).
  split; [done | lia].
Qed.

Lemma X7_linear_erase_witness :
  ∃ d', erase false (begin linear_abc + Z.of_nat 1) linear_abc
        = Ok (FlowsOffEnd d')
        ∧ models 4 d' (delete 1%nat ["a"; "b"; "c"]%char)
        ∧ contents d' = Ok (delete 1%nat ["a"; "b"; "c"]%char)
        ∧ size d' = size linear_abc - 1.
Proof.
  apply (X7_linear_erase ascii 4 false linear_abc ["a"; "b"; "c"]%char 1).
  - lia.
  - unfold SIZE_MODULUS. lia.
  - exact linear_abc_models.
  - vm_compute. reflexivity.
Defined.

(** X8. In any well-formed state of a linear [Deque<T, N>], [clear()]
    runs the destructor of exactly the live slots [0 .. size() - 1], in
    that order, touches no element, and leaves the deque empty. *)
Theorem X8_linear_clear (T : Type) (capacity : Z) (d : t T) (l : list T) :
  0 < capacity → capacity < SIZE_MODULUS →
  models capacity d l →
  clear_destroys d = Ok (seqZ 0 (size d))
  ∧ ∃ d', clear d = Ok d'
          ∧ elements d' = elements d
          ∧ size d' = 0 ∧ empty d' = true
          ∧ contents d' = Ok [].
Proof.
  intros Hpos Hfit Hm.
  destruct (linear_clear_models capacity false Hpos Hfit d l Hm)
    as (Hdestroys & Hclear & Hm').
  split; [done |]. eexists. split; [done |]. simpl.
  split_conj; try done.
Qed.

Lemma X8_linear_clear_witness :
  clear_destroys linear_abc = Ok (seqZ 0 (size linear_abc))
  ∧ ∃ d', clear linear_abc = Ok d'
          ∧ elements d' = elements linear_abc
          ∧ size d' = 0 ∧ empty d' = true
          ∧ contents d' = Ok [].
Proof.
  apply (X8_linear_clear ascii 4 linear_abc ["a"; "b"; "c"]%char).
  - lia.
  - unfold SIZE_MODULUS. lia.
  - exact linear_abc_models.
Defined.

(** X9. In any well-formed state of a linear [Deque<T, N>] that holds
    [l], [operator[](i)] reads element [i] of [l] for every
    [i < size()]; [data()] and, on a non-empty deque, [front()]
    designate slot 0, and [back()] designates slot [size() - 1], whose
    elements are the first and the last of [l]. *)
Theorem X9_linear_access (T : Type) (capacity : Z) (d : t T) (l : list T) :
  0 < capacity → capacity < SIZE_MODULUS →
  models capacity d l →
  (∀ (i : nat) (x : T), l !! i = Some x → at_index d (Z.of_nat i) = Ok x)
  ∧ data d = Ok 0
  ∧ (empty d = false →
     ∃ first last,
       l !! 0%nat = Some first ∧ l !! (length l - 1)%nat = Some last
       ∧ front d = Ok 0 ∧ at_index d 0 = Ok first
       ∧ back d = Ok (size d - 1) ∧ at_index d (size d - 1) = Ok last).
Proof.
  intros Hpos Hfit Hm.
  pose proof (linear_access_models capacity false Hpos Hfit d l) as Hat.
  pose proof Hm as (Hlen & Hcount & Hle & Hslots).
  split; [by intros i x Hx; apply Hat |]. split.
  { unfold data, get_first_index. apply slot_ref_Ok. lia. }
  intros Hne.
  assert (0 < length l)%nat as Hpos_l by (unfold empty in Hne; lia).
  destruct (lookup_lt_is_Some_2 l 0) as [first Hfirst]; [lia |].
  destruct (lookup_lt_is_Some_2 l (length l - 1)) as [last Hlast]; [lia |].
  exists first, last. split; [done |]. split; [done |].
  unfold front, back, get_first_index, get_last_index, size.
  rewrite wrap_small, !slot_ref_Ok by lia.
  split; [done |]. split; [by apply (Hat 0%nat) |]. split; [done |].
  replace (element_count d - 1) with (Z.of_nat (length l - 1)) by lia.
  by apply Hat.
Qed.

Lemma X9_linear_access_witness :
  (∀ (i : nat) (x : ascii), ["a"; "b"; "c"]%char !! i = Some x →
     at_index linear_abc (Z.of_nat i) = Ok x)
  ∧ data linear_abc = Ok 0
  ∧ (∃ first last,
       ["a"; "b"; "c"]%char !! 0%nat = Some first
       ∧ ["a"; "b"; "c"]%char !! (3 - 1)%nat = Some last
       ∧ front linear_abc = Ok 0 ∧ at_index linear_abc 0 = Ok first
       ∧ back linear_abc = Ok (size linear_abc - 1)
       ∧ at_index linear_abc (size linear_abc - 1) = Ok last).
Proof.
  destruct (X9_linear_access ascii 4 linear_abc ["a"; "b"; "c"]%char)
    as (Hat & Hdata & Hends).
  - lia.
  - unfold SIZE_MODULUS. lia.
  - exact linear_abc_models.
  - split; [exact Hat |]. split; [exact Hdata | apply Hends; reflexivity].
Defined.
End DequeOperations.

Lemma circular_xyz_models :
  CircularDequeSpec.models 4 circular_xyz ["x"; "y"; "z"]%char.
Proof. concrete_models. Qed.

Lemma linear_xyz_models :
  DequeSpec.models 4 linear_xyz ["x"; "y"; "z"]%char.
Proof. concrete_models. Qed.

Lemma circular_abcd_models :
  CircularDequeSpec.models 4 circular_abcd ["a"; "b"; "c"; "d"]%char.
Proof. concrete_models. Qed.

Lemma circular_none_models : CircularDequeSpec.models 4 circular_none [].
Proof. concrete_models. Qed.

Lemma linear_abcd_models :
  DequeSpec.models 4 linear_abcd ["a"; "b"; "c"; "d"]%char.
Proof. concrete_models. Qed.

Lemma linear_none_models : DequeSpec.models 4 linear_none [].
Proof. concrete_models. Qed.

Section UnguardedCalls.

(** X10. Built without CONTAINER_SAFETY, [push_back] on a full
    [CircularDeque<T, N>] never leaves the array: it returns, having
    overwritten the front element with the new value and left every
    other element in place, and [size()] is then [N + 1], above
    [max_size()]. [pop_back] and [pop_front] on an empty one return
    with [size()] wrapped around to 65535. *)
Theorem X10_circular_unguarded_calls (T : Type) (capacity : Z)
    (d : CircularDeque.t T) (l : list T) (v : T) :
  0 < capacity → 2 * capacity ≤ SIZE_MODULUS →
  CircularDequeSpec.models capacity d l →
  (CircularDeque.size d = CircularDeque.max_size capacity d →
   ∃ d', CircularDeque.push_back capacity false v d = Ok d'
         ∧ CircularDeque.size d' = capacity + 1
         ∧ CircularDeque.first_index d' = CircularDeque.first_index d
         ∧ CircularDeque.at_index capacity d' 0 = Ok v
         ∧ ∀ (i : nat) (x : T), (0 < i)%nat → l !! i = Some x →
             CircularDeque.at_index capacity d' (Z.of_nat i) = Ok x)
  ∧ (CircularDeque.empty d = true →
     ∃ d1 d2, CircularDeque.pop_back capacity false d = Ok d1
              ∧ CircularDeque.size d1 = 65535
              ∧ CircularDeque.pop_front capacity false d = Ok d2
              ∧ CircularDeque.size d2 = 65535).
Proof.
  intros Hpos Hfit (Hlen & Hcount & Hle & Hhead & Hslots).
  unfold SIZE_MODULUS in Hfit. split.
  - unfold CircularDeque.size, CircularDeque.max_size. intros Hfull.
    unfold CircularDeque.push_back. simpl.
    unfold CircularDeque.get_end_index, CircularDeque.adjust_index.
    rewrite Hfull, !wrap_small by (unfold SIZE_MODULUS; lia).
    replace ((CircularDeque.first_index d + capacity) mod capacity)
      with (CircularDeque.first_index d)
      by (replace (CircularDeque.first_index d + capacity)
            with (CircularDeque.first_index d + 1 * capacity) by lia;
          rewrite Z_mod_plus_full, Z.mod_small; lia).
    rewrite array_set_Ok by lia. simpl. eexists. split; [done |]. simpl.
    split; [done |]. split; [done |]. split.
    + unfold CircularDeque.at_index, CircularDeque.adjust_index. simpl.
      rewrite Z.add_0_r, wrap_small by (unfold SIZE_MODULUS; lia).
      rewrite Z.mod_small by lia.
      apply array_get_Ok; [lia |].
      apply list_lookup_insert_eq. lia.
    + intros i x Hi Hx.
      pose proof (lookup_lt_Some _ _ _ Hx) as Hlt.
      unfold CircularDeque.at_index, CircularDeque.adjust_index. simpl.
      rewrite wrap_small by (unfold SIZE_MODULUS; lia).
      pose proof (mod_in_range (CircularDeque.first_index d + Z.of_nat i)
                    capacity Hpos) as Hrange.
      apply array_get_Ok; [lia |].
      rewrite list_lookup_insert_ne; [by apply Hslots |].
      intros Heq. apply Z2Nat.inj in Heq; [| lia | lia].
      rewrite mod_add_cases in Heq by lia.
      destruct (Z.ltb_spec (CircularDeque.first_index d + Z.of_nat i)
                  capacity); lia.
  - unfold CircularDeque.empty, CircularDeque.size. intros Hempty.
    apply Z.eqb_eq in Hempty.
    unfold CircularDeque.pop_back, CircularDeque.pop_front,
      CircularDeque.get_last_index, CircularDeque.adjust_index. simpl.
    rewrite Hempty.
    pose proof (mod_in_range
                  (wrap (CircularDeque.first_index d + wrap (0 - 1)))
                  capacity Hpos) as Hrange.
    destruct (array_get_in_bounds (CircularDeque.elements d)
                (wrap (CircularDeque.first_index d + wrap (0 - 1))
                 mod capacity)) as [x ->]; [lia |].
    destruct (array_get_in_bounds (CircularDeque.elements d)
                (CircularDeque.first_index d)) as [y ->]; [lia |].
    simpl. eexists _, _. split_conj; reflexivity.
Qed.

Lemma X10_circular_unguarded_calls_witness :
  (∃ d', CircularDeque.push_back 4 false "e"%char circular_abcd = Ok d'
         ∧ CircularDeque.size d' = 4 + 1
         ∧ CircularDeque.first_index d'
           = CircularDeque.first_index circular_abcd
         ∧ CircularDeque.at_index 4 d' 0 = Ok "e"%char
         ∧ ∀ (i : nat) (x : ascii), (0 < i)%nat →
             ["a"; "b"; "c"; "d"]%char !! i = Some x →
             CircularDeque.at_index 4 d' (Z.of_nat i) = Ok x)
  ∧ (∃ d1 d2, CircularDeque.pop_back 4 false circular_none = Ok d1
              ∧ CircularDeque.size d1 = 65535
              ∧ CircularDeque.pop_front 4 false circular_none = Ok d2
              ∧ CircularDeque.size d2 = 65535).
Proof.
  split.
  - apply (X10_circular_unguarded_calls ascii 4 circular_abcd
             ["a"; "b"; "c"; "d"]%char "e"%char);
      [lia | unfold SIZE_MODULUS; lia | exact circular_abcd_models
      | reflexivity].
  - apply (X10_circular_unguarded_calls ascii 4 circular_none [] "e"%char);
      [lia | unfold SIZE_MODULUS; lia | exact circular_none_models
      | reflexivity].
Defined.
End UnguardedCalls.

Section LinearUnguardedCalls.
Import Deque DequeSpec.

(** X11. Built without CONTAINER_SAFETY, [push_back] and [push_front]
    on a full linear [Deque<T, N>] both write [elements[N]], one slot
    past the end of the array; [pop_back] on an empty one reads
    [elements[65535]], and [pop_front] on an empty one returns with
    [size()] wrapped around to 65535, the array untouched. *)
Theorem X11_linear_unguarded_calls (T : Type) (capacity : Z)
    (d : t T) (l : list T) (v : T) :
  0 < capacity → capacity < SIZE_MODULUS →
  models capacity d l →
  (size d = max_size capacity d →
   push_back capacity false v d = OutOfBounds capacity
   ∧ ∀ value, push_front capacity false value d = OutOfBounds capacity)
  ∧ (empty d = true →
     pop_back false d = OutOfBounds 65535
     ∧ pop_front false d = Ok (mk (elements d) 65535)).
Proof.
  intros Hpos Hfit (Hlen & Hcount & Hle & Hslots).
  unfold SIZE_MODULUS in Hfit. split.
  - unfold size, max_size. intros Hfull. split.
    + unfold push_back. simpl. rewrite Hfull.
      unfold array_set. rewrite in_bounds_false by lia. done.
    + intros value. unfold push_front. simpl. rewrite Hfull.
      unfold for_down. rewrite Z.sub_0_r.
      replace capacity with (Z.of_nat (S (Z.to_nat (capacity - 1)))) at 1
        by lia.
      rewrite seqZ_S, reverse_snoc. simpl.
      replace (0 + 1 + Z.of_nat (Z.to_nat (capacity - 1))) with capacity
        by lia.
      unfold move_back.
      rewrite (wrap_small (capacity - 1)) by (unfold SIZE_MODULUS; lia).
      destruct (array_get_in_bounds (elements d) (capacity - 1)) as [x ->];
        [lia |].
      simpl. unfold array_set. rewrite in_bounds_false by lia. done.
  - unfold empty. intros Hempty. apply Z.eqb_eq in Hempty. split.
    + unfold pop_back. simpl. rewrite Hempty.
      change (wrap (0 - 1)) with 65535.
      rewrite array_get_out by lia. done.
    + unfold pop_front. simpl. rewrite Hempty. done.
Qed.

Lemma X11_linear_unguarded_calls_witness :
  (push_back 4 false "e"%char linear_abcd = OutOfBounds 4
   ∧ ∀ value, push_front 4 false value linear_abcd = OutOfBounds 4)
  ∧ (pop_back false linear_none = OutOfBounds 65535
     ∧ pop_front false linear_none = Ok (mk (elements linear_none) 65535)).
Proof.
  split.
  - apply (X11_linear_unguarded_calls ascii 4 linear_abcd
             ["a"; "b"; "c"; "d"]%char "e"%char);
      [lia | unfold SIZE_MODULUS; lia | exact linear_abcd_models
      | reflexivity].
  - apply (X11_linear_unguarded_calls ascii 4 linear_none [] "e"%char);
      [lia | unfold SIZE_MODULUS; lia | exact linear_none_models
      | reflexivity].
Defined.
End LinearUnguardedCalls.

Section SwapFacts.

(** X12. [a.swap(b)] on two [CircularDeque<T, N>] exchanges the two
    element arrays and nothing else, so swapping twice restores both
    deques; when the two have the same size and the same head, each
    ends up holding what the other held. *)
Theorem X12_circular_swap (T : Type) (capacity : Z)
    (a b : CircularDeque.t T) (la lb : list T) :
  CircularDequeSpec.models capacity a la →
  CircularDequeSpec.models capacity b lb →
  ∃ a' b', CircularDeque.swap capacity a b = Ok (a', b')
           ∧ CircularDeque.elements a' = CircularDeque.elements b
           ∧ CircularDeque.elements b' = CircularDeque.elements a
           ∧ CircularDeque.swap capacity a' b' = Ok (a, b)
           ∧ (CircularDeque.size a = CircularDeque.size b →
              CircularDeque.first_index a = CircularDeque.first_index b →
              CircularDequeSpec.models capacity a' lb
              ∧ CircularDequeSpec.models capacity b' la).
Proof.
  intros (Hlen_a & Hcount_a & Hle_a & Hhead_a & Hslots_a)
         (Hlen_b & Hcount_b & Hle_b & Hhead_b & Hslots_b).
  unfold CircularDeque.swap.
  rewrite (swap_arrays_exchanges capacity _ _ Hlen_a Hlen_b). simpl.
  eexists _, _. split; [done |]. simpl.
  rewrite (swap_arrays_exchanges capacity _ _ Hlen_b Hlen_a). simpl.
  split; [done |]. split; [done |]. split; [by destruct a, b |].
  unfold CircularDeque.size. intros Hsize Hhead.
  unfold CircularDequeSpec.models. simpl. split.
  - rewrite Hhead. split_conj; (done || lia).
  - rewrite <- Hhead. split_conj; (done || lia).
Qed.

Lemma X12_circular_swap_witness :
  ∃ a' b', CircularDeque.swap 4 circular_abc circular_xyz = Ok (a', b')
           ∧ CircularDeque.elements a' = CircularDeque.elements circular_xyz
           ∧ CircularDeque.elements b' = CircularDeque.elements circular_abc
           ∧ CircularDeque.swap 4 a' b' = Ok (circular_abc, circular_xyz)
           ∧ CircularDequeSpec.models 4 a' ["x"; "y"; "z"]%char
           ∧ CircularDequeSpec.models 4 b' ["a"; "b"; "c"]%char.
Proof.
  destruct (X12_circular_swap ascii 4 circular_abc circular_xyz
              ["a"; "b"; "c"]%char ["x"; "y"; "z"]%char)
    as (a' & b' & Hswap & Ha & Hb & Hback & Hsame).
  - exact circular_abc_models.
  - exact circular_xyz_models.
  - exists a', b'. split; [exact Hswap |]. split; [exact Ha |].
    split; [exact Hb |]. split; [exact Hback |].
    apply Hsame; reflexivity.
Defined.

(** X13. [a.swap(b)] on two linear [Deque<T, N>] exchanges the two
    element arrays and nothing else, so swapping twice restores both
    deques; when the two have the same size, each ends up holding what
    the other held. *)
Theorem X13_linear_swap (T : Type) (capacity : Z)
    (a b : Deque.t T) (la lb : list T) :
  DequeSpec.models capacity a la →
  DequeSpec.models capacity b lb →
  ∃ a' b', Deque.swap capacity a b = Ok (a', b')
           ∧ Deque.elements a' = Deque.elements b
           ∧ Deque.elements b' = Deque.elements a
           ∧ Deque.swap capacity a' b' = Ok (a, b)
           ∧ (Deque.size a = Deque.size b →
              DequeSpec.models capacity a' lb
              ∧ DequeSpec.models capacity b' la).
Proof.
  intros (Hlen_a & Hcount_a & Hle_a & Hslots_a)
         (Hlen_b & Hcount_b & Hle_b & Hslots_b).
  unfold Deque.swap.
  rewrite (swap_arrays_exchanges capacity _ _ Hlen_a Hlen_b). simpl.
  eexists _, _. split; [done |]. simpl.
  rewrite (swap_arrays_exchanges capacity _ _ Hlen_b Hlen_a). simpl.
  split; [done |]. split; [done |]. split; [by destruct a, b |].
  unfold Deque.size. intros Hsize.
  unfold DequeSpec.models. simpl. split; split_conj; (done || lia).
Qed.

Lemma X13_linear_swap_witness :
  ∃ a' b', Deque.swap 4 linear_abc linear_xyz = Ok (a', b')
           ∧ Deque.elements a' = Deque.elements linear_xyz
           ∧ Deque.elements b' = Deque.elements linear_abc
           ∧ Deque.swap 4 a' b' = Ok (linear_abc, linear_xyz)
           ∧ DequeSpec.models 4 a' ["x"; "y"; "z"]%char
           ∧ DequeSpec.models 4 b' ["a"; "b"; "c"]%char.
Proof.
  destruct (X13_linear_swap ascii 4 linear_abc linear_xyz
              ["a"; "b"; "c"]%char ["x"; "y"; "z"]%char)
    as (a' & b' & Hswap & Ha & Hb & Hback & Hsame).
  - exact linear_abc_models.
  - exact linear_xyz_models.
  - exists a', b'. split; [exact Hswap |]. split; [exact Ha |].
    split; [exact Hb |]. split; [exact Hback |].
    apply Hsame; reflexivity.
Defined.
End SwapFacts.

(** ** Call sequences against a list model *)

Section CallRefinement.
Context {S T : Type}.
Variable holds : S → list T → Prop.
Variable member : adapter_call T → S → result S.
Variable model : adapter_call T → list T → list T.
Variable precondition : adapter_call T → list T → bool.
Hypothesis step : ∀ call s l,
  holds s l → precondition call l = true →
  ∃ s', member call s = Ok s' ∧ holds s' (model call l).

Lemma calls_refine (calls : list (adapter_call T)) (s : S) (l : list T) :
  holds s l → contract_kept model precondition calls l = true →
  ∃ s', call_each member calls s = Ok s'
        ∧ holds s' (model_run model calls l).
Proof.
  revert s l. induction calls as [| call rest IH]; intros s l Hs Hkept.
  - exists s. done.
  - simpl in Hkept. apply andb_true_iff in Hkept as [Hpre Hrest].
    destruct (step call s l Hs Hpre) as (s' & Hcall & Hs').
    destruct (IH s' _ Hs' Hrest) as (s'' & Hrun & Hs'').
    exists s''. simpl. rewrite Hcall. done.
Qed.
End CallRefinement.

Section AdapterSteps.
Context {T : Type}.
Variable capacity : Z.
Variable CONTAINER_SAFETY : bool.
Hypothesis capacity_pos : 0 < capacity.
Hypothesis capacity_fits : 2 * capacity ≤ SIZE_MODULUS.
#[local] Set Default Proof Using "All".

Let linear := Deque_Container (T:=T) capacity CONTAINER_SAFETY.
Let circular := CircularDeque_Container (T:=T) capacity CONTAINER_SAFETY.

Lemma linear_push_back_step (d : Deque.t T) (l : list T) (v : T) :
  DequeSpec.models capacity d l →
  within_contract capacity CONTAINER_SAFETY (Push v) l = true →
  ∃ d', Deque.push_back capacity CONTAINER_SAFETY v d = Ok d'
        ∧ (d' ← Deque.emplace_back capacity CONTAINER_SAFETY v d; Ok d'.1)
          = Ok d'
        ∧ DequeSpec.models capacity d' (stack_model capacity (Push v) l).
Proof.
  intros Hm Hpre. simpl.
  assert (capacity < SIZE_MODULUS) as Hfit by lia.
  destruct (Z.ltb_spec (Z.of_nat (length l)) capacity) as [Hroom | Hfull].
  - destruct (DequeFacts.linear_push_back_models capacity CONTAINER_SAFETY
                capacity_pos Hfit d l v Hm Hroom) as (d' & Hrun & Hm').
    exists d'. split; [done |]. split; [| done].
    revert Hrun. unfold Deque.push_back, Deque.emplace_back.
    destruct (CONTAINER_SAFETY && _); [by intros [= <-] |].
    destruct (array_set _ _ _); simpl; congruence.
  - unfold within_contract in Hpre.
    destruct CONTAINER_SAFETY; [| simpl in Hpre; first [done | lia]].
    destruct Hm as (Hlen & Hcount & Hle & Hslots).
    exists d. unfold Deque.push_back, Deque.emplace_back,
      Deque.max_size, Deque.size.
    replace (capacity <=? Deque.element_count d) with true by lia.
    simpl. done.
Qed.

Lemma linear_pop_back_step (d : Deque.t T) (l : list T) :
  DequeSpec.models capacity d l →
  within_contract capacity CONTAINER_SAFETY Pop l = true →
  ∃ d', Deque.pop_back CONTAINER_SAFETY d = Ok d'
        ∧ DequeSpec.models capacity d' (stack_model capacity Pop l).
Proof.
  intros Hm Hpre. simpl.
  assert (capacity < SIZE_MODULUS) as Hfit by lia.
  destruct l as [| x l' _] using rev_ind.
  - unfold within_contract in Hpre.
    destruct CONTAINER_SAFETY; [| simpl in Hpre; first [done | lia]].
    pose proof Hm as (Hlen & Hcount & Hle & Hslots).
    exists d. unfold Deque.pop_back, Deque.empty. rewrite Hcount. done.
  - rewrite length_app. simpl.
    replace (length l' + 1 - 1)%nat with (length l') by lia.
    rewrite take_app_length.
    by apply (DequeFacts.linear_pop_back_models capacity CONTAINER_SAFETY
                capacity_pos Hfit d l' x).
Qed.

Lemma linear_pop_front_step (d : Deque.t T) (l : list T) :
  DequeSpec.models capacity d l →
  within_contract capacity CONTAINER_SAFETY Pop l = true →
  Z.of_nat (length l) < capacity →
  ∃ d', Deque.pop_front CONTAINER_SAFETY d = Ok d'
        ∧ DequeSpec.models capacity d' (queue_model capacity Pop l).
Proof.
  intros Hm Hpre Hroom. simpl.
  assert (capacity < SIZE_MODULUS) as Hfit by lia.
  destruct l as [| x l'].
  - unfold within_contract in Hpre.
    destruct CONTAINER_SAFETY; [| simpl in Hpre; first [done | lia]].
    pose proof Hm as (Hlen & Hcount & Hle & Hslots).
    exists d. unfold Deque.pop_front, Deque.empty. rewrite Hcount. done.
  - simpl. rewrite drop_0.
    by apply (DequeFacts.linear_pop_front_models capacity CONTAINER_SAFETY
                capacity_pos Hfit d l' x).
Qed.

Lemma circular_push_back_step (d : CircularDeque.t T) (l : list T) (v : T) :
  CircularDequeSpec.models capacity d l →
  within_contract capacity CONTAINER_SAFETY (Push v) l = true →
  ∃ d', CircularDeque.push_back capacity CONTAINER_SAFETY v d = Ok d'
        ∧ (d' ← CircularDeque.emplace_back capacity CONTAINER_SAFETY v d;
           Ok d'.1) = Ok d'
        ∧ CircularDequeSpec.models capacity d'
            (stack_model capacity (Push v) l).
Proof.
  intros Hm Hpre. simpl.
  destruct (Z.ltb_spec (Z.of_nat (length l)) capacity) as [Hroom | Hfull].
  - destruct (CircularDequeFacts.push_back_models capacity CONTAINER_SAFETY
                capacity_pos capacity_fits d l v Hm Hroom)
      as (d' & Hrun & Hm').
    exists d'. split; [done |]. split; [| done].
    revert Hrun. unfold CircularDeque.push_back, CircularDeque.emplace_back.
    destruct (CONTAINER_SAFETY && _); [by intros [= <-] |].
    simpl. destruct (array_set _ _ _); simpl; congruence.
  - unfold within_contract in Hpre.
    destruct CONTAINER_SAFETY; [| simpl in Hpre; first [done | lia]].
    destruct Hm as (Hlen & Hcount & Hle & Hslots).
    exists d. unfold CircularDeque.push_back, CircularDeque.emplace_back,
      CircularDeque.max_size, CircularDeque.size.
    replace (capacity <=? CircularDeque.element_count d) with true by lia.
    simpl. done.
Qed.

Lemma circular_pop_back_step (d : CircularDeque.t T) (l : list T) :
  CircularDequeSpec.models capacity d l →
  within_contract capacity CONTAINER_SAFETY Pop l = true →
  ∃ d', CircularDeque.pop_back capacity CONTAINER_SAFETY d = Ok d'
        ∧ CircularDequeSpec.models capacity d' (stack_model capacity Pop l).
Proof.
  intros Hm Hpre. simpl.
  destruct l as [| x l' _] using rev_ind.
  - unfold within_contract in Hpre.
    destruct CONTAINER_SAFETY; [| simpl in Hpre; first [done | lia]].
    pose proof Hm as (Hlen & Hcount & Hle & Hslots).
    exists d. unfold CircularDeque.pop_back, CircularDeque.empty.
    rewrite Hcount. done.
  - rewrite length_app. simpl.
    replace (length l' + 1 - 1)%nat with (length l') by lia.
    rewrite take_app_length.
    by apply (CircularDequeFacts.pop_back_models capacity CONTAINER_SAFETY
                capacity_pos capacity_fits d l' x).
Qed.

Lemma circular_pop_front_step (d : CircularDeque.t T) (l : list T) :
  CircularDequeSpec.models capacity d l →
  within_contract capacity CONTAINER_SAFETY Pop l = true →
  ∃ d', CircularDeque.pop_front capacity CONTAINER_SAFETY d = Ok d'
        ∧ CircularDequeSpec.models capacity d' (queue_model capacity Pop l).
Proof.
  intros Hm Hpre. simpl.
  destruct l as [| x l'].
  - unfold within_contract in Hpre.
    destruct CONTAINER_SAFETY; [| simpl in Hpre; first [done | lia]].
    pose proof Hm as (Hlen & Hcount & Hle & Hslots).
    exists d. unfold CircularDeque.pop_front, CircularDeque.empty.
    rewrite Hcount. done.
  - simpl. rewrite drop_0.
    by apply (CircularDequeFacts.pop_front_models capacity CONTAINER_SAFETY
                capacity_pos capacity_fits d l' x).
Qed.

Lemma linear_stack_step (call : adapter_call T) (s : Stack.t (Deque.t T))
    (l : list T) :
  DequeSpec.models capacity (Stack.container s) l →
  within_contract capacity CONTAINER_SAFETY call l = true →
  ∃ s', stack_call (container_type:=linear) call s = Ok s'
        ∧ DequeSpec.models capacity (Stack.container s')
            (stack_model capacity call l).
Proof.
  intros Hm Hpre. destruct call as [v | v |].
  - destruct (linear_push_back_step _ l v Hm Hpre) as (d' & Hrun & _ & Hm').
    exists (Stack.mk d'). unfold stack_call, Stack.push. simpl.
    rewrite Hrun. done.
  - destruct (linear_push_back_step _ l v Hm Hpre) as (d' & _ & Hrun & Hm').
    exists (Stack.mk d'). split; [| done].
    unfold stack_call, Stack.emplace. simpl. revert Hrun.
    destruct (Deque.emplace_back _ _ _ _) as [[d'' r] | |]; simpl;
      congruence.
  - destruct (linear_pop_back_step _ l Hm Hpre) as (d' & Hrun & Hm').
    exists (Stack.mk d'). unfold stack_call, Stack.pop. simpl.
    rewrite Hrun. done.
Qed.

Lemma circular_stack_step (call : adapter_call T)
    (s : Stack.t (CircularDeque.t T)) (l : list T) :
  CircularDequeSpec.models capacity (Stack.container s) l →
  within_contract capacity CONTAINER_SAFETY call l = true →
  ∃ s', stack_call (container_type:=circular) call s = Ok s'
        ∧ CircularDequeSpec.models capacity (Stack.container s')
            (stack_model capacity call l).
Proof.
  intros Hm Hpre. destruct call as [v | v |].
  - destruct (circular_push_back_step _ l v Hm Hpre)
      as (d' & Hrun & _ & Hm').
    exists (Stack.mk d'). unfold stack_call, Stack.push. simpl.
    rewrite Hrun. done.
  - destruct (circular_push_back_step _ l v Hm Hpre)
      as (d' & _ & Hrun & Hm').
    exists (Stack.mk d'). split; [| done].
    unfold stack_call, Stack.emplace. simpl. revert Hrun.
    destruct (CircularDeque.emplace_back _ _ _ _) as [[d'' r] | |]; simpl;
      congruence.
  - destruct (circular_pop_back_step _ l Hm Hpre) as (d' & Hrun & Hm').
    exists (Stack.mk d'). unfold stack_call, Stack.pop. simpl.
    rewrite Hrun. done.
Qed.

Lemma circular_queue_step (call : adapter_call T)
    (q : Queue.t (CircularDeque.t T)) (l : list T) :
  CircularDequeSpec.models capacity (Queue.container q) l →
  within_contract capacity CONTAINER_SAFETY call l = true →
  ∃ q', queue_call (container_type:=circular) call q = Ok q'
        ∧ CircularDequeSpec.models capacity (Queue.container q')
            (queue_model capacity call l).
Proof.
  intros Hm Hpre. destruct call as [v | v |].
  - destruct (circular_push_back_step _ l v Hm Hpre)
      as (d' & Hrun & _ & Hm').
    exists (Queue.mk d'). unfold queue_call, Queue.push. simpl.
    rewrite Hrun. done.
  - destruct (circular_push_back_step _ l v Hm Hpre)
      as (d' & _ & Hrun & Hm').
    exists (Queue.mk d'). split; [| done].
    unfold queue_call, Queue.emplace. simpl. revert Hrun.
    destruct (CircularDeque.emplace_back _ _ _ _) as [[d'' r] | |]; simpl;
      congruence.
  - destruct (circular_pop_front_step _ l Hm Hpre) as (d' & Hrun & Hm').
    exists (Queue.mk d'). unfold queue_call, Queue.pop. simpl.
    rewrite Hrun. done.
Qed.

Lemma linear_queue_step (call : adapter_call T) (q : Queue.t (Deque.t T))
    (l : list T) :
  DequeSpec.models capacity (Queue.container q) l →
  within_contract capacity CONTAINER_SAFETY call l
    && pop_has_room capacity call l = true →
  ∃ q', queue_call (container_type:=linear) call q = Ok q'
        ∧ DequeSpec.models capacity (Queue.container q')
            (queue_model capacity call l).
Proof.
  intros Hm Hpre. apply andb_true_iff in Hpre as [Hpre Hroom].
  destruct call as [v | v |].
  - destruct (linear_push_back_step _ l v Hm Hpre) as (d' & Hrun & _ & Hm').
    exists (Queue.mk d'). unfold queue_call, Queue.push. simpl.
    rewrite Hrun. done.
  - destruct (linear_push_back_step _ l v Hm Hpre) as (d' & _ & Hrun & Hm').
    exists (Queue.mk d'). split; [| done].
    unfold queue_call, Queue.emplace. simpl. revert Hrun.
    destruct (Deque.emplace_back _ _ _ _) as [[d'' r] | |]; simpl;
      congruence.
  - simpl in Hroom.
    destruct (linear_pop_front_step _ l Hm Hpre) as (d' & Hrun & Hm');
      [lia |].
    exists (Queue.mk d'). unfold queue_call, Queue.pop. simpl.
    rewrite Hrun. done.
Qed.
End AdapterSteps.

Lemma last_is_lookup {T : Type} (l : list T) (x : T) :
  last l = Some x → l !! (length l - 1)%nat = Some x.
Proof. rewrite last_lookup, Nat.sub_1_r. done. Qed.

Section AdapterEnds.
Context {T : Type}.
Variable capacity : Z.
Hypothesis capacity_pos : 0 < capacity.
Hypothesis capacity_fits : 2 * capacity ≤ SIZE_MODULUS.
#[local] Set Default Proof Using "All".

Lemma linear_back_reads (d : Deque.t T) (l : list T) (x : T) :
  DequeSpec.models capacity d l → last l = Some x →
  ∃ slot, Deque.back d = Ok slot
          ∧ array_get (Deque.elements d) slot = Ok x.
Proof.
  intros (Hlen & Hcount & Hle & Hslots) Hx. apply last_is_lookup in Hx.
  pose proof (lookup_lt_Some _ _ _ Hx) as Hlt.
  exists (Z.of_nat (length l - 1)).
  unfold Deque.back, Deque.get_last_index.
  rewrite Hcount, wrap_small by (unfold SIZE_MODULUS in *; lia).
  replace (Z.of_nat (length l) - 1) with (Z.of_nat (length l - 1)) by lia.
  rewrite slot_ref_Ok by lia. split; [done |].
  apply array_get_Ok; [lia |]. rewrite Nat2Z.id. by apply Hslots.
Qed.

Lemma linear_front_reads (d : Deque.t T) (l : list T) (x : T) :
  DequeSpec.models capacity d l → head l = Some x →
  ∃ slot, Deque.front d = Ok slot
          ∧ array_get (Deque.elements d) slot = Ok x.
Proof.
  intros (Hlen & Hcount & Hle & Hslots) Hx. rewrite head_lookup in Hx.
  exists 0. unfold Deque.front, Deque.get_first_index.
  rewrite slot_ref_Ok by lia. split; [done |].
  apply array_get_Ok; [lia |]. by apply Hslots.
Qed.

Lemma circular_back_reads (d : CircularDeque.t T) (l : list T) (x : T) :
  CircularDequeSpec.models capacity d l → last l = Some x →
  ∃ slot, CircularDeque.back capacity d = Ok slot
          ∧ array_get (CircularDeque.elements d) slot = Ok x.
Proof.
  intros Hm Hx. apply last_is_lookup in Hx.
  destruct (CircularDequeMoreFacts.back_models capacity false capacity_pos
              capacity_fits d l x Hm Hx) as (slot & Hback & Hget & _).
  by exists slot.
Qed.

Lemma circular_front_reads (d : CircularDeque.t T) (l : list T) (x : T) :
  CircularDequeSpec.models capacity d l → head l = Some x →
  ∃ slot, CircularDeque.front d = Ok slot
          ∧ array_get (CircularDeque.elements d) slot = Ok x.
Proof.
  intros Hm Hx. rewrite head_lookup in Hx.
  destruct (CircularDequeMoreFacts.front_models capacity false capacity_pos
              capacity_fits d l x Hm Hx) as (slot & Hfront & Hget & _).
  by exists slot.
Qed.
End AdapterEnds.

Section AdapterOrder.

(** X14. A [Stack<T, N>] is last-in first-out over either deque: after
    any sequence of [push], [emplace] and [pop] calls every one of
    which returns, the underlying container holds what a bounded list
    would hold after appending on push and dropping the last element on
    pop, [size()] is its length, and [top()] designates the slot
    holding its last element. With CONTAINER_SAFETY every sequence
    qualifies, a [push] on a full stack and a [pop] on an empty one
    changing nothing; without it each call must meet its documented
    precondition. *)
Theorem X14_stack_last_in_first_out (T : Type) (capacity : Z)
    (CONTAINER_SAFETY : bool) (calls : list (adapter_call T))
    (l : list T) :
  0 < capacity → 2 * capacity ≤ SIZE_MODULUS →
  contract_kept (stack_model capacity)
    (within_contract capacity CONTAINER_SAFETY) calls l = true →
  let linear := Deque_Container (T:=T) capacity CONTAINER_SAFETY in
  let circular := CircularDeque_Container (T:=T) capacity CONTAINER_SAFETY in
  let l' := model_run (stack_model capacity) calls l in
  (∀ d, DequeSpec.models capacity d l →
     ∃ s', call_each (stack_call (container_type:=linear)) calls
             (Stack.mk d) = Ok s'
           ∧ DequeSpec.models capacity (Stack.container s') l'
           ∧ Stack.size (container_type:=linear) s' = Z.of_nat (length l')
           ∧ ∀ x, last l' = Some x →
               ∃ slot, Stack.top (container_type:=linear) s' = Ok slot
                 ∧ array_get (Deque.elements (Stack.container s')) slot
                   = Ok x)
  ∧ (∀ d, CircularDequeSpec.models capacity d l →
       ∃ s', call_each (stack_call (container_type:=circular)) calls
               (Stack.mk d) = Ok s'
             ∧ CircularDequeSpec.models capacity (Stack.container s') l'
             ∧ Stack.size (container_type:=circular) s'
               = Z.of_nat (length l')
             ∧ ∀ x, last l' = Some x →
                 ∃ slot, Stack.top (container_type:=circular) s' = Ok slot
                   ∧ array_get (CircularDeque.elements (Stack.container s'))
                       slot = Ok x).
Proof.
  intros Hpos Hfit Hkept linear circular l'. split.
  - intros d Hm.
    destruct (calls_refine
                (λ s, DequeSpec.models capacity (Stack.container s))
                (stack_call (container_type:=linear))
                (stack_model capacity)
                (within_contract capacity CONTAINER_SAFETY)
                (linear_stack_step capacity CONTAINER_SAFETY Hpos Hfit)
                calls (Stack.mk d) l Hm Hkept) as (s' & Hrun & Hm').
    exists s'. split; [done |]. split; [done |]. split.
    + by destruct Hm' as (_ & Hcount & _).
    + intros x Hx. by apply (linear_back_reads capacity Hpos Hfit _ l').
  - intros d Hm.
    destruct (calls_refine
                (λ s, CircularDequeSpec.models capacity (Stack.container s))
                (stack_call (container_type:=circular))
                (stack_model capacity)
                (within_contract capacity CONTAINER_SAFETY)
                (circular_stack_step capacity CONTAINER_SAFETY Hpos Hfit)
                calls (Stack.mk d) l Hm Hkept) as (s' & Hrun & Hm').
    exists s'. split; [done |]. split; [done |]. split.
    + by destruct Hm' as (_ & Hcount & _).
    + intros x Hx. by apply (circular_back_reads capacity Hpos Hfit _ l').
Qed.

Lemma X14_stack_last_in_first_out_witness :
  (∃ s', call_each (stack_call (container_type:=Deque_Container 4 false))
           sample_calls (Stack.mk linear_none) = Ok s'
         ∧ DequeSpec.models 4 (Stack.container s') ["a"; "c"]%char
         ∧ Stack.size (container_type:=Deque_Container 4 false) s' = 2
         ∧ ∃ slot, Stack.top (container_type:=Deque_Container 4 false) s'
                   = Ok slot
             ∧ array_get (Deque.elements (Stack.container s')) slot
               = Ok "c"%char)
  ∧ (∃ s', call_each
             (stack_call (container_type:=CircularDeque_Container 4 false))
             sample_calls (Stack.mk circular_none) = Ok s'
           ∧ CircularDequeSpec.models 4 (Stack.container s') ["a"; "c"]%char
           ∧ Stack.size (container_type:=CircularDeque_Container 4 false) s'
             = 2
           ∧ ∃ slot,
               Stack.top (container_type:=CircularDeque_Container 4 false) s'
               = Ok slot
               ∧ array_get (CircularDeque.elements (Stack.container s')) slot
                 = Ok "c"%char).
Proof.
  destruct (X14_stack_last_in_first_out ascii 4 false sample_calls [])
    as [Hlinear Hcircular].
  - lia.
  - unfold SIZE_MODULUS. lia.
  - reflexivity.
  - split.
    + destruct (Hlinear linear_none linear_none_models)
        as (s' & Hrun & Hm & Hsize & Htop).
      exists s'. split; [exact Hrun |]. split; [exact Hm |].
      split; [exact Hsize |]. apply Htop. reflexivity.
    + destruct (Hcircular circular_none circular_none_models)
        as (s' & Hrun & Hm & Hsize & Htop).
      exists s'. split; [exact Hrun |]. split; [exact Hm |].
      split; [exact Hsize |]. apply Htop. reflexivity.
Defined.

(** X15. A [Queue<T, N>] is first-in first-out: after any sequence of
    [push], [emplace] and [pop] calls every one of which returns, the
    underlying container holds what a bounded list would hold after
    appending on push and dropping the first element on pop, [size()]
    is its length, [front()] designates the slot holding its first
    element and [back()] the slot holding its last. Over a
    [CircularDeque] (FastQueue) the calls need only meet their
    documented preconditions, or none at all with CONTAINER_SAFETY;
    over the default linear [Deque], [pop] must moreover never be
    called while the queue is full. *)
Theorem X15_queue_first_in_first_out (T : Type) (capacity : Z)
    (CONTAINER_SAFETY : bool) (calls : list (adapter_call T))
    (l : list T) :
  0 < capacity → 2 * capacity ≤ SIZE_MODULUS →
  contract_kept (queue_model capacity)
    (within_contract capacity CONTAINER_SAFETY) calls l = true →
  let linear := Deque_Container (T:=T) capacity CONTAINER_SAFETY in
  let circular := CircularDeque_Container (T:=T) capacity CONTAINER_SAFETY in
  let l' := model_run (queue_model capacity) calls l in
  (∀ d, CircularDequeSpec.models capacity d l →
     ∃ q', call_each (queue_call (container_type:=circular)) calls
             (Queue.mk d) = Ok q'
           ∧ CircularDequeSpec.models capacity (Queue.container q') l'
           ∧ Queue.size (container_type:=circular) q' = Z.of_nat (length l')
           ∧ (∀ x, head l' = Some x →
                ∃ slot, Queue.front (container_type:=circular) q' = Ok slot
                  ∧ array_get (CircularDeque.elements (Queue.container q'))
                      slot = Ok x)
           ∧ (∀ x, last l' = Some x →
                ∃ slot, Queue.back (container_type:=circular) q' = Ok slot
                  ∧ array_get (CircularDeque.elements (Queue.container q'))
                      slot = Ok x))
  ∧ (∀ d, DequeSpec.models capacity d l →
       contract_kept (queue_model capacity) (pop_has_room capacity) calls l
         = true →
       ∃ q', call_each (queue_call (container_type:=linear)) calls
               (Queue.mk d) = Ok q'
             ∧ DequeSpec.models capacity (Queue.container q') l'
             ∧ Queue.size (container_type:=linear) q' = Z.of_nat (length l')
             ∧ (∀ x, head l' = Some x →
                  ∃ slot, Queue.front (container_type:=linear) q' = Ok slot
                    ∧ array_get (Deque.elements (Queue.container q')) slot
                      = Ok x)
             ∧ (∀ x, last l' = Some x →
                  ∃ slot, Queue.back (container_type:=linear) q' = Ok slot
                    ∧ array_get (Deque.elements (Queue.container q')) slot
                      = Ok x)).
Proof.
  intros Hpos Hfit Hkept linear circular l'. split.
  - intros d Hm.
    destruct (calls_refine
                (λ q, CircularDequeSpec.models capacity (Queue.container q))
                (queue_call (container_type:=circular))
                (queue_model capacity)
                (within_contract capacity CONTAINER_SAFETY)
                (circular_queue_step capacity CONTAINER_SAFETY Hpos Hfit)
                calls (Queue.mk d) l Hm Hkept) as (q' & Hrun & Hm').
    exists q'. split; [done |]. split; [done |]. split.
    { by destruct Hm' as (_ & Hcount & _). }
    split; intros x Hx.
    + by apply (circular_front_reads capacity Hpos Hfit _ l').
    + by apply (circular_back_reads capacity Hpos Hfit _ l').
  - intros d Hm Hroom.
    assert (contract_kept (queue_model capacity)
              (λ call l, within_contract capacity CONTAINER_SAFETY call l
                         && pop_has_room capacity call l) calls l = true)
      as Hboth.
    { clear Hm l'. revert l Hkept Hroom.
      induction calls as [| call rest IH]; intros l Hkept Hroom; [done |].
      simpl in *. apply andb_true_iff in Hkept as [-> Hkept].
      apply andb_true_iff in Hroom as [-> Hroom]. simpl. by apply IH. }
    destruct (calls_refine
                (λ q, DequeSpec.models capacity (Queue.container q))
                (queue_call (container_type:=linear))
                (queue_model capacity) _
                (linear_queue_step capacity CONTAINER_SAFETY Hpos Hfit)
                calls (Queue.mk d) l Hm Hboth) as (q' & Hrun & Hm').
    exists q'. split; [done |]. split; [done |]. split.
    { by destruct Hm' as (_ & Hcount & _). }
    split; intros x Hx.
    + by apply (linear_front_reads capacity Hpos Hfit _ l').
    + by apply (linear_back_reads capacity Hpos Hfit _ l').
Qed.
Lemma X15_queue_first_in_first_out_witness :
  (∃ q', call_each
           (queue_call (container_type:=CircularDeque_Container 4 false))
           sample_calls (Queue.mk circular_none) = Ok q'
         ∧ CircularDequeSpec.models 4 (Queue.container q') ["b"; "c"]%char
         ∧ Queue.size (container_type:=CircularDeque_Container 4 false) q'
           = 2
         ∧ (∃ slot,
              Queue.front (container_type:=CircularDeque_Container 4 false)
                q' = Ok slot
              ∧ array_get (CircularDeque.elements (Queue.container q')) slot
                = Ok "b"%char)
         ∧ (∃ slot,
              Queue.back (container_type:=CircularDeque_Container 4 false)
                q' = Ok slot
              ∧ array_get (CircularDeque.elements (Queue.container q')) slot
                = Ok "c"%char))
  ∧ (∃ q', call_each (queue_call (container_type:=Deque_Container 4 false))
             sample_calls (Queue.mk linear_none) = Ok q'
           ∧ DequeSpec.models 4 (Queue.container q') ["b"; "c"]%char
           ∧ Queue.size (container_type:=Deque_Container 4 false) q' = 2
           ∧ (∃ slot,
                Queue.front (container_type:=Deque_Container 4 false) q'
                = Ok slot
                ∧ array_get (Deque.elements (Queue.container q')) slot
                  = Ok "b"%char)
           ∧ (∃ slot,
                Queue.back (container_type:=Deque_Container 4 false) q'
                = Ok slot
                ∧ array_get (Deque.elements (Queue.container q')) slot
                  = Ok "c"%char)).
Proof.
  destruct (X15_queue_first_in_first_out ascii 4 false sample_calls [])
    as [Hcircular Hlinear].
  - lia.
  - unfold SIZE_MODULUS. lia.
  - reflexivity.
  - split.
    + destruct (Hcircular circular_none circular_none_models)
        as (q' & Hrun & Hm & Hsize & Hfront & Hback).
      exists q'. split; [exact Hrun |]. split; [exact Hm |].
      split; [exact Hsize |].
      split; [apply Hfront | apply Hback]; reflexivity.
    + destruct (Hlinear linear_none linear_none_models)
        as (q' & Hrun & Hm & Hsize & Hfront & Hback); [reflexivity |].
      exists q'. split; [exact Hrun |]. split; [exact Hm |].
      split; [exact Hsize |].
      split; [apply Hfront | apply Hback]; reflexivity.
Defined.
End AdapterOrder.

(** ** Persistent memory: wear and the cells a write leaves alone *)

Module EepromMoreFacts.
Import Eeprom EepromOverwrite EepromFacts.

Implicit Types (e : t) (addr : Z) (bytes : list Z).

Lemma read_update_bytes_outside bytes e dst addr :
  addr < dst ∨ dst + Z.of_nat (length bytes) ≤ addr →
  eeprom_read_byte (update_bytes bytes dst e) addr = eeprom_read_byte e addr.
Proof.
  revert e dst. induction bytes as [| b rest IH]; intros e dst Hout; simpl;
    [done |].
  simpl in Hout. rewrite IH by lia. apply read_update_byte_ne. lia.
Qed.

Lemma read_write_bytes_outside bytes e dst addr :
  addr < dst ∨ dst + Z.of_nat (length bytes) ≤ addr →
  eeprom_read_byte (write_bytes bytes dst e) addr = eeprom_read_byte e addr.
Proof.
  revert e dst. induction bytes as [| b rest IH]; intros e dst Hout; simpl;
    [done |].
  simpl in Hout. rewrite IH by lia. apply read_write_byte_ne. lia.
Qed.

Lemma read_write_bytes bytes e dst :
  Forall is_byte bytes →
  eeprom_read_block (write_bytes bytes dst e) dst (Z.of_nat (length bytes))
  = bytes.
Proof.
  intros Hbytes. revert e dst.
  induction Hbytes as [| b rest Hb _ IH]; intros e dst; [done |].
  change (length (b :: rest)) with (S (length rest)).
  rewrite read_block_cons. simpl. f_equal.
  - rewrite read_write_bytes_outside by lia.
    rewrite read_write_byte_eq. apply Z.mod_small, Hb.
  - apply IH.
Qed.

Lemma wear_write_bytes bytes e dst :
  wear (write_bytes bytes dst e) = wear e + Z.of_nat (length bytes).
Proof.
  revert e dst. induction bytes as [| b rest IH]; intros e dst; simpl;
    [lia |].
  rewrite IH. simpl. lia.
Qed.

Lemma read_block_ext e e' src (n : nat) :
  (∀ addr, src ≤ addr < src + Z.of_nat n →
     eeprom_read_byte e addr = eeprom_read_byte e' addr) →
  eeprom_read_block e src (Z.of_nat n) = eeprom_read_block e' src (Z.of_nat n).
Proof.
  intros Hsame. rewrite !read_block_bytes. apply list_fmap_ext.
  intros i x Hx. apply lookup_seq in Hx as [-> Hlt]. apply Hsame. lia.
Qed.

Lemma wear_update_bytes bytes e dst :
  Forall is_byte bytes →
  wear (update_bytes bytes dst e)
  = wear e
    + differing (eeprom_read_block e dst (Z.of_nat (length bytes))) bytes.
Proof.
  intros Hbytes. revert e dst.
  induction Hbytes as [| b rest Hb _ IH]; intros e dst; [simpl; lia |].
  change (length (b :: rest)) with (S (length rest)).
  rewrite read_block_cons. simpl. rewrite IH.
  rewrite (read_block_ext (eeprom_update_byte dst b e) e (dst + 1))
    by (intros addr Haddr; apply read_update_byte_ne; lia).
  unfold eeprom_update_byte. rewrite (Z.mod_small b) by apply Hb.
  destruct (eeprom_read_byte e dst =? b); simpl; lia.
Qed.

Lemma differing_bounds (old new : list Z) :
  0 ≤ differing old new ≤ Z.of_nat (length new).
Proof.
  revert new. induction old as [| o old' IH]; intros [| n new']; simpl;
    try lia.
  specialize (IH new'). destruct (o =? n); lia.
Qed.

Section Typed.
Context {T : Type} `{TriviallyCopyableLaws T}.

(** What [write_eeprom] does, whichever overload is selected: it
    writes the [sizeof] cells of the object with its bytes. *)
Lemma write_eeprom_bytes (destination : Z) (v : T) e :
  selects_byte_helper = false →
  write_eeprom destination v e
  = WellFormed (write_bytes (to_bytes v) destination e).
Proof.
  intros Hselect.
  pose proof (to_bytes_length v) as Hlen.
  pose proof (to_bytes_range v) as Hrange.
  pose proof sizeof_kind as Hkind.
  assert (Hblock : ∀ n : nat, length (to_bytes v) = n →
            eeprom_write_block (le_split n (le_combine (to_bytes v)))
              destination (Z.of_nat n) e
            = write_bytes (to_bytes v) destination e).
  { intros n <-. rewrite le_split_combine by done.
    unfold eeprom_write_block. by rewrite Nat2Z.id, firstn_all. }
  assert (Hbyte : sizeof = 1 →
            eeprom_write_byte destination (le_combine (to_bytes v)) e
            = write_bytes (to_bytes v) destination e
            ∧ eeprom_write_byte destination (hd 0 (to_bytes v)) e
              = write_bytes (to_bytes v) destination e).
  { intros Hone. destruct (one_byte v Hone) as (b & -> & Hb). simpl.
    by rewrite Z.mul_0_r, Z.add_0_r. }
  unfold selects_byte_helper in Hselect.
  unfold write_eeprom, write_eeprom_helper, eeprom_write_word,
    eeprom_write_dword, eeprom_write_float.
  destruct kind; simpl in Hkind;
    try (f_equal; by apply Hbyte);
    try (f_equal; by apply (Hblock 2%nat); lia);
    try (f_equal; by apply (Hblock 4%nat); lia).
  - rewrite Hkind. simpl. f_equal. unfold eeprom_write_block.
    rewrite <- Hkind, <- Hlen. by rewrite Nat2Z.id, firstn_all.
  - rewrite Hselect. f_equal. unfold eeprom_write_block.
    rewrite <- Hlen. by rewrite Nat2Z.id, firstn_all.
Qed.

Lemma write_eeprom_ill_formed (destination : Z) (v : T) e :
  selects_byte_helper = true → write_eeprom destination v e = IllFormed.
Proof.
  unfold selects_byte_helper, write_eeprom, write_eeprom_helper.
  destruct kind; try done. by intros ->.
Qed.

(** [read_eeprom] looks at the [sizeof] cells of the object only. *)
Lemma read_eeprom_ext (object : Z) e e' :
  (∀ addr, object ≤ addr < object + sizeof →
     eeprom_read_byte e addr = eeprom_read_byte e' addr) →
  read_eeprom (T:=T) e object = read_eeprom e' object.
Proof.
  intros Hsame. pose proof sizeof_kind as Hkind.
  assert (Hblock : ∀ n : nat, sizeof = Z.of_nat n →
            eeprom_read_block e object (Z.of_nat n)
            = eeprom_read_block e' object (Z.of_nat n)).
  { intros n Hn. apply read_block_ext. intros addr Haddr.
    apply Hsame. lia. }
  assert (Hbyte : 0 < sizeof →
            eeprom_read_byte e object = eeprom_read_byte e' object).
  { intros Hpos. apply Hsame. lia. }
  unfold read_eeprom, read_eeprom_helper, eeprom_read_word,
    eeprom_read_dword, eeprom_read_float, eeprom_read_ptr.
  destruct kind; simpl in Hkind;
    try (by rewrite Hbyte by lia);
    try (by change 2 with (Z.of_nat 2); rewrite (Hblock 2%nat) by lia);
    try (by change 4 with (Z.of_nat 4); rewrite (Hblock 4%nat) by lia).
  destruct (Z.eqb_spec sizeof 1) as [Hone | Hmany]; [done |].
  by rewrite <- (Z2Nat.id sizeof), (Hblock (Z.to_nat sizeof)) by lia.
Qed.
End Typed.

End EepromMoreFacts.

Section EepromWrites.
Import Eeprom EepromOverwrite EepromFacts EepromMoreFacts.

(** X16. [overwriteEeprom(destination, source)] stores the object so
    that [readEeprom] returns it, always writes every one of its
    [sizeof(Type)] bytes, whatever the cells held before, so the wear
    grows by exactly [sizeof(Type)], and changes no cell outside the
    object. That is so for every trivially copyable type but the
    one-byte types other than [char], [uint8_t] and [int8_t]: for
    those the call is ill-formed. *)
Theorem X16_overwrite_always_writes (T : Type) `{TriviallyCopyableLaws T}
    (object : Z) (v : T) (e : Eeprom.t) :
  (selects_byte_helper = true → overwriteEeprom object v e = IllFormed)
  ∧ (selects_byte_helper = false →
     ∃ e', overwriteEeprom object v e = WellFormed e'
       ∧ readEeprom e' object = WellFormed v
       ∧ wear e' = wear e + sizeof
       ∧ ∀ addr, addr < object ∨ object + sizeof ≤ addr →
           eeprom_read_byte e' addr = eeprom_read_byte e addr).
Proof.
  unfold overwriteEeprom, readEeprom. split.
  { apply write_eeprom_ill_formed. }
  intros Hselect. rewrite write_eeprom_bytes by done.
  eexists. split; [done |].
  pose proof (to_bytes_length v) as Hlen.
  pose proof (to_bytes_range v) as Hrange.
  split; [| split].
  - assert (eeprom_read_block (write_bytes (to_bytes v) object e) object
              sizeof = to_bytes v) as Hread.
    { rewrite <- Hlen. by apply read_write_bytes. }
    rewrite read_eeprom_bytes; rewrite ?Hread; try done.
    by rewrite from_to_bytes.
  - rewrite wear_write_bytes. lia.
  - intros addr Hout. apply read_write_bytes_outside. lia.
Qed.

Lemma X16_overwrite_always_writes_witness :
  overwriteEeprom 900 true (Eeprom.mk {[900 := 72]} 1) = IllFormed
  ∧ ∃ e', overwriteEeprom 900 "H"%char (Eeprom.mk {[900 := 72]} 1)
          = WellFormed e'
      ∧ readEeprom e' 900 = WellFormed "H"%char
      ∧ wear e' = wear (Eeprom.mk {[900 := 72]} 1) + sizeof
      ∧ ∀ addr, addr < 900 ∨ 900 + sizeof ≤ addr →
          eeprom_read_byte e' addr
          = eeprom_read_byte (Eeprom.mk {[900 := 72]} 1) addr.
Proof.
  split.
  - apply (X16_overwrite_always_writes bool
             (H0 := bool_TriviallyCopyableLaws) 900 true
             (Eeprom.mk {[900 := 72]} 1)).
    reflexivity.
  - apply (X16_overwrite_always_writes ascii
             (H0 := char_TriviallyCopyableLaws) 900 "H"%char
             (Eeprom.mk {[900 := 72]} 1)).
    reflexivity.
Defined.

(** X17. [writeEeprom(destination, source)] wears the EEPROM by exactly
    the number of bytes of the object that differ from what the cells
    hold, so by at most [sizeof(Type)], and changes no cell outside the
    object. That is so for every trivially copyable type but the
    one-byte types other than [char], [uint8_t] and [int8_t]: for
    those the call is ill-formed. *)
Theorem X17_write_wears_changed_bytes (T : Type) `{TriviallyCopyableLaws T}
    (object : Z) (v : T) (e : Eeprom.t) :
  (selects_byte_helper = true → writeEeprom object v e = IllFormed)
  ∧ (selects_byte_helper = false →
     ∃ e', writeEeprom object v e = WellFormed e'
       ∧ wear e'
         = wear e
           + differing (eeprom_read_block e object sizeof) (to_bytes v)
       ∧ wear e ≤ wear e' ≤ wear e + sizeof
       ∧ ∀ addr, addr < object ∨ object + sizeof ≤ addr →
           eeprom_read_byte e' addr = eeprom_read_byte e addr).
Proof.
  unfold writeEeprom. split.
  { intros Hselect. by apply byte_helper_ill_formed. }
  intros Hselect. rewrite update_eeprom_bytes by done.
  eexists. split; [done |].
  pose proof (to_bytes_length v) as Hlen.
  pose proof (to_bytes_range v) as Hrange.
  rewrite wear_update_bytes, Hlen by done.
  pose proof (differing_bounds (eeprom_read_block e object sizeof)
                (to_bytes v)) as Hbounds.
  split; [done |]. split; [lia |].
  intros addr Hout. apply read_update_bytes_outside. lia.
Qed.

Lemma X17_write_wears_changed_bytes_witness :
  writeEeprom 900 true (Eeprom.mk {[900 := 71]} 1) = IllFormed
  ∧ ∃ e', writeEeprom 900 "H"%char (Eeprom.mk {[900 := 71]} 1)
          = WellFormed e'
      ∧ wear e'
        = wear (Eeprom.mk {[900 := 71]} 1)
          + differing
              (eeprom_read_block (Eeprom.mk {[900 := 71]} 1) 900 sizeof)
              (to_bytes "H"%char)
      ∧ wear (Eeprom.mk {[900 := 71]} 1) ≤ wear e'
        ≤ wear (Eeprom.mk {[900 := 71]} 1) + sizeof
      ∧ ∀ addr, addr < 900 ∨ 900 + sizeof ≤ addr →
          eeprom_read_byte e' addr
          = eeprom_read_byte (Eeprom.mk {[900 := 71]} 1) addr.
Proof.
  split.
  - apply (X17_write_wears_changed_bytes bool
             (H0 := bool_TriviallyCopyableLaws) 900 true
             (Eeprom.mk {[900 := 71]} 1)).
    reflexivity.
  - apply (X17_write_wears_changed_bytes ascii
             (H0 := char_TriviallyCopyableLaws) 900 "H"%char
             (Eeprom.mk {[900 := 71]} 1)).
    reflexivity.
Defined.

(** X18. Objects stored in disjoint ranges of the EEPROM do not
    disturb each other: after a [writeEeprom] or an [overwriteEeprom]
    of an object of a type for which the call is well-formed,
    [readEeprom] of any other object whose bytes do not overlap it
    gives what it gave before. *)
Theorem X18_disjoint_objects_independent (T U : Type)
    `{TriviallyCopyableLaws T} `{TriviallyCopyableLaws U}
    (object other : Z) (v : T) (e : Eeprom.t) :
  @selects_byte_helper T _ = false →
  object + @sizeof T _ ≤ other ∨ other + @sizeof U _ ≤ object →
  (∃ e', writeEeprom object v e = WellFormed e'
     ∧ @readEeprom U _ e' other = readEeprom e other)
  ∧ (∃ e', overwriteEeprom object v e = WellFormed e'
       ∧ @readEeprom U _ e' other = readEeprom e other).
Proof.
  intros Hselect Hdisjoint.
  unfold readEeprom, writeEeprom, overwriteEeprom.
  rewrite update_eeprom_bytes, write_eeprom_bytes by done.
  pose proof (to_bytes_length v) as Hlen.
  split; (eexists; split; [done |]); apply read_eeprom_ext;
    intros addr Haddr.
  - apply read_update_bytes_outside. lia.
  - apply read_write_bytes_outside. lia.
Qed.

Lemma X18_disjoint_objects_independent_witness :
  (∃ e', writeEeprom 901 "i"%char (Eeprom.mk {[902 := 33]} 1)
         = WellFormed e'
     ∧ @readEeprom ascii _ e' 902
       = readEeprom (Eeprom.mk {[902 := 33]} 1) 902)
  ∧ (∃ e', overwriteEeprom 901 "i"%char (Eeprom.mk {[902 := 33]} 1)
           = WellFormed e'
       ∧ @readEeprom ascii _ e' 902
         = readEeprom (Eeprom.mk {[902 := 33]} 1) 902).
Proof.
  apply (X18_disjoint_objects_independent ascii ascii
           (H0 := char_TriviallyCopyableLaws)
           (H2 := char_TriviallyCopyableLaws) 901 902 "i"%char
           (Eeprom.mk {[902 := 33]} 1)).
  - reflexivity.
  - left. simpl. lia.
Defined.
End EepromWrites.

(** ** Arrays in persistent memory *)

Module EepromArrayFacts.
Import Eeprom EepromOverwrite EepromFacts EepromMoreFacts.

Implicit Types (e : Eeprom.t) (addr : Z) (bytes : list Z).

Lemma read_block_app e src (n m : nat) :
  eeprom_read_block e src (Z.of_nat (n + m))
  = eeprom_read_block e src (Z.of_nat n)
    ++ eeprom_read_block e (src + Z.of_nat n) (Z.of_nat m).
Proof.
  revert src. induction n as [| n IH]; intros src.
  - simpl. by rewrite Z.add_0_r.
  - change (S n + m)%nat with (S (n + m)).
    rewrite !read_block_cons, IH. simpl. do 3 f_equal. lia.
Qed.

(** A run of bytes inside an updated block reads back. *)
Lemma read_inside_update (before bytes after : list Z) e dst :
  Forall is_byte (before ++ bytes ++ after) →
  eeprom_read_block (update_bytes (before ++ bytes ++ after) dst e)
    (dst + Z.of_nat (length before)) (Z.of_nat (length bytes))
  = bytes.
Proof.
  intros Hrange.
  pose proof (read_update_bytes _ e dst Hrange) as Hread.
  rewrite !length_app, !read_block_app in Hread.
  apply app_inj_1 in Hread as [_ Hread];
    [| unfold eeprom_read_block; by rewrite length_fmap, length_seqZ, Nat2Z.id].
  apply app_inj_1 in Hread as [Hread _];
    [done
    | unfold eeprom_read_block; by rewrite length_fmap, length_seqZ, Nat2Z.id].
Qed.

(** A run of bytes inside a written block reads back. *)
Lemma read_inside_write (before bytes after : list Z) e dst :
  Forall is_byte (before ++ bytes ++ after) →
  eeprom_read_block (write_bytes (before ++ bytes ++ after) dst e)
    (dst + Z.of_nat (length before)) (Z.of_nat (length bytes))
  = bytes.
Proof.
  intros Hrange.
  pose proof (read_write_bytes _ e dst Hrange) as Hread.
  rewrite !length_app, !read_block_app in Hread.
  apply app_inj_1 in Hread as [_ Hread];
    [| unfold eeprom_read_block; by rewrite length_fmap, length_seqZ, Nat2Z.id].
  apply app_inj_1 in Hread as [Hread _];
    [done
    | unfold eeprom_read_block; by rewrite length_fmap, length_seqZ, Nat2Z.id].
Qed.

Section Typed.
Context {T : Type} `{TriviallyCopyableLaws T}.

Lemma array_bytes_cons (v : T) (vs : list T) :
  array_bytes (v :: vs) = to_bytes v ++ array_bytes vs.
Proof. done. Qed.

Lemma array_bytes_length (vs : list T) :
  Z.of_nat (length (array_bytes vs)) = sizeof * Z.of_nat (length vs).
Proof.
  induction vs as [| v vs IH]; [simpl; lia |].
  rewrite array_bytes_cons, length_app, Nat2Z.inj_add, IH,
    (to_bytes_length v).
  simpl. lia.
Qed.

Lemma array_bytes_range (vs : list T) : Forall is_byte (array_bytes vs).
Proof.
  induction vs as [| v vs IH]; [by constructor |].
  rewrite array_bytes_cons.
  apply Forall_app. split; [apply to_bytes_range | done].
Qed.

Lemma array_bytes_app (vs ws : list T) :
  array_bytes (vs ++ ws) = array_bytes vs ++ array_bytes ws.
Proof. unfold array_bytes. by rewrite fmap_app, concat_app. Qed.

(** Every element of an array written with [writeEeprom] reads back. *)
Lemma read_element_after_write (vs : list T) (destination : Z) e
    (i : nat) (x : T) :
  selects_byte_helper = false →
  vs !! i = Some x →
  readEeprom
    (writeEeprom_array (Z.of_nat (length vs)) destination vs e)
    (destination + Z.of_nat i * sizeof) = WellFormed x.
Proof.
  intros Hselect Hx. apply list_elem_of_split_length in Hx as (vs1 & vs2 & -> & ->).
  unfold writeEeprom_array, update_eeprom_array, eeprom_update_block.
  rewrite <- array_bytes_length, Nat2Z.id, firstn_all.
  pose proof (array_bytes_range (vs1 ++ x :: vs2)) as Hrange.
  rewrite (array_bytes_app vs1 (x :: vs2)) in Hrange |- *.
  rewrite (array_bytes_cons x vs2) in Hrange |- *.
  pose proof (read_inside_update _ _ _ e destination Hrange) as Hread.
  rewrite array_bytes_length, (to_bytes_length x) in Hread.
  replace (Z.of_nat (length vs1) * sizeof)
    with (sizeof * Z.of_nat (length vs1)) by lia.
  unfold readEeprom. rewrite read_eeprom_bytes; rewrite ?Hread; try done.
  - by rewrite from_to_bytes.
  - apply to_bytes_range.
Qed.

(** Every element of an array written with [overwriteEeprom] reads
    back. *)
Lemma read_element_after_overwrite (vs : list T) (destination : Z) e
    (i : nat) (x : T) :
  selects_byte_helper = false →
  vs !! i = Some x →
  readEeprom
    (overwriteEeprom_array (Z.of_nat (length vs)) destination vs e)
    (destination + Z.of_nat i * sizeof) = WellFormed x.
Proof.
  intros Hselect Hx. apply list_elem_of_split_length in Hx as (vs1 & vs2 & -> & ->).
  unfold overwriteEeprom_array, write_eeprom_array, eeprom_write_block.
  rewrite <- array_bytes_length, Nat2Z.id, firstn_all.
  pose proof (array_bytes_range (vs1 ++ x :: vs2)) as Hrange.
  rewrite (array_bytes_app vs1 (x :: vs2)) in Hrange |- *.
  rewrite (array_bytes_cons x vs2) in Hrange |- *.
  pose proof (read_inside_write _ _ _ e destination Hrange) as Hread.
  rewrite array_bytes_length, (to_bytes_length x) in Hread.
  replace (Z.of_nat (length vs1) * sizeof)
    with (sizeof * Z.of_nat (length vs1)) by lia.
  unfold readEeprom. rewrite read_eeprom_bytes; rewrite ?Hread; try done.
  - by rewrite from_to_bytes.
  - apply to_bytes_range.
Qed.

Lemma iterate_reads (capacity : Z) (a : EepromArray.t) e (vs : list T) :
  0 < sizeof →
  Z.of_nat (length vs) = capacity →
  (∀ (i : nat) (x : T), vs !! i = Some x →
     readEeprom e (EepromArray.elements a + Z.of_nat i * sizeof)
     = WellFormed x) →
  ∀ (k fuel : nat), (length vs - k < fuel)%nat → (k ≤ length vs)%nat →
    EepromArrayElements.iterate fuel e
      (EepromPointer.mk (EepromArray.elements a + Z.of_nat k * sizeof))
      (EepromArrayElements.cend capacity a)
    = WellFormed (Ok (drop k vs)).
Proof.
  intros Hsize Hlen Hread k fuel. revert k.
  induction fuel as [| fuel IH]; intros k Hfuel Hk; [lia |].
  simpl. unfold EepromPointer.neqb, EepromArrayElements.cend,
    EepromArrayElements.element_address. simpl.
  destruct (Z.eqb_spec (EepromArray.elements a + Z.of_nat k * sizeof)
              (EepromArray.elements a + capacity * sizeof)) as [Heq | Hne].
  - assert (k = length vs) as -> by nia. by rewrite drop_all.
  - assert (k < length vs)%nat as Hlt by (destruct (decide (k = length vs)); [subst; lia | lia]).
    destruct (lookup_lt_is_Some_2 vs k Hlt) as [x Hx].
    simpl. unfold EepromPointer.increment. simpl.
    replace (EepromArray.elements a + Z.of_nat k * sizeof + sizeof)
      with (EepromArray.elements a + Z.of_nat (S k) * sizeof) by lia.
    rewrite IH by lia.
    unfold EepromReference.read, EepromPointer.deref. simpl.
    rewrite (Hread k x Hx). simpl. by rewrite (drop_S _ _ _ Hx).
Qed.

(** No element of a one-byte type other than the character types can
    be read. *)
Lemma read_element_ill_formed (a : EepromArray.t) e (index : Z) :
  selects_byte_helper = true →
  EepromReference.read (T:=T) (EepromArrayElements.at_index a index) e
  = IllFormed.
Proof.
  intros Hselect. unfold EepromReference.read, readEeprom.
  by destruct (byte_helper_ill_formed
                 (EepromReference.pointer
                    (EepromArrayElements.at_index a index))
                 (from_bytes []) e Hselect) as [_ Hread].
Qed.
End Typed.

End EepromArrayFacts.

Section EepromArrays.
Import Eeprom EepromOverwrite EepromFacts EepromMoreFacts EepromArrayFacts.

(** X19. After [writeEeprom(destination, source)] of a whole array of
    [N] elements, an [EepromArray<Type, N>] over the destination reads
    every element back: [array[i]] converts to element [i] of the
    source, [front()] and [back()] to its first and last element, and
    walking an [EepromPointer] from [cbegin()] to [cend()] reads the
    elements in order and stops after [N] steps. The wear grows by at
    most [N * sizeof(Type)]. The reads are those of [readEeprom]: for
    a one-byte element type other than [char], [uint8_t] and [int8_t]
    the array is still written, but converting any of its elements is
    ill-formed. *)
Theorem X19_eeprom_array_round_trip (T : Type) `{TriviallyCopyableLaws T}
    (capacity : Z) (a : EepromArray.t) (vs : list T) (e : Eeprom.t) :
  Z.of_nat (length vs) = capacity → capacity < SIZE_MODULUS →
  let e' := writeEeprom_array capacity (EepromArray.elements a) vs e in
  wear e ≤ wear e' ≤ wear e + capacity * sizeof
  ∧ (selects_byte_helper = true →
     ∀ index, EepromReference.read (T:=T)
                (EepromArrayElements.at_index a index) e' = IllFormed)
  ∧ (selects_byte_helper = false →
     (∀ (i : nat) (x : T), vs !! i = Some x →
        EepromReference.read (EepromArrayElements.at_index a (Z.of_nat i)) e'
        = WellFormed x)
     ∧ EepromArrayElements.contents capacity a e' = WellFormed (Ok vs)
     ∧ (∀ x, head vs = Some x →
          EepromReference.read (EepromArrayElements.front a) e'
          = WellFormed x)
     ∧ (∀ x, last vs = Some x →
          EepromReference.read (EepromArrayElements.back capacity a) e'
          = WellFormed x)).
Proof.
  intros Hlen Hfit e'.
  assert (0 < sizeof) as Hsize.
  { pose proof sizeof_kind as Hkind. destruct kind; simpl in Hkind; lia. }
  split; [| split].
  { unfold e', writeEeprom_array, update_eeprom_array, eeprom_update_block.
    rewrite <- Hlen, <- array_bytes_length, Nat2Z.id, firstn_all.
    rewrite wear_update_bytes by apply array_bytes_range.
    pose proof (differing_bounds
                  (eeprom_read_block e (EepromArray.elements a)
                     (Z.of_nat (length (array_bytes vs))))
                  (array_bytes vs)) as Hbounds.
    rewrite array_bytes_length in Hbounds |- *. lia. }
  { intros Hselect index. by apply read_element_ill_formed. }
  intros Hselect.
  assert (Hread : ∀ (i : nat) (x : T), vs !! i = Some x →
            readEeprom e' (EepromArray.elements a + Z.of_nat i * sizeof)
            = WellFormed x).
  { intros i x Hx. unfold e'. rewrite <- Hlen.
    by apply read_element_after_write. }
  split; [exact Hread |]. split.
  { unfold EepromArrayElements.contents, EepromArrayElements.cbegin,
      EepromArrayElements.element_address.
    pose proof (iterate_reads capacity a e' vs Hsize Hlen Hread 0 LOOP_FUEL)
      as Hwalk.
    change (Z.of_nat 0) with 0 in Hwalk. rewrite drop_0 in Hwalk.
    apply Hwalk; [| lia].
    pose proof loop_fuel_value. lia. }
  split.
  - intros x Hx. rewrite head_lookup in Hx. by apply (Hread 0%nat).
  - intros x Hx. apply last_is_lookup in Hx.
    pose proof (lookup_lt_Some _ _ _ Hx) as Hlt.
    unfold EepromArrayElements.back.
    rewrite wrap_small by (unfold SIZE_MODULUS in *; lia).
    replace (capacity - 1) with (Z.of_nat (length vs - 1)) by lia.
    by apply Hread.
Qed.

Lemma X19_eeprom_array_round_trip_witness :
  (∀ index,
     EepromReference.read (T:=bool)
       (EepromArrayElements.at_index (EepromArray.mk 100) index)
       (writeEeprom_array 2 100 [true; false] (Eeprom.mk ∅ 0))
     = IllFormed)
  ∧ (∀ (i : nat) (x : ascii), ["a"; "b"; "c"]%char !! i = Some x →
       EepromReference.read
         (EepromArrayElements.at_index (EepromArray.mk 100) (Z.of_nat i))
         (writeEeprom_array 3 100 ["a"; "b"; "c"]%char (Eeprom.mk ∅ 0))
       = WellFormed x)
  ∧ EepromArrayElements.contents 3 (EepromArray.mk 100)
      (writeEeprom_array 3 100 ["a"; "b"; "c"]%char (Eeprom.mk ∅ 0))
    = WellFormed (Ok ["a"; "b"; "c"]%char)
  ∧ wear (Eeprom.mk ∅ 0)
    ≤ wear (writeEeprom_array 3 100 ["a"; "b"; "c"]%char (Eeprom.mk ∅ 0))
    ≤ wear (Eeprom.mk ∅ 0) + 3 * sizeof.
Proof.
  destruct (X19_eeprom_array_round_trip bool
              (H0 := bool_TriviallyCopyableLaws) 2 (EepromArray.mk 100)
              [true; false] (Eeprom.mk ∅ 0))
    as (_ & Hbool & _); [reflexivity | unfold SIZE_MODULUS; lia |].
  destruct (X19_eeprom_array_round_trip ascii
              (H0 := char_TriviallyCopyableLaws) 3 (EepromArray.mk 100)
              ["a"; "b"; "c"]%char (Eeprom.mk ∅ 0))
    as (Hwear & _ & Hchar); [reflexivity | unfold SIZE_MODULUS; lia |].
  destruct (Hchar eq_refl) as (Hread & Hwalk & _).
  split; [exact (Hbool eq_refl) |].
  split; [exact Hread |]. split; [exact Hwalk | exact Hwear].
Defined.

(** X28. [overwriteEeprom(destination, source)] of a whole array of [N]
    elements writes every byte of it: the wear grows by exactly
    [N * sizeof(Type)] whatever the cells held, and no cell outside
    the array changes. Every element reads back through an
    [EepromArray<Type, N>] over the destination, by index and by
    iteration, unless the element type is a one-byte type other than
    [char], [uint8_t] and [int8_t], for which converting an element is
    ill-formed. *)
Theorem X28_eeprom_array_overwrite (T : Type) `{TriviallyCopyableLaws T}
    (capacity : Z) (a : EepromArray.t) (vs : list T) (e : Eeprom.t) :
  Z.of_nat (length vs) = capacity → capacity < SIZE_MODULUS →
  let e' := overwriteEeprom_array capacity (EepromArray.elements a) vs e in
  wear e' = wear e + capacity * sizeof
  ∧ (∀ addr, addr < EepromArray.elements a
             ∨ EepromArray.elements a + capacity * sizeof ≤ addr →
       eeprom_read_byte e' addr = eeprom_read_byte e addr)
  ∧ (selects_byte_helper = true →
     ∀ index, EepromReference.read (T:=T)
                (EepromArrayElements.at_index a index) e' = IllFormed)
  ∧ (selects_byte_helper = false →
     (∀ (i : nat) (x : T), vs !! i = Some x →
        EepromReference.read (EepromArrayElements.at_index a (Z.of_nat i)) e'
        = WellFormed x)
     ∧ EepromArrayElements.contents capacity a e' = WellFormed (Ok vs)).
Proof.
  intros Hlen Hfit e'.
  assert (0 < sizeof) as Hsize.
  { pose proof sizeof_kind as Hkind. destruct kind; simpl in Hkind; lia. }
  assert (e' = write_bytes (array_bytes vs) (EepromArray.elements a) e)
    as Hbytes.
  { unfold e', overwriteEeprom_array, write_eeprom_array, eeprom_write_block.
    by rewrite <- Hlen, <- array_bytes_length, Nat2Z.id, firstn_all. }
  split; [| split; [| split]].
  - rewrite Hbytes, wear_write_bytes, array_bytes_length. lia.
  - intros addr Hout. rewrite Hbytes. apply read_write_bytes_outside.
    rewrite array_bytes_length. lia.
  - intros Hselect index. by apply read_element_ill_formed.
  - intros Hselect.
    assert (Hread : ∀ (i : nat) (x : T), vs !! i = Some x →
              readEeprom e' (EepromArray.elements a + Z.of_nat i * sizeof)
              = WellFormed x).
    { intros i x Hx. unfold e'. rewrite <- Hlen.
      by apply read_element_after_overwrite. }
    split; [exact Hread |].
    unfold EepromArrayElements.contents, EepromArrayElements.cbegin,
      EepromArrayElements.element_address.
    pose proof (iterate_reads capacity a e' vs Hsize Hlen Hread 0 LOOP_FUEL)
      as Hwalk.
    change (Z.of_nat 0) with 0 in Hwalk. rewrite drop_0 in Hwalk.
    apply Hwalk; [| lia].
    pose proof loop_fuel_value. lia.
Qed.

Lemma X28_eeprom_array_overwrite_witness :
  (∀ index,
     EepromReference.read (T:=bool)
       (EepromArrayElements.at_index (EepromArray.mk 100) index)
       (overwriteEeprom_array 2 100 [true; false] (Eeprom.mk ∅ 0))
     = IllFormed)
  ∧ (∀ (i : nat) (x : ascii), ["a"; "b"; "c"]%char !! i = Some x →
       EepromReference.read
         (EepromArrayElements.at_index (EepromArray.mk 100) (Z.of_nat i))
         (overwriteEeprom_array 3 100 ["a"; "b"; "c"]%char (Eeprom.mk ∅ 0))
       = WellFormed x)
  ∧ EepromArrayElements.contents 3 (EepromArray.mk 100)
      (overwriteEeprom_array 3 100 ["a"; "b"; "c"]%char (Eeprom.mk ∅ 0))
    = WellFormed (Ok ["a"; "b"; "c"]%char)
  ∧ wear (overwriteEeprom_array 3 100 ["a"; "b"; "c"]%char (Eeprom.mk ∅ 0))
    = wear (Eeprom.mk ∅ 0) + 3 * sizeof.
Proof.
  destruct (X28_eeprom_array_overwrite bool
              (H0 := bool_TriviallyCopyableLaws) 2 (EepromArray.mk 100)
              [true; false] (Eeprom.mk ∅ 0))
    as (_ & _ & Hbool & _); [reflexivity | unfold SIZE_MODULUS; lia |].
  destruct (X28_eeprom_array_overwrite ascii
              (H0 := char_TriviallyCopyableLaws) 3 (EepromArray.mk 100)
              ["a"; "b"; "c"]%char (Eeprom.mk ∅ 0))
    as (Hwear & _ & _ & Hchar); [reflexivity | unfold SIZE_MODULUS; lia |].
  destruct (Hchar eq_refl) as (Hread & Hwalk).
  split; [exact (Hbool eq_refl) |].
  split; [exact Hread |]. split; [exact Hwalk | exact Hwear].
Defined.
End EepromArrays.

(** ** Program memory: reading what was flashed *)

Module ProgmemFacts.
Import Eeprom Progmem EepromFacts.

Implicit Types (m : Progmem.t) (addr : Z) (bytes : list Z).

Lemma pgm_read_byte_range m addr : is_byte (pgm_read_byte m addr).
Proof. unfold is_byte, pgm_read_byte. Z.div_mod_to_equations. lia. Qed.

Lemma memcpy_P_length m src (n : Z) :
  length (memcpy_P m src n) = Z.to_nat n.
Proof. unfold memcpy_P. by rewrite length_fmap, length_seqZ. Qed.

Lemma memcpy_P_range m src (n : Z) : Forall is_byte (memcpy_P m src n).
Proof.
  unfold memcpy_P. apply Forall_fmap, Forall_forall.
  intros i _. apply pgm_read_byte_range.
Qed.

Lemma memcpy_P_bytes m src (n : nat) :
  memcpy_P m src (Z.of_nat n)
  = (λ i : nat, pgm_read_byte m (src + Z.of_nat i)) <$> seq 0 n.
Proof.
  unfold memcpy_P, seqZ. rewrite Nat2Z.id, <- list_fmap_compose.
  apply list_fmap_ext. intros i x _. simpl. f_equal. lia.
Qed.

Lemma memcpy_P_cons m src (n : nat) :
  memcpy_P m src (Z.of_nat (S n))
  = pgm_read_byte m src :: memcpy_P m (src + 1) (Z.of_nat n).
Proof.
  rewrite !memcpy_P_bytes. simpl. rewrite Z.add_0_r. f_equal.
  rewrite <- fmap_S_seq, <- list_fmap_compose.
  apply list_fmap_ext. intros i x _. simpl. f_equal. lia.
Qed.

Lemma memcpy_P_app m src (n k : nat) :
  memcpy_P m src (Z.of_nat (n + k))
  = memcpy_P m src (Z.of_nat n) ++ memcpy_P m (src + Z.of_nat n) (Z.of_nat k).
Proof.
  revert src. induction n as [| n IH]; intros src.
  - simpl. by rewrite Z.add_0_r.
  - change (S n + k)%nat with (S (n + k)).
    rewrite !memcpy_P_cons, IH. simpl. do 3 f_equal. lia.
Qed.

(** A run of bytes inside a flashed block. *)
Lemma memcpy_P_inside (before bytes after : list Z) m src :
  memcpy_P m src (Z.of_nat (length (before ++ bytes ++ after)))
  = before ++ bytes ++ after →
  memcpy_P m (src + Z.of_nat (length before)) (Z.of_nat (length bytes))
  = bytes.
Proof.
  intros Hread. rewrite !length_app, !memcpy_P_app in Hread.
  apply app_inj_1 in Hread as [_ Hread];
    [| by rewrite memcpy_P_length, Nat2Z.id].
  apply app_inj_1 in Hread as [Hread _];
    [done | by rewrite memcpy_P_length, Nat2Z.id].
Qed.

Lemma memcpy_P_lookup m src (bytes : list Z) (i : nat) (b : Z) :
  memcpy_P m src (Z.of_nat (length bytes)) = bytes →
  bytes !! i = Some b → pgm_read_byte m (src + Z.of_nat i) = b.
Proof.
  intros Hread Hb. rewrite memcpy_P_bytes in Hread.
  rewrite <- Hread in Hb. rewrite list_lookup_fmap in Hb.
  destruct (seq 0 (length bytes) !! i) as [j |] eqn:Hj; [| done].
  apply lookup_seq in Hj as [-> _]. simpl in Hb. by injection Hb.
Qed.

Section Typed.
Context {T : Type} `{TriviallyCopyableLaws T}.

Lemma sizeof_pos : 0 < sizeof.
Proof. pose proof sizeof_kind as Hkind. destruct kind; simpl in Hkind; lia. Qed.

(** What [read_progmem] and [copy_progmem] do, whichever overload or
    specialisation is selected: they rebuild the object from its
    [sizeof] cells, but for [copy_progmem] of a pointer, which is
    ill-formed. *)
Lemma read_progmem_bytes (object : Z) m :
  read_progmem m object = from_bytes (memcpy_P m object sizeof)
  ∧ copy_progmem m object
    = match kind with
      | KPointer => IllFormed
      | _ => WellFormed (from_bytes (memcpy_P m object sizeof))
      end.
Proof.
  pose proof sizeof_kind as Hkind.
  pose proof (memcpy_P_range m object sizeof) as Hrange.
  pose proof (memcpy_P_length m object sizeof) as Hlen.
  assert (Hblock : ∀ n : nat, sizeof = Z.of_nat n →
            le_split n (le_combine (memcpy_P m object sizeof))
            = memcpy_P m object sizeof).
  { intros n Hn. replace n with (length (memcpy_P m object sizeof)) by lia.
    by apply le_split_combine. }
  assert (Hbyte : sizeof = 1 →
            memcpy_P m object sizeof = [pgm_read_byte m object]
            ∧ le_split 1 (pgm_read_byte m object) = [pgm_read_byte m object]).
  { intros Hone. rewrite Hone. unfold memcpy_P. simpl. rewrite Z.add_0_r.
    split; [done |]. f_equal. apply Z.mod_small, pgm_read_byte_range. }
  unfold read_progmem, read_progmem_helper, copy_progmem,
    copy_progmem_helper, pgm_read_word, pgm_read_dword, pgm_read_float,
    pgm_read_ptr.
  destruct kind; simpl in Hkind;
    try (destruct (Hbyte Hkind) as [-> ->]; rewrite Hkind; done);
    try (rewrite <- Hkind, (Hblock 2%nat) by lia;
         replace (sizeof =? 1) with false by lia; done);
    try (rewrite <- Hkind, (Hblock 4%nat) by lia;
         replace (sizeof =? 1) with false by lia; done).
  - by rewrite <- Hkind, (Hblock 2%nat) by lia.
  - destruct (Z.eqb_spec sizeof 1) as [Hone | Hmany]; [| done].
    by destruct (Hbyte Hone) as [-> _].
Qed.

(** Every element of a flashed array reads back. *)
Lemma read_flashed_element (vs : list T) (base : Z) m (i : nat) (x : T) :
  memcpy_P m base (Z.of_nat (length (array_bytes vs))) = array_bytes vs →
  vs !! i = Some x →
  readProgmem m (base + Z.of_nat i * sizeof) = x.
Proof.
  intros Hflash Hx.
  apply list_elem_of_split_length in Hx as (vs1 & vs2 & -> & ->).
  rewrite (EepromArrayFacts.array_bytes_app vs1 (x :: vs2)),
    (EepromArrayFacts.array_bytes_cons x vs2) in Hflash.
  apply memcpy_P_inside in Hflash.
  rewrite EepromArrayFacts.array_bytes_length, (to_bytes_length x)
    in Hflash.
  replace (Z.of_nat (length vs1) * sizeof)
    with (sizeof * Z.of_nat (length vs1)) by lia.
  unfold readProgmem. rewrite (proj1 (read_progmem_bytes _ m)), Hflash.
  apply from_to_bytes.
Qed.

Lemma pointer_walk_reads (last_index : Z) (base : Z) m (vs : list T) :
  Z.of_nat (length vs) = last_index →
  (∀ (i : nat) (x : T), vs !! i = Some x →
     readProgmem m (base + Z.of_nat i * sizeof) = x) →
  ∀ (k fuel : nat), (length vs - k < fuel)%nat → (k ≤ length vs)%nat →
    ProgmemPointer.iterate fuel m
      (ProgmemPointer.mk (base + Z.of_nat k * sizeof))
      (ProgmemPointer.mk (base + last_index * sizeof))
    = Ok (drop k vs).
Proof.
  pose proof sizeof_pos as Hsize.
  intros Hlen Hread k fuel. revert k.
  induction fuel as [| fuel IH]; intros k Hfuel Hk; [lia |].
  simpl. unfold ProgmemPointer.neqb. simpl.
  destruct (Z.eqb_spec (base + Z.of_nat k * sizeof)
              (base + last_index * sizeof)) as [Heq | Hne].
  - assert (k = length vs) as -> by nia. by rewrite drop_all.
  - assert (k < length vs)%nat as Hlt
      by (destruct (decide (k = length vs)); [subst; lia | lia]).
    destruct (lookup_lt_is_Some_2 vs k Hlt) as [x Hx].
    simpl. unfold ProgmemPointer.increment. simpl.
    replace (base + Z.of_nat k * sizeof + sizeof)
      with (base + Z.of_nat (S k) * sizeof) by lia.
    rewrite IH by lia. simpl.
    unfold ProgmemReference.read, ProgmemPointer.deref. simpl.
    rewrite (Hread k x Hx). by rewrite (drop_S _ _ _ Hx).
Qed.
End Typed.

End ProgmemFacts.

Module ProgmemStringFacts.
Import Eeprom Progmem EepromFacts ProgmemFacts.

Lemma array_bytes_chars (chars : list ascii) :
  array_bytes chars = char_bytes chars.
Proof.
  induction chars as [| c chars IH]; [done |].
  rewrite EepromArrayFacts.array_bytes_cons, IH. done.
Qed.

Lemma char_bytes_length (chars : list ascii) :
  length (char_bytes chars) = length chars.
Proof. unfold char_bytes. by rewrite length_fmap. Qed.

Lemma size_loop_scan (bytes : list Z) (fuel : nat) (m : Progmem.t)
    (current count : Z) :
  memcpy_P m current (Z.of_nat (S (length bytes))) = bytes ++ [0] →
  Forall (λ b, b ≠ 0) bytes →
  0 ≤ count → count + Z.of_nat (length bytes) < SIZE_MODULUS →
  (length bytes < fuel)%nat →
  ProgmemNullString.size_loop fuel m current count
  = Ok (count + Z.of_nat (length bytes)).
Proof.
  revert fuel current count.
  induction bytes as [| b bytes IH]; intros fuel current count Hflash
    Hnonzero Hcount Hfit Hfuel;
    (destruct fuel as [| fuel]; [simpl in Hfuel; lia |]);
    rewrite memcpy_P_cons in Hflash; simpl in Hflash.
  - injection Hflash as Hhead. simpl. rewrite Hhead. simpl. f_equal. lia.
  - injection Hflash as Hhead Htail. simpl. rewrite Hhead.
    inversion Hnonzero as [| ? ? Hb Hrest]; subst.
    replace (pgm_read_byte m current =? 0) with false by lia. simpl.
    simpl in Hfit, Hfuel. rewrite wrap_small by lia.
    rewrite IH; [f_equal; lia | done | done | lia | lia | lia].
Qed.

Lemma size_loop_runs_on (fuel : nat) (m : Progmem.t) (current count : Z) :
  (∀ i : nat, (i < fuel)%nat →
     pgm_read_byte m (current + Z.of_nat i) ≠ 0) →
  ProgmemNullString.size_loop fuel m current count = OutOfFuel.
Proof.
  revert current count. induction fuel as [| fuel IH];
    intros current count Hnonzero; [done |].
  simpl. pose proof (Hnonzero 0%nat ltac:(lia)) as Hhead.
  rewrite Z.add_0_r in Hhead.
  replace (pgm_read_byte m current =? 0) with false by lia. simpl.
  apply IH. intros i Hi.
  replace (current + 1 + Z.of_nat i) with (current + Z.of_nat (S i)) by lia.
  apply Hnonzero. lia.
Qed.

End ProgmemStringFacts.

Section ProgramMemory.
Import Eeprom Progmem EepromFacts ProgmemFacts ProgmemStringFacts.

(** X20. [ProgmemNullString::size()] returns the number of bytes before
    the first NUL: over a flashed run of non-zero bytes followed by a
    zero byte, the scan returns the length of the run as soon as it is
    given more iterations than that; and it never stops on a non-zero
    byte, so over bytes none of which is zero it does not return. *)
Theorem X20_null_string_size (m : Progmem.t) (s : ProgmemNullString.t)
    (bytes : list Z) (fuel : nat) :
  memcpy_P m (ProgmemNullString.string s) (Z.of_nat (S (length bytes)))
  = bytes ++ [0] →
  Forall (λ b, b ≠ 0) bytes →
  Z.of_nat (length bytes) < SIZE_MODULUS →
  (length bytes < fuel)%nat →
  ProgmemNullString.size fuel m s = Ok (Z.of_nat (length bytes))
  ∧ ∀ (m' : Progmem.t) (fuel' : nat),
      (∀ i : nat, (i < fuel')%nat →
         pgm_read_byte m' (ProgmemNullString.string s + Z.of_nat i) ≠ 0) →
      ProgmemNullString.size fuel' m' s = OutOfFuel.
Proof.
  intros Hflash Hnonzero Hfit Hfuel. unfold ProgmemNullString.size. split.
  - rewrite (size_loop_scan bytes) by (done || lia). f_equal.
  - intros m' fuel' Hall. by apply size_loop_runs_on.
Qed.

Lemma X20_null_string_size_witness :
  ProgmemNullString.size 3 flash_hi (ProgmemNullString.mk 100) = Ok 2
  ∧ ProgmemNullString.size 2 flash_hi (ProgmemNullString.mk 100)
    = OutOfFuel.
Proof.
  destruct (X20_null_string_size flash_hi (ProgmemNullString.mk 100)
              [72; 105] 3) as [Hsize Hruns].
  - reflexivity.
  - repeat constructor; lia.
  - unfold SIZE_MODULUS. simpl. lia.
  - simpl. lia.
  - split; [exact Hsize |]. apply Hruns.
    intros [| [| i]] Hi; [by vm_compute | by vm_compute | lia].
Defined.

(** X21. A [ProgmemString] built by [PROGMEM_STRING] from a literal of
    [n] characters has [size() == n + 1]: the terminating NUL counts.
    Iterating from [begin()] to [end()] reads the [n] characters and
    then the NUL, [back()] designates the NUL, [string[i]] reads
    character [i], and converting to a [ProgmemNullString] gives a
    string whose [size()] is [n], one less, when the literal holds no
    NUL of its own. *)
Theorem X21_progmem_string_literal (m : Progmem.t) (address : Z)
    (chars : list ascii) :
  Z.of_nat (length chars) + 1 < SIZE_MODULUS →
  memcpy_P m address (Z.of_nat (S (length chars))) = char_bytes chars ++ [0] →
  let s := ProgmemString.PROGMEM_STRING address chars in
  ProgmemString.size s = Z.of_nat (length chars) + 1
  ∧ ProgmemString.contents s m = Ok (chars ++ [zero])
  ∧ (∀ (i : nat) (c : ascii), chars !! i = Some c →
       ProgmemReference.read (ProgmemString.at_index s (Z.of_nat i)) m = c)
  ∧ ProgmemReference.read (ProgmemString.back s) m = zero
  ∧ (Forall (λ c, c ≠ zero) chars →
     ∀ fuel : nat, (length chars < fuel)%nat →
       ProgmemNullString.size fuel m (ProgmemString.to_null_string s)
       = Ok (Z.of_nat (length chars))).
Proof.
  intros Hfit Hflash s.
  assert (ProgmemString.size s = Z.of_nat (length chars) + 1) as Hsize.
  { unfold s, ProgmemString.PROGMEM_STRING, ProgmemString.size. simpl.
    apply wrap_small. lia. }
  assert (Hread : ∀ (i : nat) (c : ascii), (chars ++ [zero]) !! i = Some c →
            readProgmem m (address + Z.of_nat i * sizeof) = c).
  { intros i c. apply (read_flashed_element (chars ++ [zero]) address m).
    rewrite array_bytes_chars. unfold char_bytes at 1 2.
    rewrite fmap_app, length_app, length_fmap. simpl.
    replace (length chars + 1)%nat with (S (length chars)) by lia.
    exact Hflash. }
  split; [exact Hsize |]. split.
  { unfold ProgmemString.contents, ProgmemString.begin, ProgmemString.end_.
    fold (ProgmemString.size s). rewrite Hsize.
    assert (Hwalk : ∀ fuel : nat, (length chars + 1 < fuel)%nat →
              ProgmemPointer.iterate fuel m
                (ProgmemPointer.mk (address + 0))
                (ProgmemPointer.mk (address + (Z.of_nat (length chars) + 1)))
              = Ok (chars ++ [zero])).
    { intros fuel Hfuel.
      pose proof (pointer_walk_reads (Z.of_nat (length chars) + 1) address m
                    (chars ++ [zero])) as Hwalk.
      rewrite length_app in Hwalk. simpl in Hwalk.
      specialize (Hwalk ltac:(lia) Hread 0%nat fuel).
      rewrite drop_0 in Hwalk. simpl in Hwalk.
      rewrite ?Z.mul_1_r in Hwalk. change (Z.of_nat 0) with 0 in Hwalk.
      apply Hwalk; lia. }
    apply Hwalk. pose proof loop_fuel_value. unfold SIZE_MODULUS in *. lia. }
  split.
  { intros i c Hc. unfold ProgmemReference.read, ProgmemString.at_index.
    simpl. pose proof (Hread i c) as Hi. simpl in Hi.
    rewrite Z.mul_1_r in Hi. apply Hi. by apply lookup_app_l_Some. }
  split.
  { unfold ProgmemReference.read, ProgmemString.back. rewrite Hsize.
    rewrite wrap_small by lia. simpl.
    pose proof (Hread (length chars) zero) as Hi. simpl in Hi.
    rewrite Z.mul_1_r in Hi.
    replace (Z.of_nat (length chars) + 1 - 1) with (Z.of_nat (length chars))
      by lia.
    apply Hi. by rewrite lookup_app_r, Nat.sub_diag by lia. }
  intros Hnonzero fuel Hfuel.
  unfold ProgmemNullString.size, ProgmemString.to_null_string. simpl.
  rewrite (size_loop_scan (char_bytes chars));
    rewrite ?char_bytes_length; try done; try lia.
  unfold char_bytes. apply Forall_fmap.
  eapply Forall_impl; [exact Hnonzero |]. intros c Hc. simpl.
  intros Hzero. apply Hc.
  rewrite <- (ascii_N_embedding c).
  replace (N_of_ascii c) with 0%N by lia. done.
Qed.

Lemma X21_progmem_string_literal_witness :
  ProgmemString.size (ProgmemString.PROGMEM_STRING 100 ["H"; "i"]%char)
  = Z.of_nat 2 + 1
  ∧ ProgmemString.contents
      (ProgmemString.PROGMEM_STRING 100 ["H"; "i"]%char) flash_hi
    = Ok (["H"; "i"]%char ++ [zero])
  ∧ (∀ (i : nat) (c : ascii), ["H"; "i"]%char !! i = Some c →
       ProgmemReference.read
         (ProgmemString.at_index
            (ProgmemString.PROGMEM_STRING 100 ["H"; "i"]%char) (Z.of_nat i))
         flash_hi = c)
  ∧ ProgmemReference.read
      (ProgmemString.back (ProgmemString.PROGMEM_STRING 100 ["H"; "i"]%char))
      flash_hi = zero
  ∧ ProgmemNullString.size 3 flash_hi
      (ProgmemString.to_null_string
         (ProgmemString.PROGMEM_STRING 100 ["H"; "i"]%char))
    = Ok (Z.of_nat 2).
Proof.
  destruct (X21_progmem_string_literal flash_hi 100 ["H"; "i"]%char)
    as (Hsize & Hcontents & Hat & Hback & Hscan).
  - unfold SIZE_MODULUS. simpl. lia.
  - reflexivity.
  - split; [exact Hsize |]. split; [exact Hcontents |].
    split; [exact Hat |]. split; [exact Hback |].
    apply Hscan; [| simpl; lia].
    repeat constructor; discriminate.
Defined.



(** X23. A [ProgmemArray<Type, N>] over a flashed array of [N] elements
    reads every element: [array[i]] converts to element [i], the
    indexed loop over [size()] and the iteration from [begin()] to
    [end()] both yield the elements in order, and [front()] and
    [back()] convert to the first and the last element. *)
Theorem X23_progmem_array_elements (T : Type) `{TriviallyCopyableLaws T}
    (capacity : Z) (a : ProgmemArray.t) (vs : list T) (m : Progmem.t) :
  Z.of_nat (length vs) = capacity → capacity < SIZE_MODULUS →
  memcpy_P m (ProgmemArray.elements a) (Z.of_nat (length (array_bytes vs)))
  = array_bytes vs →
  (∀ (i : nat) (x : T), vs !! i = Some x →
     ProgmemReference.read (ProgmemArrayElements.at_index a (Z.of_nat i)) m
     = x)
  ∧ ProgmemArrayElements.indexed capacity a m = vs
  ∧ ProgmemArrayElements.contents capacity a m = Ok vs
  ∧ (∀ x, head vs = Some x →
       ProgmemReference.read (ProgmemArrayElements.front a) m = x)
  ∧ (∀ x, last vs = Some x →
       ProgmemReference.read (ProgmemArrayElements.back capacity a) m = x).
Proof.
  intros Hlen Hfit Hflash.
  assert (Hread : ∀ (i : nat) (x : T), vs !! i = Some x →
            readProgmem m (ProgmemArray.elements a + Z.of_nat i * sizeof)
            = x).
  { intros i x Hx. by apply (read_flashed_element vs). }
  split; [exact Hread |]. split.
  { unfold ProgmemArrayElements.indexed, ProgmemArray.size.
    apply list_eq. intros i. rewrite list_lookup_fmap.
    destruct (vs !! i) as [x |] eqn:Hx.
    - pose proof (lookup_lt_Some _ _ _ Hx) as Hlt.
      rewrite lookup_seqZ_lt by lia. simpl. f_equal.
      rewrite Z.add_0_l. by apply Hread.
    - apply lookup_ge_None in Hx.
      rewrite lookup_seqZ_ge by lia. done. }
  split.
  { unfold ProgmemArrayElements.contents, ProgmemArrayElements.begin,
      ProgmemArrayElements.end_, ProgmemArrayElements.element_address.
    pose proof (pointer_walk_reads capacity (ProgmemArray.elements a) m vs
                  Hlen Hread 0 LOOP_FUEL) as Hwalk.
    change (Z.of_nat 0) with 0 in Hwalk. rewrite drop_0 in Hwalk.
    apply Hwalk; [| lia].
    pose proof loop_fuel_value. lia. }
  split.
  - intros x Hx. rewrite head_lookup in Hx. by apply (Hread 0%nat).
  - intros x Hx. apply last_is_lookup in Hx.
    pose proof (lookup_lt_Some _ _ _ Hx) as Hlt.
    unfold ProgmemArrayElements.back.
    rewrite wrap_small by (unfold SIZE_MODULUS in *; lia).
    replace (capacity - 1) with (Z.of_nat (length vs - 1)) by lia.
    by apply Hread.
Qed.

Lemma X23_progmem_array_elements_witness :
  (∀ (i : nat) (x : ascii), ["H"; "i"]%char !! i = Some x →
     ProgmemReference.read
       (ProgmemArrayElements.at_index (ProgmemArray.mk 100) (Z.of_nat i))
       flash_hi = x)
  ∧ ProgmemArrayElements.indexed 2 (ProgmemArray.mk 100) flash_hi
    = ["H"; "i"]%char
  ∧ ProgmemArrayElements.contents 2 (ProgmemArray.mk 100) flash_hi
    = Ok ["H"; "i"]%char
  ∧ (∀ x, head ["H"; "i"]%char = Some x →
       ProgmemReference.read
         (ProgmemArrayElements.front (ProgmemArray.mk 100)) flash_hi = x)
  ∧ (∀ x, last ["H"; "i"]%char = Some x →
       ProgmemReference.read
         (ProgmemArrayElements.back 2 (ProgmemArray.mk 100)) flash_hi = x).
Proof.
  apply (X23_progmem_array_elements ascii (H0 := char_TriviallyCopyableLaws)
           2 (ProgmemArray.mk 100) ["H"; "i"]%char flash_hi).
  - reflexivity.
  - unfold SIZE_MODULUS. lia.
  - reflexivity.
Defined.
End ProgramMemory.

(** ** Arrays and iterators *)

Module ArrayFacts.

Section Facts.
Context {T : Type}.

Lemma fill_run (v : T) (n : nat) (k : nat) (a : list T) :
  (k + n)%nat = length a →
  for_each (seqZ (Z.of_nat k) (Z.of_nat n))
    (λ index e, array_set e index v) a
  = Ok (take k a ++ replicate n v).
Proof.
  revert k a. induction n as [| n IH]; intros k a Hlen.
  - simpl. rewrite app_nil_r, take_ge by lia. done.
  - rewrite seqZ_cons by lia. simpl.
    rewrite array_set_Ok by lia. simpl.
    replace (Z.succ (Z.of_nat k)) with (Z.of_nat (S k)) by lia.
    replace (Z.pred (Z.of_nat (S n))) with (Z.of_nat n) by lia.
    rewrite IH by (rewrite length_insert; lia).
    f_equal. rewrite Nat2Z.id.
    destruct (lookup_lt_is_Some_2 a k) as [x Hx]; [lia |].
    rewrite (take_S_r _ _ v)
      by (apply list_lookup_insert_eq; lia).
    rewrite take_insert_ge by lia. rewrite <- app_assoc. done.
Qed.

Lemma reverse_walk (a : list T) (l : list T) (k fuel : nat) :
  (∀ (i : nat) (x : T), l !! i = Some x → a !! i = Some x) →
  (k ≤ length l)%nat → (k < fuel)%nat →
  ReverseIterator.iterate fuel a (ReverseIterator.mk (Z.of_nat k))
    (ReverseIterator.mk 0)
  = Ok (reverse (take k l)).
Proof.
  intros Hslots. revert fuel. induction k as [| k IH]; intros fuel Hk Hfuel;
    (destruct fuel as [| fuel]; [lia |]).
  - done.
  - cbn [ReverseIterator.iterate].
    unfold ReverseIterator.neqb, ReverseIterator.base,
      ReverseIterator.deref, ReverseIterator.increment.
    cbn [ReverseIterator.iterator].
    destruct (Z.eqb_spec (Z.of_nat (S k)) 0) as [Hzero | _]; [lia |].
    cbn [negb].
    replace (Z.of_nat (S k) - 1) with (Z.of_nat k) by lia.
    destruct (lookup_lt_is_Some_2 l k) as [x Hx]; [lia |].
    rewrite (array_get_Ok a (Z.of_nat k) x)
      by first [lia | rewrite Nat2Z.id; by apply Hslots].
    simpl. rewrite IH by lia. simpl.
    by rewrite (take_S_r _ _ _ Hx), reverse_snoc.
Qed.
End Facts.

End ArrayFacts.

Section ArraysAndIterators.
Import ArrayFacts.

(** X24. On a [utils::Array<Type, N>], [fill(value)] returns with every
    one of the [N] elements equal to [value]; [a.swap(b)] exchanges the
    whole contents of the two arrays; [operator[]] with an index of [N]
    or more designates an element outside the array; and [empty()]
    holds exactly when [size()] is 0. *)
Theorem X24_array_fill_and_swap (T : Type) (capacity : Z)
    (a b : Array.t T) (v : T) :
  Z.of_nat (length (Array.elements a)) = capacity →
  Z.of_nat (length (Array.elements b)) = capacity →
  Array.fill capacity v a = Ok (Array.mk (replicate (Z.to_nat capacity) v))
  ∧ (∀ a', Array.fill capacity v a = Ok a' →
       ∀ index, 0 ≤ index < Array.size capacity a' →
         Array.at_index a' index = Ok v)
  ∧ Array.swap capacity a b = Ok (b, a)
  ∧ (∀ index, capacity ≤ index →
       Array.at_index a index = OutOfBounds index)
  ∧ (Array.empty capacity a = true ↔ Array.size capacity a = 0).
Proof.
  intros Hlen_a Hlen_b.
  assert (Array.fill capacity v a
          = Ok (Array.mk (replicate (Z.to_nat capacity) v))) as Hfill.
  { unfold Array.fill, for_up. rewrite Z.sub_0_r.
    pose proof (fill_run v (length (Array.elements a)) 0 (Array.elements a))
      as Hrun.
    change (Z.of_nat 0) with 0 in Hrun. rewrite Hlen_a in Hrun.
    rewrite Hrun by lia. simpl. do 3 f_equal. lia. }
  split; [exact Hfill |]. split.
  { intros a' Hrun index Hindex. rewrite Hfill in Hrun.
    injection Hrun as <-. unfold Array.at_index, Array.size in *. simpl.
    apply array_get_Ok; [lia |]. apply lookup_replicate_2. lia. }
  split.
  { unfold Array.swap.
    rewrite (swap_arrays_exchanges capacity _ _ Hlen_a Hlen_b). simpl.
    by destruct a, b. }
  split.
  { intros index Hindex. unfold Array.at_index. apply array_get_out. lia. }
  unfold Array.empty, Array.size. apply Z.eqb_eq.
Qed.

Lemma X24_array_fill_and_swap_witness :
  Array.fill 3 "z"%char array_abc
  = Ok (Array.mk (replicate (Z.to_nat 3) "z"%char))
  ∧ (∀ a', Array.fill 3 "z"%char array_abc = Ok a' →
       ∀ index, 0 ≤ index < Array.size 3 a' →
         Array.at_index a' index = Ok "z"%char)
  ∧ Array.swap 3 array_abc array_xyz = Ok (array_xyz, array_abc)
  ∧ (∀ index, 3 ≤ index →
       Array.at_index array_abc index = OutOfBounds index)
  ∧ (Array.empty 3 array_abc = true ↔ Array.size 3 array_abc = 0).
Proof.
  apply (X24_array_fill_and_swap ascii 3 array_abc array_xyz "z"%char);
    reflexivity.
Defined.

(** X25. Walking a [utils::ReverseIterator] from
    [makeReverseIterator(deque.end())] to
    [makeReverseIterator(deque.begin())] over a linear [Deque<T, N>]
    reads its elements back to front, each exactly once, and stops. *)
Theorem X25_reverse_traversal (T : Type) (capacity : Z) (d : Deque.t T)
    (l : list T) :
  capacity < SIZE_MODULUS →
  DequeSpec.models capacity d l →
  ReverseIterator.reversed d = Ok (reverse l).
Proof.
  intros Hfit (Hlen & Hcount & Hle & Hslots).
  unfold ReverseIterator.reversed, ReverseIterator.makeReverseIterator,
    Deque.end_, Deque.begin, Deque.get_end_index, Deque.get_begin_index.
  rewrite Hcount.
  rewrite (reverse_walk (Deque.elements d) l (length l) LOOP_FUEL Hslots).
  - by rewrite firstn_all.
  - lia.
  - pose proof loop_fuel_value. lia.
Qed.

Lemma X25_reverse_traversal_witness :
  ReverseIterator.reversed linear_abc = Ok (reverse ["a"; "b"; "c"]%char).
Proof.
  apply (X25_reverse_traversal ascii 4 linear_abc ["a"; "b"; "c"]%char).
  - unfold SIZE_MODULUS. lia.
  - exact linear_abc_models.
Defined.

(** X26. For the reverse iterator [r = makeReverseIterator(deque.end())]
    of a linear [Deque<T, N>] holding [l]: [*(r + n)] reads the element
    [n] places from the back; [r - n] is the same iterator as [r + n];
    and [r[k]] reads two elements later than [*(r + k)], so that
    element [n] of [l] is what [r[size() + 1 - n]] reads, the last
    element is [r[2]], and [r[0]] designates the slot after the
    past-the-end slot, outside the array when the deque is full. *)
Theorem X26_reverse_iterator_offsets (T : Type) (capacity : Z)
    (d : Deque.t T) (l : list T) :
  DequeSpec.models capacity d l →
  let a := Deque.elements d in
  let r := ReverseIterator.makeReverseIterator (Deque.end_ d) in
  (∀ (n : nat) (x : T), (n < length l)%nat →
     l !! (length l - 1 - n)%nat = Some x →
     ReverseIterator.deref a (ReverseIterator.plus r (Z.of_nat n)) = Ok x)
  ∧ (∀ offset, ReverseIterator.minus r offset = ReverseIterator.plus r offset)
  ∧ (∀ (n : nat) (x : T), l !! n = Some x →
       ReverseIterator.at_offset a r (Deque.size d + 1 - Z.of_nat n) = Ok x)
  ∧ (∀ offset, ReverseIterator.at_offset a r offset
               = ReverseIterator.deref a (ReverseIterator.plus r (offset - 2)))
  ∧ (Deque.size d = Deque.max_size capacity d →
     ReverseIterator.at_offset a r 0 = OutOfBounds (capacity + 1)
     ∧ ReverseIterator.at_offset a r 1 = OutOfBounds capacity).
Proof.
  intros (Hlen & Hcount & Hle & Hslots) a r.
  unfold r, a, ReverseIterator.makeReverseIterator, ReverseIterator.deref,
    ReverseIterator.at_offset, ReverseIterator.plus, ReverseIterator.minus,
    Deque.end_, Deque.get_end_index, Deque.size, Deque.max_size.
  simpl. rewrite Hcount. split; [| split; [| split; [| split]]].
  - intros n x Hn Hx. apply array_get_Ok; [lia |].
    replace (Z.to_nat (Z.of_nat (length l) - Z.of_nat n - 1))
      with (length l - 1 - n)%nat by lia.
    by apply Hslots.
  - done.
  - intros n x Hx. pose proof (lookup_lt_Some _ _ _ Hx) as Hlt.
    replace (Z.of_nat (length l)
             - (Z.of_nat (length l) + 1 - Z.of_nat n - 1))
      with (Z.of_nat n) by lia.
    apply array_get_Ok; [lia |]. rewrite Nat2Z.id. by apply Hslots.
  - intros offset. f_equal. lia.
  - intros Hfull. rewrite Hfull. split.
    + replace (capacity - (0 - 1)) with (capacity + 1) by lia.
      apply array_get_out. lia.
    + replace (capacity - (1 - 1)) with capacity by lia.
      apply array_get_out. lia.
Qed.

Lemma X26_reverse_iterator_offsets_witness :
  (∀ (n : nat) (x : ascii), (n < 4)%nat →
     ["a"; "b"; "c"; "d"]%char !! (4 - 1 - n)%nat = Some x →
     ReverseIterator.deref (Deque.elements linear_abcd)
       (ReverseIterator.plus
          (ReverseIterator.makeReverseIterator (Deque.end_ linear_abcd))
          (Z.of_nat n)) = Ok x)
  ∧ (∀ offset,
       ReverseIterator.minus
         (ReverseIterator.makeReverseIterator (Deque.end_ linear_abcd)) offset
       = ReverseIterator.plus
           (ReverseIterator.makeReverseIterator (Deque.end_ linear_abcd))
           offset)
  ∧ (∀ (n : nat) (x : ascii), ["a"; "b"; "c"; "d"]%char !! n = Some x →
       ReverseIterator.at_offset (Deque.elements linear_abcd)
         (ReverseIterator.makeReverseIterator (Deque.end_ linear_abcd))
         (Deque.size linear_abcd + 1 - Z.of_nat n) = Ok x)
  ∧ (∀ offset,
       ReverseIterator.at_offset (Deque.elements linear_abcd)
         (ReverseIterator.makeReverseIterator (Deque.end_ linear_abcd)) offset
       = ReverseIterator.deref (Deque.elements linear_abcd)
           (ReverseIterator.plus
              (ReverseIterator.makeReverseIterator (Deque.end_ linear_abcd))
              (offset - 2)))
  ∧ ReverseIterator.at_offset (Deque.elements linear_abcd)
      (ReverseIterator.makeReverseIterator (Deque.end_ linear_abcd)) 0
    = OutOfBounds (4 + 1)
  ∧ ReverseIterator.at_offset (Deque.elements linear_abcd)
      (ReverseIterator.makeReverseIterator (Deque.end_ linear_abcd)) 1
    = OutOfBounds 4.
Proof.
  destruct (X26_reverse_iterator_offsets ascii 4 linear_abcd
              ["a"; "b"; "c"; "d"]%char linear_abcd_models)
    as (Hplus & Hminus & Hat & Hoff & Hfull).
  split; [exact Hplus |]. split; [exact Hminus |]. split; [exact Hat |].
  split; [exact Hoff |]. apply Hfull. reflexivity.
Defined.

(** X27. On an [IndexIterator] whose index is a [size_t]: [++] and [--]
    undo each other, also across the wrap at 65535; [it += n] followed
    by [it -= n] restores [it], and the difference of the two iterators
    is [n], for every [n] a [ptrdiff_t] can hold; iterators of
    different containers are never equal and never ordered, every one
    of [==], [<], [>], [<=], [>=] being false on them; and
    [end - begin] of a container is its size only below 32768, above
    which it is negative. *)
Theorem X27_index_iterator_arithmetic (a b : IndexIterator.t)
    (offset size : Z) :
  0 ≤ IndexIterator.index a < SIZE_MODULUS →
  - (SIZE_MODULUS / 2) ≤ offset < SIZE_MODULUS / 2 →
  0 ≤ size < SIZE_MODULUS →
  IndexIterator.decrement (IndexIterator.increment a) = a
  ∧ IndexIterator.increment (IndexIterator.decrement a) = a
  ∧ IndexIterator.minus_assign (IndexIterator.plus_assign a offset) offset = a
  ∧ IndexIterator.difference (IndexIterator.plus_assign a offset) a = offset
  ∧ IndexIterator.neqb a b = negb (IndexIterator.eqb a b)
  ∧ (IndexIterator.container a ≠ IndexIterator.container b →
     IndexIterator.eqb a b = false ∧ IndexIterator.ltb a b = false
     ∧ IndexIterator.gtb a b = false ∧ IndexIterator.leb a b = false
     ∧ IndexIterator.geb a b = false)
  ∧ IndexIterator.difference
      (IndexIterator.make_end (IndexIterator.container a) size)
      (IndexIterator.make_begin (IndexIterator.container a))
    = (if size <? 32768 then size else size - 65536).
Proof.
  intros Hindex Hoffset Hsize. destruct a as [c i], b as [c' i'].
  unfold IndexIterator.decrement, IndexIterator.increment,
    IndexIterator.minus_assign, IndexIterator.plus_assign,
    IndexIterator.difference, IndexIterator.to_difference,
    IndexIterator.neqb, IndexIterator.eqb, IndexIterator.ltb,
    IndexIterator.gtb, IndexIterator.leb, IndexIterator.geb,
    IndexIterator.make_end, IndexIterator.make_begin, wrap, SIZE_MODULUS
    in *.
  simpl in *.
  split; [f_equal; Z.div_mod_to_equations; lia |].
  split; [f_equal; Z.div_mod_to_equations; lia |].
  split; [f_equal; Z.div_mod_to_equations; lia |].
  split.
  { change (65536 / 2) with 32768 in *.
    destruct (Z.ltb_spec (((i + offset) mod 65536 - i) mod 65536) 32768);
      Z.div_mod_to_equations; lia. }
  split; [by rewrite negb_andb |].
  split.
  { intros Hother. replace (c =? c') with false by lia. done. }
  change (65536 / 2) with 32768. rewrite Z.sub_0_r, Z.mod_small by lia.
  done.
Qed.

Lemma X27_index_iterator_arithmetic_witness :
  IndexIterator.decrement (IndexIterator.increment (IndexIterator.mk 1 65535))
  = IndexIterator.mk 1 65535
  ∧ IndexIterator.increment (IndexIterator.decrement (IndexIterator.mk 1 65535))
    = IndexIterator.mk 1 65535
  ∧ IndexIterator.minus_assign
      (IndexIterator.plus_assign (IndexIterator.mk 1 65535) (-3)) (-3)
    = IndexIterator.mk 1 65535
  ∧ IndexIterator.difference
      (IndexIterator.plus_assign (IndexIterator.mk 1 65535) (-3))
      (IndexIterator.mk 1 65535) = -3
  ∧ IndexIterator.neqb (IndexIterator.mk 1 65535) (IndexIterator.mk 2 0)
    = negb (IndexIterator.eqb (IndexIterator.mk 1 65535)
              (IndexIterator.mk 2 0))
  ∧ (IndexIterator.eqb (IndexIterator.mk 1 65535) (IndexIterator.mk 2 0)
     = false
     ∧ IndexIterator.ltb (IndexIterator.mk 1 65535) (IndexIterator.mk 2 0)
       = false
     ∧ IndexIterator.gtb (IndexIterator.mk 1 65535) (IndexIterator.mk 2 0)
       = false
     ∧ IndexIterator.leb (IndexIterator.mk 1 65535) (IndexIterator.mk 2 0)
       = false
     ∧ IndexIterator.geb (IndexIterator.mk 1 65535) (IndexIterator.mk 2 0)
       = false)
  ∧ IndexIterator.difference (IndexIterator.make_end 1 40000)
      (IndexIterator.make_begin 1)
    = (if 40000 <? 32768 then 40000 else 40000 - 65536).
Proof.
  destruct (X27_index_iterator_arithmetic (IndexIterator.mk 1 65535)
              (IndexIterator.mk 2 0) (-3) 40000)
    as (H1 & H2 & H3 & H4 & H5 & H6 & H7).
  - unfold SIZE_MODULUS. simpl. lia.
  - unfold SIZE_MODULUS. change (65536 / 2) with 32768. lia.
  - unfold SIZE_MODULUS. lia.
  - split; [exact H1 |]. split; [exact H2 |]. split; [exact H3 |].
    split; [exact H4 |]. split; [exact H5 |].
    split; [apply H6; simpl; lia | exact H7].
Defined.
End ArraysAndIterators.
